(** * dp-backend: ingestion, deduplication, consistency and statistics

    A shallow embedding of the STH routes of the backend
    ([src/routes/sth.ts], [src/routes/stats.ts]), of the padding migration
    and of the handlers of the revision before the normalizer, with the
    properties of the ingestion pipeline, the cross-monitor consistency
    check and the statistics snapshot.

    Conventions of the embedding.
    - A JavaScript string is a [string]; one character stands for one
      UTF-16 code unit, so [String.length] is the [.length] of the source.
      The model has 256 code units; nothing but the parsing of a numeric
      string looks into a character.  The database counts the characters
      of a text, not its code units: its [LENGTH] is a parameter of the
      migration.
    - The body of a submission is a JSON object as [express.json ()]
      parses it, and the handler reads its properties without a check of
      their types: a property is absent, [null], a boolean, a number, a
      string or an array of strings (module [Js]).  Properties that are
      objects, or arrays with other elements, are not modelled.
    - An exception that escapes a handler ([BigInt] on a value that is
      not an integer, the Prisma client on an argument that is not of the
      type or not in the range of its column) is answered by the
      framework with status 500, and the store is as it was: the handlers
      write at most once, last.  On arguments that fit, a call of the
      store is taken to succeed.
    - A [bigint] is a [Z].  A [Date] is its [getTime ()], a [Z] of
      milliseconds since the epoch.
    - A JavaScript number that holds an integer (a count, a converted
      bigint) is the [Z] it denotes; the numbers of the rate, staleness,
      growth and lag computations, which are or may be fractions, are
      rationals rounded to binary64 after every operation (section
      [Binary64]).
    - The handlers are asynchronous but await every store call in turn, so
      a handler is a function from the store before to a response and the
      store after.  The statistics handler only reads: all its queries
      are answered from the store at the instant of the request.
      [console.log] output is not part of the model. *)

From Stdlib Require Import ZArith QArith Qround Qabs Qpower Lia Lqa Bool Ascii.
From stdpp Require Import base list strings gmap.

Local Open Scope Z_scope.

(** ** JavaScript values *)

(** A value that is a string or is absent: an environment variable, a
    request header. *)
Inductive field (A : Type) : Type :=
  | undefined : field A
  | null : field A
  | val : A → field A.
Arguments undefined {A}.
Arguments null {A}.
Arguments val {A} _.

(** [!x] at such a value: true of [undefined], [null] and [""]. *)
Definition falsy (x : field string) : bool :=
  match x with
  | val s => if decide (s = "") then true else false
  | _ => true
  end.

(** The string of a value that passed its test. *)
Definition get {A} (d : A) (x : field A) : A :=
  match x with val a => a | _ => d end.

(** ["=".repeat (n)] and, in general, [s.repeat (n)]. *)
Fixpoint repeat (s : string) (n : nat) : string :=
  match n with
  | O => ""
  | S n' => s +:+ repeat s n'
  end.

(** A property of the parsed JSON body, which the handler destructures
    without a check of its type: absent, [null], a boolean, a number (the
    rational it denotes), a string or an array of strings.  Objects and
    arrays with other elements are not modelled.  The numbers that the
    parser yields are the binary64 ones; a number literal that overflows
    parses to [Infinity], which every operation modelled here treats as
    it treats a number with a fraction. *)
Module Js.

Inductive t : Type :=
  | undefined
  | null
  | boolean (b : bool)
  | number (x : Q)
  | str (s : string)
  | array (l : list string).

(** [x == null]: true of [undefined] and of [null] only. *)
Definition nullish (x : t) : bool :=
  match x with undefined | null => true | _ => false end.

(** [!x]: true of [undefined], [null], [false], [0] and [""]. *)
Definition falsy (x : t) : bool :=
  match x with
  | undefined | null => true
  | boolean b => negb b
  | number x => Qeq_bool x 0
  | str s => bool_decide (s = "")
  | array _ => false
  end.

(** The string of an array, which [+] and [BigInt] read: its elements
    joined by commas. *)
Definition join (l : list string) : string := String.concat "," l.

(** A property is missing when it is absent or [null]; it is blank when
    it is missing, [false], [0] or the empty string. *)
Definition missing (x : t) : Prop := x = undefined ∨ x = null.
Definition blank (x : t) : Prop :=
  missing x ∨ x = boolean false ∨ (∃ q, x = number q ∧ (q == 0)%Q)
  ∨ x = str "".

End Js.

(** The code unit of a character. *)
Definition code (c : ascii) : Z := Z.of_N (N_of_ascii c).

(** The white space and line terminators that a numeric string may start
    and end with: TAB, LF, VT, FF, CR, SP and NBSP. *)
Definition StrWhiteSpaceChar (c : ascii) : bool :=
  (9 <=? code c) && (code c <=? 13) || (code c =? 32) || (code c =? 160).

Fixpoint trimStart (s : string) : string :=
  match s with
  | String c s' => if StrWhiteSpaceChar c then trimStart s' else s
  | EmptyString => EmptyString
  end.

Definition trim (s : string) : string :=
  String.rev (trimStart (String.rev (trimStart s))).

(** The value of a digit in the given radix. *)
Definition digit (radix : Z) (c : ascii) : option Z :=
  let n := code c in
  let d := if (48 <=? n) && (n <=? 57) then n - 48
           else if (97 <=? n) && (n <=? 122) then n - 87
           else if (65 <=? n) && (n <=? 90) then n - 55
           else radix in
  if d <? radix then Some d else None.

Fixpoint digits (radix acc : Z) (s : string) : option Z :=
  match s with
  | EmptyString => Some acc
  | String c s' => d ← digit radix c; digits radix (acc * radix + d) s'
  end.

(** One digit or more. *)
Definition literal (radix : Z) (s : string) : option Z :=
  match s with
  | EmptyString => None
  | _ => digits radix 0 s
  end.

(** [StringToBigInt]: the integer that a string denotes, [None] where
    [BigInt] throws a [SyntaxError].  The string is trimmed; the empty
    string denotes 0; a decimal literal may carry a sign; a literal that
    starts with [0x], [0o] or [0b] is hexadecimal, octal or binary. *)
Definition StringToBigInt (s : string) : option Z :=
  match trim s with
  | EmptyString => Some 0
  | String c s' =>
      if code c =? 43 then literal 10 s'
      else if code c =? 45 then Z.opp <$> literal 10 s'
      else
        match s' with
        | String c' s'' =>
            if (code c =? 48) && ((code c' =? 120) || (code c' =? 88))
            then literal 16 s''
            else if (code c =? 48) && ((code c' =? 111) || (code c' =? 79))
            then literal 8 s''
            else if (code c =? 48) && ((code c' =? 98) || (code c' =? 66))
            then literal 2 s''
            else literal 10 (String c s')
        | EmptyString => literal 10 (String c s')
        end
  end.

(** [BigInt (x)], [None] where it throws: a boolean is 0 or 1, a number
    is itself when it is an integer (a [RangeError] otherwise), a string is
    parsed, an array is parsed as its string; [undefined] and [null] are a
    [TypeError]. *)
Definition BigInt (x : Js.t) : option Z :=
  match x with
  | Js.boolean b => Some (if b then 1 else 0)
  | Js.number q =>
      if Qnum q mod Z.pos (Qden q) =? 0 then Some (Qnum q / Z.pos (Qden q))
      else None
  | Js.str s => StringToBigInt s
  | Js.array l => StringToBigInt (Js.join l)
  | Js.undefined | Js.null => None
  end.

(** [Number (n)] at a bigint [n]: the nearest binary64 value, ties to the
    even significand.  A binary64 significand has 53 bits, so the low
    [e = log2 |n| - 52] bits are rounded away when [e] is positive.  The
    columns read by the routes are 64-bit, far below the overflow
    threshold (2^1024), so the result is always finite: an integer. *)
Definition Number (n : Z) : Z :=
  let a := Z.abs n in
  let e := Z.log2 a - 52 in
  if e <=? 0 then n
  else
    let q := a / 2 ^ e in
    let r := a mod 2 ^ e in
    let half := 2 ^ (e - 1) in
    let m := if r <? half then q
             else if half <? r then q + 1
             else if Z.even q then q else q + 1 in
    Z.sgn n * (m * 2 ^ e).

(** ** JavaScript numbers with a fraction

    A finite number is the rational it denotes.  An arithmetic operation
    is the exact operation followed by rounding to binary64: to 53
    significant bits, nearest, ties to the even significand.  The model has
    no exponent range: the statistics stay far from the underflow (2^-1022)
    and overflow (2^1024) thresholds. *)

Section Binary64.
Local Open Scope Q_scope.

(** [floor (log2 x)] at a positive rational [x]. *)
Definition ilog2 (x : Q) : Z :=
  let k := (Z.log2 (Qnum x) - Z.log2 (Z.pos (Qden x)))%Z in
  if Qle_bool (2 ^ k) x then k else (k - 1)%Z.

(** The nearest integer, ties to the even one. *)
Definition rnd_even (x : Q) : Z :=
  let f := Qfloor x in
  match Qcompare (x - inject_Z f) (1 # 2) with
  | Lt => f
  | Gt => (f + 1)%Z
  | Eq => if Z.even f then f else (f + 1)%Z
  end.

(** Rounding to binary64: the significand [x / 2^e] is rounded to an
    integer of 53 bits. *)
Definition fl (x : Q) : Q :=
  if Qeq_bool x 0 then 0
  else
    let e := (ilog2 (Qabs x) - 52)%Z in
    inject_Z (rnd_even (x / 2 ^ e)) * 2 ^ e.

(** [a - b], [a * b] and [a / b] on numbers. *)
Definition fsub (a b : Q) : Q := fl (a - b).
Definition fmul (a b : Q) : Q := fl (a * b).
Definition fdiv (a b : Q) : Q := fl (a / b).

(** [Math.round (x)]: the integer nearest to [x], halves up. *)
Definition Math_round (x : Q) : Q := inject_Z (Qfloor (x + (1 # 2))).

(** [x > 0]. *)
Definition gt0 (x : Q) : bool := negb (Qle_bool x 0).

End Binary64.

(** ** The attestation store *)

(** A row of table [sths] as the Prisma client returns it. *)
Module Sth.
Record t : Type := mk {
  id : Z;
  logId : string;
  treeSize : Z;
  rootHash : string;
  timestamp : Z;
  monitorId : string;
  storedAt : Z
}.
End Sth.

(** The table, in insertion order, and its [SERIAL] sequence.  The
    [BIGINT] columns hold 64-bit integers; the model does not bound them. *)
Record Store : Type := mkStore {
  rows : list Sth.t;
  next_id : Z
}.

Definition empty_store : Store := {| rows := []; next_id := 1 |}.

Inductive order : Type := asc | desc.

(** The first element of [l], in list order, that no other element
    beats: [ORDER BY ... LIMIT 1]. *)
Fixpoint first_best (beats : Sth.t → Sth.t → bool) (l : list Sth.t)
  : option Sth.t :=
  match l with
  | [] => None
  | x :: l' =>
      match first_best beats l' with
      | Some y => if beats y x then Some y else Some x
      | None => Some x
      end
  end.

Module prisma.

(** Modelled from the spec: [prisma.sth.findFirst ({ where, orderBy })] of
    the Prisma client ([src/prisma.ts] and the Prisma schema are not among
    the sources; the table is that of the migrations): "exact-match lookup
    by (log_id, tree_size, root_hash); exact-match lookup by (log_id) or
    (log_id, monitor_id) ordered by stored_at descending, limit N".  A
    [where] clause is a predicate on rows.  Where the ordering leaves the
    choice open, the database may return any of the candidates; the model
    returns the earliest inserted one. *)
Definition findFirst (where_ : Sth.t → bool) (orderBy : option order)
    (db : Store) : option Sth.t :=
  let found := filter (λ r, where_ r = true) (rows db) in
  match orderBy with
  | None => head found
  | Some desc =>
      first_best (λ y x, Sth.storedAt x <? Sth.storedAt y) found
  | Some asc =>
      first_best (λ y x, Sth.storedAt y <? Sth.storedAt x) found
  end.

(** The [data] of [prisma.sth.create]. *)
Record CreateInput : Type := mkCreate {
  logId : string;
  treeSize : Z;
  rootHash : string;
  timestamp : Z;
  monitorId : string
}.

(** Modelled from the spec: [prisma.sth.create ({ data })] at store instant
    [now], "insert-one": the store appends the row, with [id] "assigned by
    the store on insert" (the [SERIAL] sequence) and [stored_at] "assigned
    by the store at insert time" ([DEFAULT CURRENT_TIMESTAMP]). *)
Definition create (now : Z) (data : CreateInput) (db : Store)
    : Sth.t * Store :=
  let sth := {| Sth.id := next_id db;
                Sth.logId := logId data;
                Sth.treeSize := treeSize data;
                Sth.rootHash := rootHash data;
                Sth.timestamp := timestamp data;
                Sth.monitorId := monitorId data;
                Sth.storedAt := now |} in
  (sth, {| rows := rows db ++ [sth]; next_id := next_id db + 1 |}).

(** Modelled from the spec: [prisma.sth.count ({ where })], "count with
    optional time-range and key filters". *)
Definition count (where_ : Sth.t → bool) (db : Store) : nat :=
  length (filter (λ r, where_ r = true) (rows db)).

(** Modelled from the spec: [prisma.sth.groupBy ({ by: [key], where })],
    "group-by(key)": one group per distinct key among the rows selected.
    The code modelled here reads only the key of a group, so a group is
    its key.  The database returns the groups in an order of its own; the
    model lists them by first occurrence, and two results are compared in
    order only when they are the result of one query. *)
Definition groupBy (by_ : Sth.t → string) (where_ : Sth.t → bool)
    (db : Store) : list string :=
  remove_dups (by_ <$> filter (λ r, where_ r = true) (rows db)).

(** The columns of table [sths], as the initial migration declares them:
    [log_id], [root_hash] and [monitor_id] are [TEXT], [tree_size] and
    [timestamp] are [BIGINT].  The client throws ([None]) at an argument
    that is not a string where the column is a text, and at an integer
    outside the signed 64-bit range where it is a [BIGINT]. *)
Definition text (x : Js.t) : option string :=
  match x with Js.str s => Some s | _ => None end.

Definition int8 (n : Z) : option Z :=
  if (- 2 ^ 63 <=? n) && (n <? 2 ^ 63) then Some n else None.

End prisma.

(** ** [routes/sth.ts] *)

(** Response bodies. *)
Module Json.
(** Schema [Sth]: the result of [serializeSth]. *)
Record Sth : Type := mkSth {
  id : Z;
  log_id : string;
  tree_size : Z;
  root_hash : string;
  timestamp : Z;
  monitor_id : string;
  stored_at : Z
}.
(** Schema [SthResponse]. *)
Record SthResponse : Type := mkSthResponse {
  r_log_id : string;
  r_tree_size : Z;
  r_root_hash : string;
  r_timestamp : Z
}.
End Json.

(** [req.body]: the properties that the handler destructures. *)
Module Body.
Record t : Type := mk {
  log_id : Js.t;
  tree_size : Js.t;
  root_hash : Js.t;
  timestamp : Js.t;
  monitor_id : Js.t
}.
End Body.

(** What a response carries: one of the JSON bodies of the handlers, or,
    for an exception that escapes a handler, the page of the framework's
    error handler, whose text is not modelled. *)
Inductive Payload : Type :=
  | Error (error : string)
  | SthJson (sth : Json.Sth)
  | SthResponseJson (sth : Json.SthResponse)
  | InternalServerError.

(** [res.status (status).json (json)]. *)
Record Response : Type := mkResponse {
  status : Z;
  json : Payload
}.

(** Serialize BigInt fields to numbers for JSON response. *)
Definition serializeSth (sth : Sth.t) : Json.Sth :=
  {| Json.id := Sth.id sth;
     Json.log_id := Sth.logId sth;
     Json.tree_size := Number (Sth.treeSize sth);
     Json.root_hash := Sth.rootHash sth;
     Json.timestamp := Number (Sth.timestamp sth);
     Json.monitor_id := Sth.monitorId sth;
     Json.stored_at := Sth.storedAt sth |}.

(** [const pad = (4 - (normalizedLogId.length % 4)) % 4]. *)
Definition pad (log_id : string) : nat :=
  ((4 - String.length log_id mod 4) mod 4)%nat.

(** Normalize log_id to padded base64 (lines 126-129 of [sth.ts]). *)
Definition normalizedLogId (log_id : string) : string :=
  if (pad log_id =? 0)%nat then log_id
  else log_id +:+ repeat "=" (pad log_id).

Definition missing_fields : string :=
  "Missing required fields: log_id, tree_size, root_hash, timestamp, monitor_id".

(** Lines 127-129 at any value of [log_id]: [.length] is the length of a
    string or of an array and is [undefined] at a boolean or a number, for
    which [pad] is [NaN] and nothing is appended; [+=] turns an array into
    its string. *)
Definition normalize (log_id : Js.t) : Js.t :=
  match log_id with
  | Js.str s => Js.str (normalizedLogId s)
  | Js.array l =>
      let pad := ((4 - length l mod 4) mod 4)%nat in
      if (pad =? 0)%nat then log_id
      else Js.str (Js.join l +:+ repeat "=" pad)
  | _ => log_id
  end.

(** The [where] clause of the duplicate lookup. *)
Definition same_triple (logId : string) (treeSize : Z) (rootHash : string)
    (r : Sth.t) : bool :=
  bool_decide (Sth.logId r = logId) && (Sth.treeSize r =? treeSize)
  && bool_decide (Sth.rootHash r = rootHash).

(** The answer to a request whose handler threw. *)
Definition thrown : Response :=
  {| status := 500; json := InternalServerError |}.

(** [router.post ("/")] from the destructuring of the body on (lines
    119-157), at store instant [now].  [BigInt] and the two store calls
    can throw; the handler catches nothing. *)
Definition submit (now : Z) (body : Body.t) (db : Store) : Response * Store :=
  let log_id := Body.log_id body in
  let tree_size := Body.tree_size body in
  let root_hash := Body.root_hash body in
  let timestamp := Body.timestamp body in
  let monitor_id := Body.monitor_id body in
  if Js.falsy log_id || Js.nullish tree_size || Js.falsy root_hash
     || Js.nullish timestamp || Js.falsy monitor_id
  then ({| status := 400; json := Error missing_fields |}, db)
  else
    let normalizedLogId := normalize log_id in
    default (thrown, db)
      (treeSize ← BigInt tree_size;
       logId ← prisma.text normalizedLogId;
       treeSize ← prisma.int8 treeSize;
       rootHash ← prisma.text root_hash;
       let existing :=
         prisma.findFirst (same_triple logId treeSize rootHash) None db in
       match existing with
       | Some existing =>
           Some ({| status := 200; json := SthJson (serializeSth existing) |},
                 db)
       | None =>
           timestamp ← BigInt timestamp;
           timestamp ← prisma.int8 timestamp;
           monitorId ← prisma.text monitor_id;
           let '(sth, db') :=
             prisma.create now
               {| prisma.logId := logId;
                  prisma.treeSize := treeSize;
                  prisma.rootHash := rootHash;
                  prisma.timestamp := timestamp;
                  prisma.monitorId := monitorId |} db in
           Some ({| status := 201; json := SthJson (serializeSth sth) |},
                 db')
       end).

(** The whole handler: the API-key gate (lines 106-117), then [submit].
    [apiKey] is [process.env.MONITOR_API_KEY], [authorization] the request
    header. *)
Definition router_post (apiKey authorization : field string) (now : Z)
    (body : Body.t) (db : Store) : Response * Store :=
  if falsy apiKey
  then ({| status := 500; json := Error "MONITOR_API_KEY not configured" |}, db)
  else if falsy authorization
          || negb (bool_decide (get "" authorization
                                = "Bearer " +:+ get "" apiKey))
  then ({| status := 401; json := Error "Unauthorized" |}, db)
  else submit now body db.


(** [const getPad = (4 - (logId.length % 4)) % 4]. *)
Definition getPad (logId : string) : nat :=
  ((4 - String.length logId mod 4) mod 4)%nat.

(** [router.get ("/:logId")]; [logId] is the decoded path parameter
    ([decodeURIComponent (req.params.logId)]). *)
Definition router_get (logId : string) (db : Store) : Response :=
  let logId := if (getPad logId =? 0)%nat then logId
               else logId +:+ repeat "=" (getPad logId) in
  match prisma.findFirst (λ r, bool_decide (Sth.logId r = logId))
          (Some desc) db with
  | None => {| status := 404; json := Error "No STH found for this log" |}
  | Some sth =>
      {| status := 200;
         json := SthResponseJson
                   {| Json.r_log_id := Sth.logId sth;
                      Json.r_tree_size := Number (Sth.treeSize sth);
                      Json.r_root_hash := Sth.rootHash sth;
                      Json.r_timestamp := Number (Sth.timestamp sth) |} |}
  end.

(** ** The padding migration *)

Section Migration.

(** [LENGTH] of PostgreSQL: the number of characters of a text.  A
    character outside the Basic Multilingual Plane is one character and
    two UTF-16 code units, so [LENGTH] is not [String.length] in general;
    the two agree on the strings whose characters are all in the plane,
    those of base64 among them. *)
Variable LENGTH : string → nat.

(** [UPDATE sths SET log_id = log_id || REPEAT ('=', (4 - LENGTH (log_id) % 4) % 4)
     WHERE LENGTH (log_id) % 4 != 0]. *)
Definition migration (db : Store) : Store :=
  {| rows :=
       (λ r, if (LENGTH (Sth.logId r) mod 4 =? 0)%nat then r
             else {| Sth.id := Sth.id r;
                     Sth.logId :=
                       Sth.logId r
                       +:+ repeat "="
                             ((4 - LENGTH (Sth.logId r) mod 4) mod 4);
                     Sth.treeSize := Sth.treeSize r;
                     Sth.rootHash := Sth.rootHash r;
                     Sth.timestamp := Sth.timestamp r;
                     Sth.monitorId := Sth.monitorId r;
                     Sth.storedAt := Sth.storedAt r |}) <$> rows db;
     next_id := next_id db |}.

End Migration.

(** Store states reached from [db0] by a sequence of submissions, one at a
    time, each at some store instant. *)
Inductive reachable (db0 : Store) : Store → Prop :=
  | reachable_start : reachable db0 db0
  | reachable_submit now body db :
      reachable db0 db → reachable db0 (submit now body db).2.


(** ** [routes/stats.ts]: histograms *)

(** An entry of [hourly_histogram]. *)
Module Hourly.
Record t : Type := mk {
  hour : string;
  count : nat
}.
End Hourly.

(** An entry of [five_min_histogram]. *)
Module FiveMin.
Record t : Type := mk {
  time : string;
  count : nat
}.
End FiveMin.

(** The [where] clause [{ storedAt: { gte: bucketStart, lt: bucketEnd } }]. *)
Definition gte_lt (bucketStart bucketEnd : Z) (r : Sth.t) : bool :=
  (bucketStart <=? Sth.storedAt r) && (Sth.storedAt r <? bucketEnd).

Section Histograms.

(** [Date.prototype.toISOString], applied to the instant of a date; the
    histograms use it for the labels only. *)
Variable toISOString : Z → string.

(** [for (let i = 23; i >= 0; i--)] with [n] iterations to go, that is at
    index [i = n - 1]. *)
Fixpoint hourly_loop (now : Z) (db : Store) (n : nat)
    (hourlyBuckets : list Hourly.t) : list Hourly.t :=
  match n with
  | O => hourlyBuckets
  | S n' =>
      let i := Z.of_nat n' in
      let bucketStart := now - (i + 1) * 60 * 60 * 1000 in
      let bucketEnd := now - i * 60 * 60 * 1000 in
      let count := prisma.count (gte_lt bucketStart bucketEnd) db in
      hourly_loop now db n'
        (hourlyBuckets
         ++ [ {| Hourly.hour :=
                   String.substring 0 13 (toISOString bucketStart) +:+ ":00Z";
                 Hourly.count := count |} ])
  end.

(** Hourly histogram (last 24h). *)
Definition hourlyBuckets (now : Z) (db : Store) : list Hourly.t :=
  hourly_loop now db 24 [].

(** [for (let i = 11; i >= 0; i--)]. *)
Fixpoint five_min_loop (now : Z) (db : Store) (n : nat)
    (fiveMinBuckets : list FiveMin.t) : list FiveMin.t :=
  match n with
  | O => fiveMinBuckets
  | S n' =>
      let i := Z.of_nat n' in
      let bucketStart := now - (i + 1) * 5 * 60 * 1000 in
      let bucketEnd := now - i * 5 * 60 * 1000 in
      let count := prisma.count (gte_lt bucketStart bucketEnd) db in
      five_min_loop now db n'
        (fiveMinBuckets
         ++ [ {| FiveMin.time :=
                   String.substring 11 5 (toISOString bucketStart) +:+ "Z";
                 FiveMin.count := count |} ])
  end.

(** 5-minute histogram (last 1h). *)
Definition fiveMinBuckets (now : Z) (db : Store) : list FiveMin.t :=
  five_min_loop now db 12 [].

End Histograms.

(** ** [routes/stats.ts]: cross-monitor consistency *)

(** An entry of [latest_per_monitor]. *)
Module Latest.
Record t : Type := mk {
  monitor_id : string;
  tree_size : Z;
  root_hash : string;
  timestamp : Z
}.
End Latest.

(** An entry of [consistency]. *)
Module Consistency.
Record t : Type := mk {
  log_id : string;
  monitor_count : nat;
  consistent : bool;
  latest_per_monitor : list Latest.t
}.
End Consistency.

(** [prisma.sth.groupBy ({ by: ["logId"], ... })]. *)
Definition logGroups (db : Store) : list string :=
  prisma.groupBy Sth.logId (λ _, true) db.

(** The loop over [valid] that fills [byTreeSize], a
    [Map<number, Set<string>>]; [get (k)!.add (h)] updates the set held by
    the map. *)
Definition byTreeSize (valid : list Latest.t) : gmap Z (gset string) :=
  foldl
    (λ (byTreeSize : gmap Z (gset string)) entry,
       let byTreeSize :=
         if decide (is_Some (byTreeSize !! Latest.tree_size entry))
         then byTreeSize
         else <[Latest.tree_size entry := ∅]> byTreeSize in
       alter (λ hashes, hashes ∪ {[Latest.root_hash entry]})
         (Latest.tree_size entry) byTreeSize)
    ∅ valid.

(** [[...byTreeSize.values ()].some ((hashes) => hashes.size > 1)]. *)
Definition hasConflict (valid : list Latest.t) : bool :=
  existsb (λ hashes : gset string, (1 <? size hashes)%nat)
    (map_to_list (byTreeSize valid)).*2.

(** The body of [logGroups.map (async (group) => ...)] at a group of key
    [logId]. *)
Definition checkConsistency (db : Store) (logId : string) : Consistency.t :=
  let monitorIds :=
    prisma.groupBy Sth.monitorId (λ r, bool_decide (Sth.logId r = logId)) db in
  let latestPerMonitor :=
    (λ m,
       match prisma.findFirst
               (λ r, bool_decide (Sth.logId r = logId)
                     && bool_decide (Sth.monitorId r = m))
               (Some desc) db with
       | Some sth =>
           Some {| Latest.monitor_id := Sth.monitorId sth;
                   Latest.tree_size := Number (Sth.treeSize sth);
                   Latest.root_hash := Sth.rootHash sth;
                   Latest.timestamp := Number (Sth.timestamp sth) |}
       | None => None
       end) <$> monitorIds in
  let valid := omap (λ x, x) latestPerMonitor in
  {| Consistency.log_id := logId;
     Consistency.monitor_count := length valid;
     Consistency.consistent := negb (hasConflict valid);
     Consistency.latest_per_monitor := valid |}.

(** Cross-monitor consistency per log. *)
Definition consistency (db : Store) : list Consistency.t :=
  checkConsistency db <$> logGroups db.

(** ** [routes/stats.ts]: data range and ingestion rates *)

Module DataRange.
Record t : Type := mk {
  oldest_stored_at : option Z;
  newest_stored_at : option Z;
  span_hours : Q
}.
End DataRange.

Module IngestionRates.
Record t : Type := mk {
  per_hour : Q;
  per_day : Q
}.
End IngestionRates.

(** [prisma.sth.count ()]. *)
Definition totalSths (db : Store) : nat := prisma.count (λ _, true) db.

(** Uptime / data range. *)
Definition dataRange (db : Store) : DataRange.t :=
  let oldestSth := prisma.findFirst (λ _, true) (Some asc) db in
  let newestSth := prisma.findFirst (λ _, true) (Some desc) db in
  {| DataRange.oldest_stored_at := Sth.storedAt <$> oldestSth;
     DataRange.newest_stored_at := Sth.storedAt <$> newestSth;
     DataRange.span_hours :=
       match oldestSth, newestSth with
       | Some oldestSth, Some newestSth =>
           Math_round
             (fdiv
                (fsub (inject_Z (Sth.storedAt newestSth))
                   (inject_Z (Sth.storedAt oldestSth)))
                (inject_Z (1000 * 60 * 60)))
       | _, _ => 0%Q
       end |}.

(** Ingestion rates. *)
Definition ingestionRates (db : Store) : IngestionRates.t :=
  let totalSths := inject_Z (Z.of_nat (totalSths db)) in
  let span_hours := DataRange.span_hours (dataRange db) in
  {| IngestionRates.per_hour :=
       if gt0 totalSths && gt0 span_hours
       then fdiv (Math_round (fmul (fdiv totalSths span_hours) 100)) 100
       else 0%Q;
     IngestionRates.per_day :=
       if gt0 totalSths && gt0 span_hours
       then fdiv
              (Math_round
                 (fmul (fdiv totalSths (fdiv span_hours 24)) 100)) 100
       else 0%Q |}.

(** ** Notions used in the statements *)

(** An environment variable or a header is missing when it is absent or
    [null], and blank when it is missing or empty. *)
Definition missing {A} (x : field A) : Prop := x = undefined ∨ x = null.
Definition blank (x : field string) : Prop := missing x ∨ x = val "".

(** The body of a submission that follows the [CreateSth] schema: three
    strings and two integers, sent as JSON numbers. *)
Definition body_of (log_id : string) (tree_size : Z) (root_hash : string)
    (timestamp : Z) (monitor_id : string) : Body.t :=
  {| Body.log_id := Js.str log_id;
     Body.tree_size := Js.number (inject_Z tree_size);
     Body.root_hash := Js.str root_hash;
     Body.timestamp := Js.number (inject_Z timestamp);
     Body.monitor_id := Js.str monitor_id |}.

(** The range of a [BIGINT] column. *)
Definition int64 (n : Z) : Prop := - 2 ^ 63 ≤ n < 2 ^ 63.

(** The test of line 121. *)
Definition incomplete (body : Body.t) : bool :=
  Js.falsy (Body.log_id body) || Js.nullish (Body.tree_size body)
  || Js.falsy (Body.root_hash body) || Js.nullish (Body.timestamp body)
  || Js.falsy (Body.monitor_id body).

(** The row that a submission creates. *)
Definition created (db : Store) (now : Z) (logId : string) (treeSize : Z)
    (rootHash : string) (timestamp : Z) (monitorId : string) : Sth.t :=
  {| Sth.id := next_id db; Sth.logId := logId; Sth.treeSize := treeSize;
     Sth.rootHash := rootHash; Sth.timestamp := timestamp;
     Sth.monitorId := monitorId; Sth.storedAt := now |}.

(** The identity triple of a row. *)
Definition triple (r : Sth.t) : string * Z * string :=
  (Sth.logId r, Sth.treeSize r, Sth.rootHash r).

(** No two rows of the table (at two positions) carry the same identity
    triple. *)
Definition unique_triples (db : Store) : Prop :=
  ∀ i j r1 r2,
    rows db !! i = Some r1 → rows db !! j = Some r2 →
    Sth.logId r1 = Sth.logId r2 → Sth.treeSize r1 = Sth.treeSize r2 →
    Sth.rootHash r1 = Sth.rootHash r2 → i = j.

(** Every stored identifier is in padded form. *)
Definition canonical (db : Store) : Prop :=
  ∀ r, r ∈ rows db → (String.length (Sth.logId r) mod 4 = 0)%nat.

(** Two rows of one log, the later stored one claiming the earlier
    timestamp. *)
Definition two_rows : Store :=
  {| rows := [ {| Sth.id := 1; Sth.logId := "AAA="; Sth.treeSize := 10;
                  Sth.rootHash := "h1"; Sth.timestamp := 9000;
                  Sth.monitorId := "m1"; Sth.storedAt := 100 |};
               {| Sth.id := 2; Sth.logId := "AAA="; Sth.treeSize := 20;
                  Sth.rootHash := "h2"; Sth.timestamp := 1000;
                  Sth.monitorId := "m2"; Sth.storedAt := 200 |} ];
     next_id := 3 |}.

(** The number of rows stored in the half-open window [[lo, hi)]. *)
Definition rows_within (lo hi : Z) (db : Store) : nat :=
  length (filter (λ r, lo ≤ Sth.storedAt r < hi) (rows db)).

(** The window of bucket [i] of a histogram of the given bucket width. *)
Definition window (width now : Z) (i : nat) (t : Z) : Prop :=
  now - (Z.of_nat i + 1) * width ≤ t < now - Z.of_nat i * width.

(** [[f (n - 1); ...; f 1; f 0]]: what a loop counting down from [n - 1]
    pushes. *)
Fixpoint down {A} (f : nat → A) (n : nat) : list A :=
  match n with
  | O => []
  | S n' => f n' :: down f n'
  end.

(** Bucket [i] of the hourly histogram: its label and the number of rows
    stored in its window. *)
Definition hourly_bucket (toISOString : Z → string) (now : Z) (db : Store)
    (i : nat) : Hourly.t :=
  {| Hourly.hour :=
       String.substring 0 13
         (toISOString (now - (Z.of_nat i + 1) * 60 * 60 * 1000)) +:+ ":00Z";
     Hourly.count :=
       rows_within (now - (Z.of_nat i + 1) * 3600000)
         (now - Z.of_nat i * 3600000) db |}.

(** Bucket [i] of the 5-minute histogram. *)
Definition five_min_bucket (toISOString : Z → string) (now : Z) (db : Store)
    (i : nat) : FiveMin.t :=
  {| FiveMin.time :=
       String.substring 11 5
         (toISOString (now - (Z.of_nat i + 1) * 5 * 60 * 1000)) +:+ "Z";
     FiveMin.count :=
       rows_within (now - (Z.of_nat i + 1) * 300000)
         (now - Z.of_nat i * 300000) db |}.

(** The [latest_per_monitor] entry made of a row. *)
Definition entry_of (sth : Sth.t) : Latest.t :=
  {| Latest.monitor_id := Sth.monitorId sth;
     Latest.tree_size := Number (Sth.treeSize sth);
     Latest.root_hash := Sth.rootHash sth;
     Latest.timestamp := Number (Sth.timestamp sth) |}.

(** Monitors A and B last report log L at size 100 with different roots. *)
Definition split_world : Store :=
  (submit 2 (body_of "L" 100 "h2" 1000 "B")
     (submit 1 (body_of "L" 100 "h1" 1000 "A") empty_store).2).2.

(** Monitor B last reports log L at another size. *)
Definition different_sizes : Store :=
  (submit 2 (body_of "L" 200 "h3" 1000 "B")
     (submit 1 (body_of "L" 100 "h1" 1000 "A") empty_store).2).2.

(** Monitors A and B last report log L at sizes 2^53 and 2^53 + 1. *)
Definition beyond_2_53 : Store :=
  (submit 2 {| Body.log_id := Js.str "L";
               Body.tree_size := Js.str "9007199254740993";
               Body.root_hash := Js.str "h2";
               Body.timestamp := Js.number 1000;
               Body.monitor_id := Js.str "B" |}
     (submit 1 {| Body.log_id := Js.str "L";
                  Body.tree_size := Js.str "9007199254740992";
                  Body.root_hash := Js.str "h1";
                  Body.timestamp := Js.number 1000;
                  Body.monitor_id := Js.str "A" |} empty_store).2).2.

(** Two rows stored twenty minutes apart. *)
Definition twenty_minutes : Store :=
  (submit 1200000 (body_of "L" 200 "h2" 1000 "A")
     (submit 0 (body_of "L" 100 "h1" 1000 "A") empty_store).2).2.

(** Forty-eight rows stored half an hour apart, the first at [0]. *)
Definition half_hourly : Store :=
  foldl (λ db i, (submit (Z.of_nat i * 1800000)
                    (body_of "L" (Z.of_nat i) "h" 1000 "A") db).2)
    empty_store (seq 0 48).

(** ** [routes/stats.ts]: totals and recent activity *)

(** The [where] clause [{ storedAt: { gte: date } }]. *)
Definition gte (date : Z) (r : Sth.t) : bool := date <=? Sth.storedAt r.

(** [const oneHourAgo = new Date (now.getTime () - 60 * 60 * 1000)] and the
    like. *)
Definition oneHourAgo (now : Z) : Z := now - 60 * 60 * 1000.
Definition oneDayAgo (now : Z) : Z := now - 24 * 60 * 60 * 1000.
Definition oneWeekAgo (now : Z) : Z := now - 7 * 24 * 60 * 60 * 1000.

(** The counts of the first batch of queries. *)
Definition last1h (now : Z) (db : Store) : nat :=
  prisma.count (gte (oneHourAgo now)) db.
Definition last24h (now : Z) (db : Store) : nat :=
  prisma.count (gte (oneDayAgo now)) db.
Definition lastWeek (now : Z) (db : Store) : nat :=
  prisma.count (gte (oneWeekAgo now)) db.

(** ** [routes/stats.ts]: per-log and per-monitor statistics *)

(** Binary64 addition. *)
Definition fadd (a b : Q) : Q := fl (a + b).

(** The least and the greatest value of a column over the rows of a
    group: SQL [MIN] and [MAX], [None] ([NULL]) over no row. *)
Fixpoint least (l : list Z) : option Z :=
  match l with
  | [] => None
  | x :: l' =>
      match least l' with
      | Some m => Some (Z.min x m)
      | None => Some x
      end
  end.

Fixpoint greatest (l : list Z) : option Z :=
  match l with
  | [] => None
  | x :: l' =>
      match greatest l' with
      | Some m => Some (Z.max x m)
      | None => Some x
      end
  end.

(** A group of [groupBy] with the aggregates the code asks for:
    [_count.id], [_min.storedAt], [_max.storedAt], [_min.treeSize] and
    [_max.treeSize]. *)
Module Group.
Record t : Type := mk {
  key : string;
  _count : nat;
  _min_storedAt : option Z;
  _max_storedAt : option Z;
  _min_treeSize : option Z;
  _max_treeSize : option Z
}.
End Group.

(** The rows of the group of key [k]. *)
Definition members (by_ : Sth.t → string) (where_ : Sth.t → bool)
    (db : Store) (k : string) : list Sth.t :=
  filter (λ r, where_ r = true ∧ by_ r = k) (rows db).

(** Modelled from the spec: [prisma.sth.groupBy ({ by: [key], where,
    _count, _min, _max })], "group-by(key) with count/min/max aggregates
    over stored_at and tree_size": one group per key of [prisma.groupBy],
    in that order, with the aggregates of the selected rows of that key. *)
Definition groupByAggregates (by_ : Sth.t → string) (where_ : Sth.t → bool)
    (db : Store) : list Group.t :=
  (λ k,
     let rs := members by_ where_ db k in
     {| Group.key := k;
        Group._count := length rs;
        Group._min_storedAt := least (Sth.storedAt <$> rs);
        Group._max_storedAt := greatest (Sth.storedAt <$> rs);
        Group._min_treeSize := least (Sth.treeSize <$> rs);
        Group._max_treeSize := greatest (Sth.treeSize <$> rs) |})
  <$> prisma.groupBy by_ where_ db.

(** [x] put into a list ordered by [storedAt] descending, before the rows
    stored at the same instant. *)
Fixpoint insert_desc (x : Sth.t) (l : list Sth.t) : list Sth.t :=
  match l with
  | [] => [x]
  | y :: l' =>
      if Sth.storedAt x <? Sth.storedAt y then y :: insert_desc x l'
      else x :: l
  end.

(** Modelled from the spec: [prisma.sth.findMany ({ where, orderBy:
    { storedAt: "desc" }, take })], "exact-match lookup by (log_id) or
    (log_id, monitor_id) ordered by stored_at descending, limit N".  As for
    [findFirst], rows stored at the same instant come in insertion order. *)
Definition findMany (where_ : Sth.t → bool) (take_ : nat) (db : Store)
    : list Sth.t :=
  take take_ (foldr insert_desc [] (filter (λ r, where_ r = true) (rows db))).

(** An entry of [monitors] of an entry of [logs]. *)
Module LogMonitor.
Record t : Type := mk {
  monitor_id : string;
  sth_count : nat;
  last_seen : option Z
}.
End LogMonitor.

(** An entry of [logs]. *)
Module LogStats.
Record t : Type := mk {
  log_id : string;
  sth_count : nat;
  sths_last_24h : nat;
  latest_tree_size : option Z;
  latest_timestamp : option Z;
  oldest_tree_size : option Z;
  tree_growth_total : Q;
  first_seen : option Z;
  last_seen : option Z;
  staleness_seconds : option Q;
  avg_ingestion_lag_ms : option Q;
  monitor_count : nat;
  monitors : list LogMonitor.t
}.
End LogStats.

(** An entry of [monitors]. *)
Module MonitorStats.
Record t : Type := mk {
  monitor_id : string;
  sth_count : nat;
  first_seen : option Z;
  last_seen : option Z;
  staleness_seconds : option Q
}.
End MonitorStats.

(** [date ? Math.round ((now.getTime () - date.getTime ()) / 1000) : null]:
    a [Date] is never falsy. *)
Definition staleness (now : Z) (date : option Z) : option Q :=
  match date with
  | Some date =>
      Some (Math_round
              (fdiv (fsub (inject_Z now) (inject_Z date)) (inject_Z 1000)))
  | None => None
  end.

(** [lags.reduce ((sum, s) => sum + (s.storedAt.getTime () -
    Number (s.timestamp)), 0)]. *)
Definition totalLag (lags : list Sth.t) : Q :=
  foldl
    (λ sum s,
       fadd sum
         (fsub (inject_Z (Sth.storedAt s))
            (inject_Z (Number (Sth.timestamp s)))))
    0%Q lags.

(** [prisma.sth.groupBy ({ by: ["logId"], _count, _min, _max })] and
    [prisma.sth.groupBy ({ by: ["monitorId"], _count, _min, _max })] of the
    first batch of queries: [logGroups] and [monitorGroups] of the source.
    [logGroups] above holds the keys of the former, which is all that the
    consistency check reads of it. *)
Definition logGroupsAggregates (db : Store) : list Group.t :=
  groupByAggregates Sth.logId (λ _, true) db.
Definition monitorGroups (db : Store) : list Group.t :=
  groupByAggregates Sth.monitorId (λ _, true) db.

(** The body of [logGroups.map (async (group) => ...)] of the per-log
    detailed stats. *)
Definition logStats (now : Z) (db : Store) (group : Group.t) : LogStats.t :=
  let of_log r := bool_decide (Sth.logId r = Group.key group) in
  let latest := prisma.findFirst of_log (Some desc) db in
  let oldest := prisma.findFirst of_log (Some asc) db in
  let sths24h :=
    prisma.count (λ r, of_log r && gte (oneDayAgo now) r) db in
  let monitors := groupByAggregates Sth.monitorId of_log db in
  let minTree := Number (default 0 (Group._min_treeSize group)) in
  let maxTree := Number (default 0 (Group._max_treeSize group)) in
  let treeGrowth := fsub (inject_Z maxTree) (inject_Z minTree) in
  let lastSeenDate := Group._max_storedAt group in
  let staleness_seconds := staleness now lastSeenDate in
  let avg_ingestion_lag_ms :=
    match latest, oldest with
    | Some _, Some _ =>
        let lags := findMany of_log 50 db in
        if (0 <? length lags)%nat
        then Some (Math_round
                     (fdiv (totalLag lags)
                        (inject_Z (Z.of_nat (length lags)))))
        else None
    | _, _ => None
    end in
  {| LogStats.log_id := Group.key group;
     LogStats.sth_count := Group._count group;
     LogStats.sths_last_24h := sths24h;
     LogStats.latest_tree_size := (λ s, Number (Sth.treeSize s)) <$> latest;
     LogStats.latest_timestamp := (λ s, Number (Sth.timestamp s)) <$> latest;
     LogStats.oldest_tree_size := (λ s, Number (Sth.treeSize s)) <$> oldest;
     LogStats.tree_growth_total := treeGrowth;
     LogStats.first_seen := Group._min_storedAt group;
     LogStats.last_seen := Group._max_storedAt group;
     LogStats.staleness_seconds := staleness_seconds;
     LogStats.avg_ingestion_lag_ms := avg_ingestion_lag_ms;
     LogStats.monitor_count := length monitors;
     LogStats.monitors :=
       (λ m, {| LogMonitor.monitor_id := Group.key m;
                LogMonitor.sth_count := Group._count m;
                LogMonitor.last_seen := Group._max_storedAt m |})
       <$> monitors |}.

(** Per-log detailed stats. *)
Definition logs (now : Z) (db : Store) : list LogStats.t :=
  logStats now db <$> logGroupsAggregates db.

(** Per-monitor stats. *)
Definition monitors (now : Z) (db : Store) : list MonitorStats.t :=
  (λ m, {| MonitorStats.monitor_id := Group.key m;
           MonitorStats.sth_count := Group._count m;
           MonitorStats.first_seen := Group._min_storedAt m;
           MonitorStats.last_seen := Group._max_storedAt m;
           MonitorStats.staleness_seconds :=
             staleness now (Group._max_storedAt m) |})
  <$> monitorGroups db.

(** ** [routes/stats.ts]: the report *)

Module RecentActivity.
Record t : Type := mk {
  last_1h : nat;
  last_24h : nat;
  last_7d : nat
}.
End RecentActivity.

Module Report.
Record t : Type := mk {
  total_sths : nat;
  unique_logs : nat;
  unique_monitors : nat;
  data_range : DataRange.t;
  ingestion_rates : IngestionRates.t;
  recent_activity : RecentActivity.t;
  hourly_histogram : list Hourly.t;
  five_min_histogram : list FiveMin.t;
  logs : list LogStats.t;
  monitors : list MonitorStats.t;
  consistency : list Consistency.t
}.
End Report.

(** [router.get ("/")] of [routes/stats.ts] at instant [now]: the object
    handed to [res.json]. *)
Definition router_get_stats (toISOString : Z → string) (now : Z) (db : Store)
    : Report.t :=
  {| Report.total_sths := totalSths db;
     Report.unique_logs := length (logGroupsAggregates db);
     Report.unique_monitors := length (monitorGroups db);
     Report.data_range := dataRange db;
     Report.ingestion_rates := ingestionRates db;
     Report.recent_activity :=
       {| RecentActivity.last_1h := last1h now db;
          RecentActivity.last_24h := last24h now db;
          RecentActivity.last_7d := lastWeek now db |};
     Report.hourly_histogram := hourlyBuckets toISOString now db;
     Report.five_min_histogram := fiveMinBuckets toISOString now db;
     Report.logs := logs now db;
     Report.monitors := monitors now db;
     Report.consistency := consistency db |}.

(** ** The handlers before the normalizer

    An earlier revision of [routes/sth.ts], kept among the sources: no
    API-key gate, and the identifier is stored and looked up as sent. *)

Module Legacy.

(** [router.post ("/")]. *)
Definition router_post (now : Z) (body : Body.t) (db : Store)
    : Response * Store :=
  let log_id := Body.log_id body in
  let tree_size := Body.tree_size body in
  let root_hash := Body.root_hash body in
  let timestamp := Body.timestamp body in
  let monitor_id := Body.monitor_id body in
  if Js.falsy log_id || Js.nullish tree_size || Js.falsy root_hash
     || Js.nullish timestamp || Js.falsy monitor_id
  then ({| status := 400; json := Error missing_fields |}, db)
  else
    default (thrown, db)
      (treeSize ← BigInt tree_size;
       logId ← prisma.text log_id;
       treeSize ← prisma.int8 treeSize;
       rootHash ← prisma.text root_hash;
       let existing :=
         prisma.findFirst (same_triple logId treeSize rootHash) None db in
       match existing with
       | Some existing =>
           Some ({| status := 200; json := SthJson (serializeSth existing) |},
                 db)
       | None =>
           timestamp ← BigInt timestamp;
           timestamp ← prisma.int8 timestamp;
           monitorId ← prisma.text monitor_id;
           let '(sth, db') :=
             prisma.create now
               {| prisma.logId := logId;
                  prisma.treeSize := treeSize;
                  prisma.rootHash := rootHash;
                  prisma.timestamp := timestamp;
                  prisma.monitorId := monitorId |} db in
           Some ({| status := 201; json := SthJson (serializeSth sth) |},
                 db')
       end).

(** [router.get ("/:logId")]. *)
Definition router_get (logId : string) (db : Store) : Response :=
  match prisma.findFirst (λ r, bool_decide (Sth.logId r = logId))
          (Some desc) db with
  | None => {| status := 404; json := Error "No STH found for this log" |}
  | Some sth =>
      {| status := 200;
         json := SthResponseJson
                   {| Json.r_log_id := Sth.logId sth;
                      Json.r_tree_size := Number (Sth.treeSize sth);
                      Json.r_root_hash := Sth.rootHash sth;
                      Json.r_timestamp := Number (Sth.timestamp sth) |} |}
  end.

End Legacy.

(** ** Notions used in the further statements *)

(** The time from the claimed instant of a row to its storage. *)
Definition lag (r : Sth.t) : Z := Sth.storedAt r - Sth.timestamp r.

(** [n / d] rounded to the nearest integer, halves up. *)
Definition nearest (n d : Z) : Z := (2 * n + d) / (2 * d).

(** A row with its identifier in padded form. *)
Definition padded (r : Sth.t) : Sth.t :=
  {| Sth.id := Sth.id r;
     Sth.logId := normalizedLogId (Sth.logId r);
     Sth.treeSize := Sth.treeSize r;
     Sth.rootHash := Sth.rootHash r;
     Sth.timestamp := Sth.timestamp r;
     Sth.monitorId := Sth.monitorId r;
     Sth.storedAt := Sth.storedAt r |}.

(** The number of rows stored at [lo] or later. *)
Definition rows_from (lo : Z) (db : Store) : nat :=
  length (filter (λ r, lo ≤ Sth.storedAt r) (rows db)).

(** The sum of a list of integers. *)
Definition Zsum (l : list Z) : Z := foldr Z.add 0 l.

(** A list of rows in the order of [stored_at], latest first. *)
Fixpoint descending (l : list Sth.t) : Prop :=
  match l with
  | [] => True
  | x :: l' =>
      (∀ y, y ∈ l' → Sth.storedAt y ≤ Sth.storedAt x) ∧ descending l'
  end.

(** A body with its identifier as the handler pads it. *)
Definition normalized_body (body : Body.t) : Body.t :=
  {| Body.log_id := normalize (Body.log_id body);
     Body.tree_size := Body.tree_size body;
     Body.root_hash := Body.root_hash body;
     Body.timestamp := Body.timestamp body;
     Body.monitor_id := Body.monitor_id body |}.

(** * Properties *)

(** ** Strings *)

Lemma length_append (s t : string) :
  String.length (s +:+ t) = (String.length s + String.length t)%nat.
Proof.
  induction s as [|c s IH]; [reflexivity|].
  exact (f_equal S IH).
Qed.

Lemma length_repeat (s : string) (n : nat) :
  String.length (repeat s n) = (n * String.length s)%nat.
Proof.
  induction n as [|n IH]; simpl; [reflexivity|].
  rewrite length_append, IH. lia.
Qed.

Lemma append_empty_r (s : string) : s +:+ "" = s.
Proof.
  induction s as [|c s IH]; [reflexivity|].
  exact (f_equal (String c) IH).
Qed.

Lemma append_assoc (s t u : string) : (s +:+ t) +:+ u = s +:+ t +:+ u.
Proof.
  induction s as [|c s IH]; [reflexivity|].
  exact (f_equal (String c) IH).
Qed.

Lemma repeat_add (s : string) (m n : nat) :
  repeat s (m + n) = repeat s m +:+ repeat s n.
Proof.
  induction m as [|m IH]; simpl; [reflexivity|].
  now rewrite IH, append_assoc.
Qed.

(** ** The identifier normalizer *)

Lemma pad_lt (x : string) : (pad x < 4)%nat.
Proof. unfold pad. apply Nat.mod_upper_bound. lia. Qed.

Lemma pad_0_iff (x : string) :
  pad x = 0%nat ↔ (String.length x mod 4 = 0)%nat.
Proof.
  unfold pad.
  pose proof (Nat.mod_upper_bound (String.length x) 4 ltac:(lia)) as Hlt.
  destruct (String.length x mod 4)%nat as [|[|[|[|k]]]] eqn:E;
    simpl; split; intros; try lia; try discriminate.
Qed.

Lemma pad_pos (x : string) :
  (String.length x mod 4 ≠ 0)%nat → pad x = (4 - String.length x mod 4)%nat.
Proof.
  intros Hne. unfold pad. apply Nat.mod_small.
  pose proof (Nat.mod_upper_bound (String.length x) 4 ltac:(lia)). lia.
Qed.

Lemma normalizedLogId_append (x : string) :
  normalizedLogId x = x +:+ repeat "=" (pad x).
Proof.
  unfold normalizedLogId. destruct (Nat.eqb_spec (pad x) 0) as [->|]; simpl.
  - now rewrite append_empty_r.
  - reflexivity.
Qed.

Lemma length_normalizedLogId (x : string) :
  (String.length (normalizedLogId x) mod 4 = 0)%nat.
Proof.
  rewrite normalizedLogId_append, length_append, length_repeat.
  change (String.length "=") with 1%nat. rewrite Nat.mul_1_r.
  pose proof (Nat.mod_upper_bound (String.length x) 4 ltac:(lia)) as Hlt.
  pose proof (Nat.div_mod_eq (String.length x) 4) as Hdm.
  destruct (Nat.eq_dec (String.length x mod 4)%nat 0%nat) as [E|E].
  - apply pad_0_iff in E as Hp. rewrite Hp, Nat.add_0_r. exact E.
  - rewrite (pad_pos _ E).
    replace (String.length x + (4 - String.length x mod 4))%nat
      with ((1 + String.length x / 4) * 4)%nat by lia.
    apply Nat.Div0.mod_mul.
Qed.

Lemma normalizedLogId_canonical (x : string) :
  (String.length x mod 4 = 0)%nat → normalizedLogId x = x.
Proof.
  intros E. apply pad_0_iff in E. unfold normalizedLogId. now rewrite E.
Qed.

(** C3.  Normalization returns its argument when the length is a multiple of
    4 and otherwise appends [4 - length mod 4] copies of the pad character;
    the result has a length divisible by 4, and normalizing twice is
    normalizing once. *)
Theorem normalizedLogId_spec (x : string) :
  normalizedLogId x
  = (if (String.length x mod 4 =? 0)%nat then x
     else x +:+ repeat "=" (4 - String.length x mod 4))
  ∧ String.length (repeat "=" (4 - String.length x mod 4))
    = (4 - String.length x mod 4)%nat
  ∧ (String.length (normalizedLogId x) mod 4 = 0)%nat
  ∧ normalizedLogId (normalizedLogId x) = normalizedLogId x.
Proof.
  split; [|split; [|split]].
  - destruct (Nat.eqb_spec (String.length x mod 4)%nat 0%nat) as [E|E].
    + now apply normalizedLogId_canonical.
    + now rewrite normalizedLogId_append, (pad_pos _ E).
  - rewrite length_repeat. change (String.length "=") with 1%nat. lia.
  - apply length_normalizedLogId.
  - apply normalizedLogId_canonical, length_normalizedLogId.
Qed.

Example normalizedLogId_AAA : normalizedLogId "AAA" = "AAA=".
Proof. reflexivity. Qed.

Example normalizedLogId_AA : normalizedLogId "AA" = "AA==".
Proof. reflexivity. Qed.

Example normalizedLogId_AAAA : normalizedLogId "AAAA" = "AAAA".
Proof. reflexivity. Qed.

(** ** Store queries *)

Lemma same_triple_spec (l : string) (t : Z) (h : string) (r : Sth.t) :
  same_triple l t h r = true
  ↔ Sth.logId r = l ∧ Sth.treeSize r = t ∧ Sth.rootHash r = h.
Proof.
  unfold same_triple.
  rewrite !andb_true_iff, !bool_decide_eq_true, Z.eqb_eq. tauto.
Qed.

Lemma findFirst_None_iff (where_ : Sth.t → bool) (db : Store) :
  prisma.findFirst where_ None db = None
  ↔ ∀ r, r ∈ rows db → where_ r = false.
Proof.
  unfold prisma.findFirst. rewrite head_None. split.
  - intros Hnil r Hr. destruct (where_ r) eqn:E; [|reflexivity].
    exfalso. exact (filter_nil_not_elem_of _ _ r Hnil E Hr).
  - intros Hall.
    destruct (filter (λ r, where_ r = true) (rows db)) as [|r l] eqn:E;
      [reflexivity|].
    assert (Hin : r ∈ filter (λ r, where_ r = true) (rows db))
      by (rewrite E; left).
    apply list_elem_of_filter in Hin as [Hw Hr].
    rewrite (Hall r Hr) in Hw. discriminate.
Qed.

Lemma findFirst_Some (where_ : Sth.t → bool) (db : Store) (r : Sth.t) :
  prisma.findFirst where_ None db = Some r → r ∈ rows db ∧ where_ r = true.
Proof.
  unfold prisma.findFirst. intros H. apply head_Some_elem_of in H.
  apply list_elem_of_filter in H. tauto.
Qed.

Lemma first_best_None (beats : Sth.t → Sth.t → bool) (l : list Sth.t) :
  first_best beats l = None ↔ l = [].
Proof.
  destruct l as [|x l]; simpl; [tauto|].
  split; [|discriminate].
  destruct (first_best beats l) as [y|]; [destruct (beats y x)|];
    discriminate.
Qed.

Lemma first_best_desc (l : list Sth.t) (y : Sth.t) :
  first_best (λ y x, Sth.storedAt x <? Sth.storedAt y) l = Some y →
  y ∈ l ∧ ∀ x, x ∈ l → Sth.storedAt x ≤ Sth.storedAt y.
Proof.
  revert y. induction l as [|a l IH]; simpl; intros y H; [discriminate|].
  destruct (first_best _ l) as [b|] eqn:E.
  - destruct (IH b eq_refl) as [Hb Hmax].
    destruct (Z.ltb_spec (Sth.storedAt a) (Sth.storedAt b)) as [Hlt|Hge];
      injection H as <-.
    + split; [now right|]. intros x [->|Hx]%elem_of_cons; [lia|auto].
    + split; [now left|].
      intros x [->|Hx]%elem_of_cons; [lia|]. specialize (Hmax x Hx). lia.
  - injection H as <-. apply first_best_None in E as ->.
    split; [now left|]. intros x ->%list_elem_of_singleton. lia.
Qed.

Lemma first_best_asc (l : list Sth.t) (y : Sth.t) :
  first_best (λ y x, Sth.storedAt y <? Sth.storedAt x) l = Some y →
  y ∈ l ∧ ∀ x, x ∈ l → Sth.storedAt y ≤ Sth.storedAt x.
Proof.
  revert y. induction l as [|a l IH]; simpl; intros y H; [discriminate|].
  destruct (first_best _ l) as [b|] eqn:E.
  - destruct (IH b eq_refl) as [Hb Hmin].
    destruct (Z.ltb_spec (Sth.storedAt b) (Sth.storedAt a)) as [Hlt|Hge];
      injection H as <-.
    + split; [now right|]. intros x [->|Hx]%elem_of_cons; [lia|auto].
    + split; [now left|].
      intros x [->|Hx]%elem_of_cons; [lia|]. specialize (Hmin x Hx). lia.
  - injection H as <-. apply first_best_None in E as ->.
    split; [now left|]. intros x ->%list_elem_of_singleton. lia.
Qed.

(** ** Submission *)

Lemma falsy_blank (x : field string) : falsy x = true ↔ blank x.
Proof.
  unfold blank, missing. destruct x as [| |s]; simpl; try tauto.
  destruct (decide (s = "")) as [->|Hne]; split; intros H; auto;
    try discriminate.
  destruct H as [[H|H]|H]; try discriminate. congruence.
Qed.

Lemma falsy_val (s : string) : s ≠ "" → falsy (val s) = false.
Proof. intros H. simpl. now destruct (decide (s = "")). Qed.

Lemma Js_nullish_missing (x : Js.t) : Js.nullish x = true ↔ Js.missing x.
Proof.
  unfold Js.missing. destruct x; cbn; split; intros H; auto;
    try discriminate; destruct H; discriminate.
Qed.

Lemma Js_falsy_blank (x : Js.t) : Js.falsy x = true ↔ Js.blank x.
Proof.
  unfold Js.blank, Js.missing. destruct x as [| |b|q|s|l]; cbn.
  - split; auto.
  - split; auto.
  - destruct b; cbn; split; auto; try discriminate.
    intros [[H|H]|[H|[(q & H & _)|H]]]; discriminate.
  - rewrite Qeq_bool_iff. split.
    + intros H. right. right. left. now exists q.
    + intros [[H|H]|[H|[(q' & H & Hq)|H]]]; try discriminate.
      now injection H as ->.
  - rewrite bool_decide_eq_true. split.
    + intros ->. now do 3 right.
    + intros [[H|H]|[H|[(q & H & _)|H]]]; try discriminate.
      now injection H.
  - split; [discriminate|].
    intros [[H|H]|[H|[(q & H & _)|H]]]; discriminate.
Qed.


Lemma BigInt_inject_Z (n : Z) : BigInt (Js.number (inject_Z n)) = Some n.
Proof. cbn. now rewrite Z.mod_1_r, Z.div_1_r. Qed.

Lemma int8_Some (n : Z) : int64 n → prisma.int8 n = Some n.
Proof.
  unfold int64, prisma.int8. intros H.
  destruct (Z.leb_spec (- 2 ^ 63) n); [|lia].
  destruct (Z.ltb_spec n (2 ^ 63)); [reflexivity | lia].
Qed.

Lemma int8_inv (n m : Z) : prisma.int8 n = Some m → m = n ∧ int64 n.
Proof.
  unfold int64, prisma.int8.
  destruct (Z.leb_spec (- 2 ^ 63) n); [|discriminate].
  destruct (Z.ltb_spec n (2 ^ 63)); [|discriminate].
  intros [= <-]. lia.
Qed.

Lemma text_inv (x : Js.t) (s : string) : prisma.text x = Some s → x = Js.str s.
Proof. destruct x; cbn; try discriminate. now intros [= ->]. Qed.

Lemma normalize_str (s : string) :
  normalize (Js.str s) = Js.str (normalizedLogId s).
Proof. reflexivity. Qed.

Lemma submit_rejected (now : Z) (body : Body.t) (db : Store) :
  incomplete body = true →
  submit now body db = ({| status := 400; json := Error missing_fields |}, db).
Proof. unfold incomplete. intros H. unfold submit. now rewrite H. Qed.

(** The four outcomes of a submission: rejected by the test of line 121;
    an exception; a duplicate, which is answered with the row found; a new
    row.  Which one it is does not depend on the store's instant. *)
Lemma submit_cases (body : Body.t) (db : Store) :
  (incomplete body = true
   ∧ ∀ now, submit now body db
            = ({| status := 400; json := Error missing_fields |}, db))
  ∨ (incomplete body = false ∧ ∀ now, submit now body db = (thrown, db))
  ∨ (incomplete body = false
     ∧ ∃ logId treeSize rootHash existing,
         normalize (Body.log_id body) = Js.str logId
         ∧ BigInt (Body.tree_size body) = Some treeSize ∧ int64 treeSize
         ∧ Body.root_hash body = Js.str rootHash
         ∧ prisma.findFirst (same_triple logId treeSize rootHash) None db
           = Some existing
         ∧ ∀ now, submit now body db
                  = ({| status := 200;
                        json := SthJson (serializeSth existing) |}, db))
  ∨ (incomplete body = false
     ∧ ∃ logId treeSize rootHash timestamp monitorId,
         normalize (Body.log_id body) = Js.str logId
         ∧ BigInt (Body.tree_size body) = Some treeSize ∧ int64 treeSize
         ∧ Body.root_hash body = Js.str rootHash
         ∧ BigInt (Body.timestamp body) = Some timestamp ∧ int64 timestamp
         ∧ Body.monitor_id body = Js.str monitorId
         ∧ prisma.findFirst (same_triple logId treeSize rootHash) None db
           = None
         ∧ ∀ now,
             submit now body db
             = ({| status := 201;
                   json := SthJson
                             (serializeSth
                                (created db now logId treeSize rootHash
                                   timestamp monitorId)) |},
                {| rows := rows db
                           ++ [created db now logId treeSize rootHash
                                 timestamp monitorId];
                   next_id := next_id db + 1 |})).
Proof.
  destruct (incomplete body) eqn:G.
  { left. split; [reflexivity|]. intros now. now apply submit_rejected. }
  right. pose proof G as G'. unfold incomplete in G'.
  assert (Hrun : ∀ now r,
            default (thrown, db)
              (treeSize ← BigInt (Body.tree_size body);
               logId ← prisma.text (normalize (Body.log_id body));
               treeSize ← prisma.int8 treeSize;
               rootHash ← prisma.text (Body.root_hash body);
               match prisma.findFirst (same_triple logId treeSize rootHash)
                       None db with
               | Some existing =>
                   Some ({| status := 200;
                            json := SthJson (serializeSth existing) |}, db)
               | None =>
                   timestamp ← BigInt (Body.timestamp body);
                   timestamp ← prisma.int8 timestamp;
                   monitorId ← prisma.text (Body.monitor_id body);
                   Some ({| status := 201;
                            json := SthJson
                                      (serializeSth
                                         (created db now logId treeSize
                                            rootHash timestamp monitorId)) |},
                         {| rows := rows db
                                    ++ [created db now logId treeSize
                                          rootHash timestamp monitorId];
                            next_id := next_id db + 1 |})
               end) = r →
            submit now body db = r).
  { intros now r <-. unfold submit. rewrite G'. reflexivity. }
  destruct (BigInt (Body.tree_size body)) as [t|] eqn:Et.
  2:{ left. split; [reflexivity|]. intros now. now apply Hrun. }
  destruct (prisma.text (normalize (Body.log_id body))) as [l|] eqn:El.
  2:{ left. split; [reflexivity|]. intros now. now apply Hrun. }
  cbn [mbind option_bind] in Hrun.
  destruct (prisma.int8 t) as [t'|] eqn:Et'.
  2:{ left. split; [reflexivity|]. intros now. now apply Hrun. }
  destruct (prisma.text (Body.root_hash body)) as [h|] eqn:Eh.
  2:{ left. split; [reflexivity|]. intros now. now apply Hrun. }
  apply text_inv in El, Eh. apply int8_inv in Et' as [-> Ht].
  cbn [mbind option_bind] in Hrun.
  destruct (prisma.findFirst (same_triple l t h) None db) as [e|] eqn:F.
  { right. left. split; [reflexivity|]. exists l, t, h, e.
    split; [exact El|]. split; [reflexivity|]. split; [exact Ht|].
    split; [exact Eh|]. split; [exact F|].
    intros now. now apply Hrun. }
  destruct (BigInt (Body.timestamp body)) as [ts|] eqn:Ets.
  2:{ left. split; [reflexivity|]. intros now. now apply Hrun. }
  cbn [mbind option_bind] in Hrun.
  destruct (prisma.int8 ts) as [ts'|] eqn:Ets'.
  2:{ left. split; [reflexivity|]. intros now. now apply Hrun. }
  destruct (prisma.text (Body.monitor_id body)) as [m|] eqn:Em.
  2:{ left. split; [reflexivity|]. intros now. now apply Hrun. }
  apply text_inv in Em. apply int8_inv in Ets' as [-> Hts].
  right. right. split; [reflexivity|]. exists l, t, h, ts, m.
  split; [exact El|]. split; [reflexivity|]. split; [exact Ht|].
  split; [exact Eh|]. split; [reflexivity|]. split; [exact Hts|].
  split; [exact Em|]. split; [exact F|].
  intros now. now apply Hrun.
Qed.



(** Behind the API-key gate the handler is [submit]; a request stopped at
    the gate leaves the store as it was. *)
Lemma router_post_gate (apiKey authorization : field string) (now : Z)
    (body : Body.t) (db : Store) :
  router_post apiKey authorization now body db = submit now body db
  ∨ (router_post apiKey authorization now body db).2 = db.
Proof.
  unfold router_post. destruct (falsy apiKey); [now right|].
  destruct (falsy authorization || _); [now right | now left].
Qed.

Lemma router_post_authorized (key : string) (now : Z) (body : Body.t)
    (db : Store) :
  key ≠ "" →
  router_post (val key) (val ("Bearer " +:+ key)) now body db
  = submit now body db.
Proof.
  intros Hkey. unfold router_post. rewrite (falsy_val key Hkey).
  rewrite falsy_val by discriminate.
  cbn [get orb]. now rewrite bool_decide_eq_true_2.
Qed.

(** What one submission does to the table: nothing, or one row appended
    whose identity triple was not there. *)
Lemma submit_rows (now : Z) (body : Body.t) (db : Store) :
  (submit now body db).2 = db
  ∨ ∃ sth,
      rows (submit now body db).2 = rows db ++ [sth]
      ∧ normalize (Body.log_id body) = Js.str (Sth.logId sth)
      ∧ ∀ r, r ∈ rows db →
             same_triple (Sth.logId sth) (Sth.treeSize sth)
               (Sth.rootHash sth) r = false.
Proof.
  destruct (submit_cases body db)
    as [[_ H]|[[_ H]|[(_ & l & t & h & e & _ & _ & _ & _ & _ & H)
                     |(_ & l & t & h & ts & m & Hl & _ & _ & _ & _ & _ & _
                       & F & H)]]];
    rewrite (H now); [now left | now left | now left|].
  right. eexists. split; [reflexivity|]. split; [exact Hl|].
  cbn [created Sth.logId Sth.treeSize Sth.rootHash].
  now apply findFirst_None_iff.
Qed.




(** C4 holds in one direction only: an empty string is present and not
    [null], and is rejected all the same. *)
Lemma submit_empty_log_id_rejected :
  let body := {| Body.log_id := Js.str "";
                 Body.tree_size := Js.number 10;
                 Body.root_hash := Js.str "h1";
                 Body.timestamp := Js.number 1000;
                 Body.monitor_id := Js.str "m1" |} in
  status (submit 0 body empty_store).1 = 400
  ∧ ¬ (Js.missing (Body.log_id body) ∨ Js.missing (Body.tree_size body)
       ∨ Js.missing (Body.root_hash body) ∨ Js.missing (Body.timestamp body)
       ∨ Js.missing (Body.monitor_id body)).
Proof.
  split; [reflexivity|].
  unfold Js.missing. cbn. intros [[H|H]|[[H|H]|[[H|H]|[[H|H]|[H|H]]]]];
    discriminate.
Qed.

(** So are the number 0 and [false], which the test of line 121 takes for
    a missing [log_id], [root_hash] or [monitor_id]. *)
Example submit_zero_rejected :
  status (submit 0 {| Body.log_id := Js.number 0;
                      Body.tree_size := Js.number 10;
                      Body.root_hash := Js.str "h1";
                      Body.timestamp := Js.number 1000;
                      Body.monitor_id := Js.str "m1" |} empty_store).1 = 400
  ∧ status (submit 0 {| Body.log_id := Js.str "AAA=";
                        Body.tree_size := Js.number 10;
                        Body.root_hash := Js.str "h1";
                        Body.timestamp := Js.number 1000;
                        Body.monitor_id := Js.boolean false |}
              empty_store).1 = 400
  ∧ status (submit 0 {| Body.log_id := Js.str "AAA=";
                        Body.tree_size := Js.number 0;
                        Body.root_hash := Js.str "h1";
                        Body.timestamp := Js.boolean false;
                        Body.monitor_id := Js.str "m1" |}
              empty_store).1 = 201.
Proof. repeat split; reflexivity. Qed.

(** C4, amended.  The submission is rejected with status 400 exactly when
    [log_id], [root_hash] or [monitor_id] is absent, [null], [false], 0 or
    the empty string, or [tree_size] or [timestamp] is absent or [null];
    a rejected submission leaves the store as it was. *)
Theorem submit_validation (now : Z) (body : Body.t) (db : Store) :
  (status (submit now body db).1 = 400
   ↔ Js.blank (Body.log_id body) ∨ Js.missing (Body.tree_size body)
     ∨ Js.blank (Body.root_hash body) ∨ Js.missing (Body.timestamp body)
     ∨ Js.blank (Body.monitor_id body))
  ∧ (status (submit now body db).1 = 400 → (submit now body db).2 = db).
Proof.
  rewrite <- !Js_falsy_blank, <- !Js_nullish_missing.
  assert (Hinc : incomplete body = true
                 ↔ Js.falsy (Body.log_id body) = true
                   ∨ Js.nullish (Body.tree_size body) = true
                   ∨ Js.falsy (Body.root_hash body) = true
                   ∨ Js.nullish (Body.timestamp body) = true
                   ∨ Js.falsy (Body.monitor_id body) = true).
  { unfold incomplete. rewrite !orb_true_iff. tauto. }
  rewrite <- Hinc.
  destruct (submit_cases body db)
    as [[G H]|[[G H]|[(G & l & t & h & e & _ & _ & _ & _ & _ & H)
                     |(G & l & t & h & ts & m & _ & _ & _ & _ & _ & _ & _
                       & _ & H)]]];
    rewrite (H now), G; cbn [fst snd status thrown];
    (split; [split|]; intros E; first [reflexivity | discriminate E]).
Qed.

Lemma submit_validation_witness :
  (submit 0 {| Body.log_id := Js.str "AAA="; Body.tree_size := Js.null;
               Body.root_hash := Js.str "h1";
               Body.timestamp := Js.number 1000;
               Body.monitor_id := Js.str "m1" |} empty_store).2 = empty_store.
Proof.
  apply (submit_validation 0 _ empty_store). reflexivity.
Defined.

(** ** Invariants of the table *)

Lemma unique_triples_NoDup (db : Store) :
  unique_triples db ↔ NoDup (triple <$> rows db).
Proof.
  rewrite NoDup_alt. unfold unique_triples. split.
  - intros H i j x Hi Hj.
    rewrite list_lookup_fmap in Hi, Hj.
    destruct (rows db !! i) as [r1|] eqn:E1; [|discriminate].
    destruct (rows db !! j) as [r2|] eqn:E2; [|discriminate].
    cbn in Hi, Hj. unfold triple in Hi, Hj.
    apply (H i j r1 r2); congruence.
  - intros H i j r1 r2 Hi Hj H1 H2 H3.
    apply (H i j (triple r1)); rewrite list_lookup_fmap.
    + now rewrite Hi.
    + rewrite Hj. cbn. unfold triple. congruence.
Qed.

Lemma submit_unique_triples (now : Z) (body : Body.t) (db : Store) :
  unique_triples db → unique_triples (submit now body db).2.
Proof.
  intros Hu. destruct (submit_rows now body db) as [->|(sth & Hrows & _ & Hnew)];
    [exact Hu|].
  apply unique_triples_NoDup. apply unique_triples_NoDup in Hu.
  rewrite Hrows, fmap_app. apply NoDup_app. split; [exact Hu|]. split.
  - intros x Hx Hsth. cbn in Hsth. apply list_elem_of_singleton in Hsth as ->.
    apply list_elem_of_fmap in Hx as (r & Heq & Hr).
    specialize (Hnew r Hr).
    assert (Hsame : same_triple (Sth.logId sth) (Sth.treeSize sth)
                      (Sth.rootHash sth) r = true).
    { apply same_triple_spec. unfold triple in Heq. now injection Heq. }
    congruence.
  - cbn. apply NoDup_singleton.
Qed.

(** C9.  Sequential submissions keep the identity triple unique: from a
    store without duplicate triples, every store reached by submissions
    executed one at a time is without duplicate triples. *)
Theorem reachable_unique_triples (db0 db : Store) :
  unique_triples db0 → reachable db0 db → unique_triples db.
Proof.
  intros H0 Hreach. induction Hreach as [|now body db Hreach IH];
    [exact H0 | now apply submit_unique_triples].
Qed.

Lemma reachable_unique_triples_witness :
  unique_triples
    (submit 6 (body_of "AAA" 10 "h1" 2000 "m2")
       (submit 5 (body_of "AAA=" 10 "h1" 1000 "m1") empty_store).2).2.
Proof.
  apply (reachable_unique_triples empty_store).
  - intros i j r1 r2 Hi. discriminate Hi.
  - apply reachable_submit, reachable_submit, reachable_start.
Defined.


Lemma submit_canonical (now : Z) (body : Body.t) (db : Store) (s : string) :
  Body.log_id body = Js.str s →
  canonical db → canonical (submit now body db).2.
Proof.
  intros Hstr Hc.
  destruct (submit_rows now body db) as [->|(sth & Hrows & Hid & _)];
    [exact Hc|].
  intros r Hr. rewrite Hrows in Hr.
  apply elem_of_app in Hr as [Hr|Hr]; [now apply Hc|].
  apply list_elem_of_singleton in Hr as ->.
  rewrite Hstr in Hid. cbn in Hid. injection Hid as <-.
  apply length_normalizedLogId.
Qed.

(** The migration brings the rows written before the normalizer existed
    to padded form, when the store counts their characters as the
    handlers count their code units. *)
Lemma migration_canonical (LENGTH : string → nat) (db : Store) :
  (∀ r, r ∈ rows db → LENGTH (Sth.logId r) = String.length (Sth.logId r)) →
  canonical (migration LENGTH db).
Proof.
  intros HL r Hr. unfold migration in Hr. cbn [rows] in Hr.
  apply list_elem_of_fmap in Hr as (r0 & -> & Hr0).
  rewrite (HL r0 Hr0).
  destruct (Nat.eqb_spec (String.length (Sth.logId r0) mod 4)%nat 0%nat)
    as [E|E]; [exact E|].
  cbn [Sth.logId].
  pose proof (length_normalizedLogId (Sth.logId r0)) as H.
  now rewrite normalizedLogId_append in H.
Qed.

Lemma pad_append (x : string) (j : nat) :
  (j ≤ pad x)%nat → (j + pad (x +:+ repeat "=" j) = pad x)%nat.
Proof.
  unfold pad. rewrite length_append, length_repeat.
  change (String.length "=") with 1%nat. rewrite Nat.mul_1_r.
  pose proof (Nat.div_mod_eq (String.length x) 4) as Hdm.
  pose proof (Nat.mod_upper_bound (String.length x) 4 ltac:(lia)) as Hlt.
  set (q := (String.length x / 4)%nat) in *.
  set (r := (String.length x mod 4)%nat) in *.
  replace ((String.length x + j) mod 4)%nat with ((r + j) mod 4)%nat.
  2:{ rewrite Hdm.
      replace (4 * q + r + j)%nat with (r + j + q * 4)%nat by lia.
      now rewrite Nat.Div0.mod_add. }
  clearbody r. clear Hdm q.
  destruct r as [|[|[|[|r]]]]; try lia;
    destruct j as [|[|[|[|j]]]]; cbn; lia.
Qed.

Lemma normalizedLogId_padded (x : string) (j : nat) :
  (j ≤ pad x)%nat → normalizedLogId (x +:+ repeat "=" j) = normalizedLogId x.
Proof.
  intros Hj. rewrite !normalizedLogId_append, append_assoc, <- repeat_add.
  now rewrite pad_append.
Qed.


(** The invariant fails for a [log_id] that is an array: the pad is
    computed from the number of its elements, and the string that is
    stored, the elements and the pad, has any length. *)
Example array_log_id_not_padded :
  let res :=
    submit 5 {| Body.log_id := Js.array ["AAA"];
                Body.tree_size := Js.number 10;
                Body.root_hash := Js.str "h1";
                Body.timestamp := Js.number 1000;
                Body.monitor_id := Js.str "m1" |} empty_store in
  status res.1 = 201
  ∧ Sth.logId <$> rows res.2 = ["AAA==="]
  ∧ ¬ canonical res.2.
Proof.
  split; [reflexivity|]. split; [reflexivity|].
  intros H. cbn in H.
  specialize (H {| Sth.id := 1; Sth.logId := "AAA==="; Sth.treeSize := 10;
                   Sth.rootHash := "h1"; Sth.timestamp := 1000;
                   Sth.monitorId := "m1"; Sth.storedAt := 5 |}
                ltac:(left)).
  discriminate H.
Qed.

(** The migration pads by the number of characters, the handlers by the
    number of code units: an identifier of two characters and three code
    units is padded by the migration to five code units, and by the
    handlers to four. *)
Example migration_counts_characters (LENGTH : string → nat) (r : Sth.t) :
  LENGTH (Sth.logId r) = 2%nat → String.length (Sth.logId r) = 3%nat →
  Sth.logId <$> rows (migration LENGTH {| rows := [r]; next_id := 2 |})
  = [Sth.logId r +:+ "=="]
  ∧ normalizedLogId (Sth.logId r) = Sth.logId r +:+ "="
  ∧ ¬ canonical (migration LENGTH {| rows := [r]; next_id := 2 |}).
Proof.
  intros HL Hlen.
  assert (Hrows : rows (migration LENGTH {| rows := [r]; next_id := 2 |})
                  = [ {| Sth.id := Sth.id r;
                         Sth.logId := Sth.logId r +:+ "==";
                         Sth.treeSize := Sth.treeSize r;
                         Sth.rootHash := Sth.rootHash r;
                         Sth.timestamp := Sth.timestamp r;
                         Sth.monitorId := Sth.monitorId r;
                         Sth.storedAt := Sth.storedAt r |} ]).
  { unfold migration. cbn [rows fmap list_fmap]. rewrite HL. reflexivity. }
  split; [now rewrite Hrows|]. split.
  - unfold normalizedLogId, pad. rewrite Hlen. reflexivity.
  - intros Hc. specialize (Hc _ ltac:(rewrite Hrows; left)).
    cbn [Sth.logId] in Hc. rewrite length_append, Hlen in Hc.
    discriminate Hc.
Qed.



(** ** Latest attestation of a log *)

Lemma router_get_unfold (logId : string) (db : Store) :
  router_get logId db
  = match prisma.findFirst
            (λ r, bool_decide (Sth.logId r = normalizedLogId logId))
            (Some desc) db with
    | None => {| status := 404; json := Error "No STH found for this log" |}
    | Some sth =>
        {| status := 200;
           json := SthResponseJson
                     {| Json.r_log_id := Sth.logId sth;
                        Json.r_tree_size := Number (Sth.treeSize sth);
                        Json.r_root_hash := Sth.rootHash sth;
                        Json.r_timestamp := Number (Sth.timestamp sth) |} |}
    end.
Proof. reflexivity. Qed.

Lemma findFirst_desc_None (where_ : Sth.t → bool) (db : Store) :
  prisma.findFirst where_ (Some desc) db = None
  ↔ ∀ r, r ∈ rows db → where_ r = false.
Proof.
  rewrite <- findFirst_None_iff. unfold prisma.findFirst.
  now rewrite first_best_None, head_None.
Qed.

Lemma findFirst_desc_Some (where_ : Sth.t → bool) (db : Store) (sth : Sth.t) :
  prisma.findFirst where_ (Some desc) db = Some sth →
  sth ∈ rows db ∧ where_ sth = true
  ∧ ∀ r, r ∈ rows db → where_ r = true → Sth.storedAt r ≤ Sth.storedAt sth.
Proof.
  unfold prisma.findFirst. intros H. apply first_best_desc in H as [Hin Hmax].
  apply list_elem_of_filter in Hin as [Hw Hin].
  split; [exact Hin|]. split; [exact Hw|].
  intros r Hr Hwr. apply Hmax. now apply list_elem_of_filter.
Qed.

(** C8.  The lookup pads the path identifier as the submission pads the
    body identifier ([normalizedLogId]); it answers 404 exactly when no row
    carries the padded identifier, and otherwise answers with a row of that
    log whose [stored_at] no other row of the log exceeds. *)
Theorem router_get_latest (logId : string) (db : Store) :
  (status (router_get logId db) = 404
   ↔ ∀ r, r ∈ rows db → Sth.logId r ≠ normalizedLogId logId)
  ∧ (∀ r0, r0 ∈ rows db → Sth.logId r0 = normalizedLogId logId →
       ∃ sth,
         sth ∈ rows db
         ∧ Sth.logId sth = normalizedLogId logId
         ∧ (∀ r, r ∈ rows db → Sth.logId r = normalizedLogId logId →
                 Sth.storedAt r ≤ Sth.storedAt sth)
         ∧ router_get logId db
           = {| status := 200;
                json := SthResponseJson
                          {| Json.r_log_id := Sth.logId sth;
                             Json.r_tree_size := Number (Sth.treeSize sth);
                             Json.r_root_hash := Sth.rootHash sth;
                             Json.r_timestamp := Number (Sth.timestamp sth)
                          |} |}).
Proof.
  rewrite router_get_unfold.
  destruct (prisma.findFirst _ (Some desc) db) as [sth|] eqn:F.
  - apply findFirst_desc_Some in F as (Hin & Hw & Hmax).
    apply bool_decide_eq_true in Hw. split.
    + cbn [status]. split; [discriminate|]. intros H. now destruct (H sth Hin).
    + intros r0 _ _. exists sth. repeat split; try assumption.
      intros r Hr Hid. apply Hmax; [exact Hr|]. now apply bool_decide_eq_true.
  - rewrite findFirst_desc_None in F. split.
    + cbn [status]. split; [|reflexivity]. intros _ r Hr Hid.
      specialize (F r Hr). now apply bool_decide_eq_false in F.
    + intros r0 Hr0 Hid. specialize (F r0 Hr0).
      now apply bool_decide_eq_false in F.
Qed.

Lemma router_get_latest_witness :
  status (router_get "BBB" two_rows) = 404
  ∧ ∃ sth, sth ∈ rows two_rows ∧ Sth.logId sth = "AAA="
           ∧ (∀ r, r ∈ rows two_rows → Sth.logId r = "AAA=" →
                   Sth.storedAt r ≤ Sth.storedAt sth)
           ∧ status (router_get "AAA" two_rows) = 200.
Proof.
  split.
  - apply (router_get_latest "BBB" two_rows).
    intros r Hr. cbn in Hr.
    apply elem_of_cons in Hr as [->|Hr]; [discriminate|].
    apply list_elem_of_singleton in Hr as ->. discriminate.
  - destruct (proj2 (router_get_latest "AAA" two_rows)
                {| Sth.id := 1; Sth.logId := "AAA="; Sth.treeSize := 10;
                   Sth.rootHash := "h1"; Sth.timestamp := 9000;
                   Sth.monitorId := "m1"; Sth.storedAt := 100 |})
      as (sth & Hin & Hid & Hmax & Hres); [cbn; left | reflexivity |].
    exists sth. rewrite Hres. repeat split; assumption.
Defined.

(** The lookup follows [stored_at], not the claimed [timestamp]. *)
Example router_get_by_stored_at :
  json (router_get "AAA" two_rows)
  = SthResponseJson {| Json.r_log_id := "AAA="; Json.r_tree_size := 20;
                       Json.r_root_hash := "h2"; Json.r_timestamp := 1000 |}.
Proof. reflexivity. Qed.

(** ** Conversion of the 64-bit columns *)

Lemma Number_exact (n : Z) : Z.abs n < 2 ^ 53 → Number n = n.
Proof.
  intros H. unfold Number.
  assert (Z.log2 (Z.abs n) - 52 ≤ 0) as Hle.
  { destruct (Z.eq_dec (Z.abs n) 0) as [->|Hne]; [cbn; lia|].
    assert (Z.log2 (Z.abs n) < 53); [|lia].
    apply Z.log2_lt_pow2; lia. }
  apply Z.leb_le in Hle. now rewrite Hle.
Qed.

(** Beyond 53 bits the conversion rounds. *)
Example Number_rounds :
  Number (2 ^ 53 + 1) = 2 ^ 53 ∧ Number (2 ^ 53 + 3) = 2 ^ 53 + 4
  ∧ Number (2 ^ 63 - 1) = 2 ^ 63.
Proof. repeat split; reflexivity. Qed.

Lemma submit_response (now : Z) (body : Body.t) (db : Store) (j : Json.Sth) :
  json (submit now body db).1 = SthJson j →
  ∃ sth, sth ∈ rows (submit now body db).2 ∧ j = serializeSth sth.
Proof.
  destruct (submit_cases body db)
    as [[_ H]|[[_ H]|[(_ & l & t & h & e & _ & _ & _ & _ & F & H)
                     |(_ & l & t & h & ts & m & _ & _ & _ & _ & _ & _ & _
                       & _ & H)]]];
    rewrite (H now); cbn [fst snd json rows thrown]; try discriminate;
    intros [= <-]; eexists; (split; [|reflexivity]).
  - now apply findFirst_Some in F.
  - apply elem_of_app. right. left.
Qed.

(** C10.  The record in a submit response and the record in a
    latest-for-log response are those of a stored row, and report its
    [tree_size] and [timestamp] exactly when both are below 2^53 (in
    absolute value, the columns being signed). *)
Theorem responses_exact :
  (∀ now body db j,
     json (submit now body db).1 = SthJson j →
     ∃ sth, sth ∈ rows (submit now body db).2
       ∧ j = serializeSth sth
       ∧ (Z.abs (Sth.treeSize sth) < 2 ^ 53 →
          Z.abs (Sth.timestamp sth) < 2 ^ 53 →
          Json.tree_size j = Sth.treeSize sth
          ∧ Json.timestamp j = Sth.timestamp sth))
  ∧ (∀ logId db j,
       json (router_get logId db) = SthResponseJson j →
       ∃ sth, sth ∈ rows db
         ∧ Json.r_log_id j = Sth.logId sth
         ∧ Json.r_root_hash j = Sth.rootHash sth
         ∧ (Z.abs (Sth.treeSize sth) < 2 ^ 53 →
            Z.abs (Sth.timestamp sth) < 2 ^ 53 →
            Json.r_tree_size j = Sth.treeSize sth
            ∧ Json.r_timestamp j = Sth.timestamp sth)).
Proof.
  split.
  - intros now body db j Hj.
    destruct (submit_response _ _ _ _ Hj) as (sth & Hin & ->).
    exists sth. split; [exact Hin|]. split; [reflexivity|].
    intros Ht Hts. cbn [serializeSth Json.tree_size Json.timestamp].
    now rewrite !Number_exact.
  - intros logId db j. rewrite router_get_unfold.
    destruct (prisma.findFirst _ (Some desc) db) as [sth|] eqn:F;
      cbn [json]; [|discriminate].
    intros [= <-]. apply findFirst_desc_Some in F as (Hin & _ & _).
    exists sth. cbn [Json.r_log_id Json.r_root_hash Json.r_tree_size
                     Json.r_timestamp].
    repeat split; try assumption; now rewrite Number_exact.
Qed.

Lemma responses_exact_witness :
  (∃ sth, sth ∈ rows (submit 5 (body_of "AAA" 10 "h1" 1000 "m1") empty_store).2
     ∧ Json.tree_size
         (serializeSth
            {| Sth.id := 1; Sth.logId := "AAA="; Sth.treeSize := 10;
               Sth.rootHash := "h1"; Sth.timestamp := 1000;
               Sth.monitorId := "m1"; Sth.storedAt := 5 |})
       = Sth.treeSize sth)
  ∧ (∃ sth, sth ∈ rows two_rows
       ∧ Json.r_tree_size
           {| Json.r_log_id := "AAA="; Json.r_tree_size := 20;
              Json.r_root_hash := "h2"; Json.r_timestamp := 1000 |}
         = Sth.treeSize sth).
Proof.
  destruct responses_exact as [Hpost Hget]. split.
  - destruct (Hpost 5 (body_of "AAA" 10 "h1" 1000 "m1") empty_store _ eq_refl)
      as (sth & Hin & _ & Hexact).
    exists sth. split; [exact Hin|].
    cbn in Hin. apply list_elem_of_singleton in Hin as ->.
    apply Hexact; reflexivity.
  - destruct (Hget "AAA" two_rows _ eq_refl) as (sth & Hin & _ & _ & Hexact).
    exists sth. split; [exact Hin|].
    cbn in Hin. apply elem_of_cons in Hin as [->|Hin].
    + apply Hexact; reflexivity.
    + apply list_elem_of_singleton in Hin as ->. apply Hexact; reflexivity.
Defined.

(** ** Histograms *)

Lemma length_down {A} (f : nat → A) (n : nat) : length (down f n) = n.
Proof. induction n as [|n IH]; simpl; [reflexivity | now rewrite IH]. Qed.

Lemma lookup_down {A} (f : nat → A) (n i : nat) :
  (i < n)%nat → down f n !! (n - 1 - i)%nat = Some (f i).
Proof.
  induction n as [|n IH]; intros Hi; [lia|].
  destruct (Nat.eq_dec i n) as [->|Hne].
  - replace (S n - 1 - n)%nat with 0%nat by lia. reflexivity.
  - replace (S n - 1 - i)%nat with (S (n - 1 - i)) by lia.
    simpl. apply IH. lia.
Qed.

Lemma count_gte_lt (lo hi : Z) (db : Store) :
  prisma.count (gte_lt lo hi) db = rows_within lo hi db.
Proof.
  unfold prisma.count, rows_within. f_equal. apply list_filter_iff.
  intros r. unfold gte_lt. rewrite andb_true_iff, Z.leb_le, Z.ltb_lt. tauto.
Qed.

Lemma rows_within_split (lo mid hi : Z) (db : Store) :
  lo ≤ mid → mid ≤ hi →
  rows_within lo hi db = (rows_within lo mid db + rows_within mid hi db)%nat.
Proof.
  intros H1 H2. unfold rows_within.
  induction (rows db) as [|r l IH]; [reflexivity|].
  rewrite !filter_cons.
  destruct (decide (lo ≤ Sth.storedAt r < hi));
    destruct (decide (lo ≤ Sth.storedAt r < mid));
    destruct (decide (mid ≤ Sth.storedAt r < hi)); simpl; lia.
Qed.

Lemma rows_within_empty (lo hi : Z) (db : Store) :
  (∀ r, r ∈ rows db → ¬ lo ≤ Sth.storedAt r < hi) → rows_within lo hi db = 0%nat.
Proof.
  intros H. unfold rows_within.
  destruct (filter _ (rows db)) as [|r l] eqn:E; [reflexivity|].
  assert (Hin : r ∈ filter (λ r, lo ≤ Sth.storedAt r < hi) (rows db))
    by (rewrite E; left).
  apply list_elem_of_filter in Hin as [Hw Hr]. destruct (H r Hr Hw).
Qed.

(** The counts of [n] adjacent windows add up to the count of their
    union. *)
Lemma sum_down_windows (width now : Z) (db : Store) (n : nat) :
  0 ≤ width →
  sum_list
    (down (λ i, rows_within (now - (Z.of_nat i + 1) * width)
                  (now - Z.of_nat i * width) db) n)
  = rows_within (now - Z.of_nat n * width) now db.
Proof.
  intros Hw. induction n as [|n IH]; simpl down; simpl sum_list.
  - unfold rows_within.
    rewrite (list_filter_iff _ (λ _, False)); [|intros r; cbn; lia].
    induction (rows db) as [|r l IHl]; [reflexivity|].
    now rewrite filter_cons_False.
  - rewrite IH.
    replace (Z.of_nat (S n) * width) with ((Z.of_nat n + 1) * width) by lia.
    symmetry. apply rows_within_split; nia.
Qed.

(** Each instant of the trailing [n] buckets lies in the window of one and
    only one bucket. *)
Lemma windows_partition (width now : Z) (n : nat) (t : Z) :
  0 < width → now - Z.of_nat n * width ≤ t < now →
  ∃ i, (i < n)%nat ∧ window width now i t
       ∧ ∀ i', window width now i' t → i' = i.
Proof.
  intros Hw Ht. unfold window.
  exists (Z.to_nat ((now - 1 - t) / width)).
  assert (H0 : 0 ≤ now - 1 - t) by lia.
  pose proof (Z.div_pos _ _ H0 Hw) as Hq.
  pose proof (Z.mul_div_le (now - 1 - t) width Hw) as Hlo.
  pose proof (Z.mul_succ_div_gt (now - 1 - t) width Hw) as Hhi.
  rewrite Z2Nat.id by exact Hq. split; [|split].
  - apply Nat2Z.inj_lt. rewrite Z2Nat.id by exact Hq.
    apply Z.div_lt_upper_bound; [exact Hw|]. nia.
  - nia.
  - intros i' Hi'. apply Nat2Z.inj. rewrite Z2Nat.id by exact Hq.
    apply Z.div_unique_pos with (r := now - 1 - t - Z.of_nat i' * width);
      nia.
Qed.

Lemma hourly_loop_down (toISOString : Z → string) (now : Z) (db : Store)
    (n : nat) (acc : list Hourly.t) :
  hourly_loop toISOString now db n acc
  = acc ++ down (hourly_bucket toISOString now db) n.
Proof.
  revert acc. induction n as [|n IH]; intros acc; simpl.
  - now rewrite app_nil_r.
  - rewrite IH, <- app_assoc. simpl. do 2 f_equal.
    unfold hourly_bucket. rewrite count_gte_lt. do 2 f_equal; lia.
Qed.

Lemma five_min_loop_down (toISOString : Z → string) (now : Z) (db : Store)
    (n : nat) (acc : list FiveMin.t) :
  five_min_loop toISOString now db n acc
  = acc ++ down (five_min_bucket toISOString now db) n.
Proof.
  revert acc. induction n as [|n IH]; intros acc; simpl.
  - now rewrite app_nil_r.
  - rewrite IH, <- app_assoc. simpl. do 2 f_equal.
    unfold five_min_bucket. rewrite count_gte_lt. do 2 f_equal; lia.
Qed.

Lemma fmap_down {A B} (g : A → B) (f : nat → A) (n : nat) :
  g <$> down f n = down (λ i, g (f i)) n.
Proof. induction n as [|n IH]; simpl; [reflexivity | now rewrite <- IH]. Qed.

(** C6.  Whatever the rows and the instant, the hourly histogram has 24
    entries and the 5-minute histogram 12; the entry of bucket [i] stands at
    position [23 - i] (resp. [11 - i]), oldest first, and counts the rows
    stored in [[now - (i + 1) w, now - i w)]; every instant of the trailing
    24 hours (resp. hour) lies in the window of exactly one bucket; a
    bucket with no row in its window reports 0; and the counts add up to
    the number of rows stored in the trailing 24 hours (resp. hour). *)
Theorem histograms_spec (toISOString : Z → string) (now : Z) (db : Store) :
  let hourly := hourlyBuckets toISOString now db in
  let five_min := fiveMinBuckets toISOString now db in
  length hourly = 24%nat
  ∧ length five_min = 12%nat
  ∧ (∀ i, (i < 24)%nat →
          hourly !! (23 - i)%nat = Some (hourly_bucket toISOString now db i))
  ∧ (∀ i, (i < 12)%nat →
          five_min !! (11 - i)%nat
          = Some (five_min_bucket toISOString now db i))
  ∧ (∀ t, now - 24 * 3600000 ≤ t < now →
          ∃ i, (i < 24)%nat ∧ window 3600000 now i t
               ∧ ∀ i', window 3600000 now i' t → i' = i)
  ∧ (∀ t, now - 12 * 300000 ≤ t < now →
          ∃ i, (i < 12)%nat ∧ window 300000 now i t
               ∧ ∀ i', window 300000 now i' t → i' = i)
  ∧ (∀ i, (i < 24)%nat →
          (∀ r, r ∈ rows db → ¬ window 3600000 now i (Sth.storedAt r)) →
          Hourly.count <$> hourly !! (23 - i)%nat = Some 0%nat)
  ∧ (∀ i, (i < 12)%nat →
          (∀ r, r ∈ rows db → ¬ window 300000 now i (Sth.storedAt r)) →
          FiveMin.count <$> five_min !! (11 - i)%nat = Some 0%nat)
  ∧ sum_list (Hourly.count <$> hourly)
    = rows_within (now - 24 * 60 * 60 * 1000) now db
  ∧ sum_list (FiveMin.count <$> five_min)
    = rows_within (now - 60 * 60 * 1000) now db.
Proof.
  intros hourly five_min.
  assert (Hh : hourly = down (hourly_bucket toISOString now db) 24)
    by apply hourly_loop_down.
  assert (Hf : five_min = down (five_min_bucket toISOString now db) 12)
    by apply five_min_loop_down.
  assert (Hhl : ∀ i, (i < 24)%nat →
            hourly !! (23 - i)%nat = Some (hourly_bucket toISOString now db i)).
  { intros i Hi. rewrite Hh. now apply (lookup_down _ 24). }
  assert (Hfl : ∀ i, (i < 12)%nat →
            five_min !! (11 - i)%nat
            = Some (five_min_bucket toISOString now db i)).
  { intros i Hi. rewrite Hf. now apply (lookup_down _ 12). }
  split; [rewrite Hh; apply length_down|].
  split; [rewrite Hf; apply length_down|].
  split; [exact Hhl|]. split; [exact Hfl|].
  split; [intros t Ht; apply windows_partition; cbn; lia|].
  split; [intros t Ht; apply windows_partition; cbn; lia|].
  split; [|split; [|split]].
  - intros i Hi Hempty. rewrite (Hhl i Hi). cbn. f_equal.
    apply rows_within_empty. exact Hempty.
  - intros i Hi Hempty. rewrite (Hfl i Hi). cbn. f_equal.
    apply rows_within_empty. exact Hempty.
  - rewrite Hh, fmap_down. cbn [hourly_bucket Hourly.count].
    now rewrite (sum_down_windows 3600000 now db 24).
  - rewrite Hf, fmap_down. cbn [five_min_bucket FiveMin.count].
    now rewrite (sum_down_windows 300000 now db 12).
Qed.

Lemma histograms_spec_witness :
  (∃ i, (i < 24)%nat ∧ window 3600000 7200000 i 100
        ∧ ∀ i', window 3600000 7200000 i' 100 → i' = i)
  ∧ Hourly.count <$> hourlyBuckets (λ _, "") 7200000 two_rows !! (23 - 0)%nat
    = Some 0%nat.
Proof.
  pose proof (histograms_spec (λ _, "") 7200000 two_rows)
    as (_ & _ & _ & _ & Hpart & _ & Hzero & _).
  split.
  - apply Hpart. lia.
  - apply Hzero; [lia|]. intros r Hr. unfold window. cbn in Hr.
    apply elem_of_cons in Hr as [->|Hr]; [cbn; lia|].
    apply list_elem_of_singleton in Hr as ->. cbn. lia.
Defined.

(** ** Cross-monitor consistency *)

Lemma size_gt_1 (X : gset string) :
  (1 < size X)%nat ↔ ∃ x y, x ∈ X ∧ y ∈ X ∧ x ≠ y.
Proof.
  split.
  - intros Hs.
    destruct (size_pos_elem_of X) as [x Hx]; [lia|].
    assert (Hd : (0 < size (X ∖ {[x]}))%nat).
    { rewrite size_difference by now apply singleton_subseteq_l.
      rewrite size_singleton. lia. }
    destruct (size_pos_elem_of _ Hd) as [y Hy].
    apply elem_of_difference in Hy as [Hy Hne].
    rewrite not_elem_of_singleton in Hne.
    exists x, y. split; [exact Hx|]. split; [exact Hy|]. congruence.
  - intros (x & y & Hx & Hy & Hne).
    assert (Hsub : ({[x]} ∪ {[y]} : gset string) ⊆ X).
    { apply union_subseteq. split; now apply singleton_subseteq_l. }
    apply subseteq_size in Hsub.
    rewrite size_union in Hsub
      by now apply disjoint_singleton_l, not_elem_of_singleton.
    rewrite !size_singleton in Hsub. lia.
Qed.

(** What the map holds after the loop: at each tree size that occurs, the
    set of the root hashes reported with it. *)
Lemma byTreeSize_lookup (valid : list Latest.t) (k : Z) :
  (byTreeSize valid !! k = None →
   ∀ e, e ∈ valid → Latest.tree_size e ≠ k)
  ∧ (∀ hashes, byTreeSize valid !! k = Some hashes →
       ∀ h, h ∈ hashes
            ↔ ∃ e, e ∈ valid ∧ Latest.tree_size e = k
                   ∧ Latest.root_hash e = h).
Proof.
  unfold byTreeSize.
  induction valid as [|x l IH] using rev_ind.
  - cbn. split.
    + intros _ e He. inversion He.
    + intros hashes H. rewrite lookup_empty in H. discriminate.
  - rewrite foldl_snoc. set (m := foldl _ ∅ l) in *.
    destruct IH as [IHn IHs].
    destruct (decide (Latest.tree_size x = k)) as [Hk|Hk].
    + subst k. rewrite lookup_alter_eq.
      destruct (decide (is_Some (m !! Latest.tree_size x))) as [[hs Hhs]|Hno].
      * rewrite Hhs. cbn. split; [discriminate|].
        intros hashes [= <-] h. rewrite elem_of_union, (IHs hs Hhs h).
        rewrite elem_of_singleton. split.
        -- intros [(e & He & Ht & Hh)| ->].
           ++ exists e. rewrite elem_of_app. auto.
           ++ exists x. rewrite elem_of_app, list_elem_of_singleton. auto.
        -- intros (e & He & Ht & Hh). apply elem_of_app in He as [He|He].
           ++ left. eauto.
           ++ apply list_elem_of_singleton in He as ->. right. auto.
      * rewrite lookup_insert_eq. cbn. split; [discriminate|].
        intros hashes [= <-] h.
        rewrite elem_of_union, elem_of_singleton.
        assert (Hnone : m !! Latest.tree_size x = None).
        { destruct (m !! Latest.tree_size x) eqn:E; [|reflexivity].
          destruct Hno. eauto. }
        specialize (IHn Hnone). split.
        -- intros [Hemp| ->]; [now apply not_elem_of_empty in Hemp|].
           exists x. rewrite elem_of_app, list_elem_of_singleton. auto.
        -- intros (e & He & Ht & Hh). apply elem_of_app in He as [He|He].
           ++ now destruct (IHn e He).
           ++ apply list_elem_of_singleton in He as ->. right. auto.
    + rewrite lookup_alter_ne by exact Hk.
      assert (Hm : (if decide (is_Some (m !! Latest.tree_size x)) then m
                    else <[Latest.tree_size x := ∅]> m) !! k = m !! k).
      { destruct (decide (is_Some (m !! Latest.tree_size x)));
          [reflexivity | now rewrite lookup_insert_ne]. }
      rewrite Hm. split.
      * intros Hnone e He. apply elem_of_app in He as [He|He]; [now apply IHn|].
        apply list_elem_of_singleton in He as ->. exact Hk.
      * intros hashes Hhs h. rewrite (IHs hashes Hhs h). split.
        -- intros (e & He & Ht & Hh). exists e. rewrite elem_of_app. auto.
        -- intros (e & He & Ht & Hh). apply elem_of_app in He as [He|He].
           ++ eauto.
           ++ apply list_elem_of_singleton in He as ->. contradiction.
Qed.

Lemma hasConflict_iff (valid : list Latest.t) :
  hasConflict valid = true
  ↔ ∃ e1 e2, e1 ∈ valid ∧ e2 ∈ valid
             ∧ Latest.tree_size e1 = Latest.tree_size e2
             ∧ Latest.root_hash e1 ≠ Latest.root_hash e2.
Proof.
  unfold hasConflict. rewrite existsb_exists. split.
  - intros (hashes & Hin & Hs).
    apply list_elem_of_In, list_elem_of_fmap in Hin as ([k hs] & -> & Hin).
    apply elem_of_map_to_list in Hin. cbn [snd] in Hs.
    apply Nat.ltb_lt, size_gt_1 in Hs as (x & y & Hx & Hy & Hne).
    destruct (byTreeSize_lookup valid k) as [_ Hsome].
    apply (Hsome hs Hin) in Hx as (e1 & He1 & Ht1 & Hh1).
    apply (Hsome hs Hin) in Hy as (e2 & He2 & Ht2 & Hh2).
    exists e1, e2. repeat split; try assumption; congruence.
  - intros (e1 & e2 & He1 & He2 & Ht & Hne).
    destruct (byTreeSize_lookup valid (Latest.tree_size e1)) as [Hnone Hsome].
    destruct (byTreeSize valid !! Latest.tree_size e1) as [hs|] eqn:E.
    + exists hs. split.
      * apply list_elem_of_In, list_elem_of_fmap.
        exists (Latest.tree_size e1, hs). split; [reflexivity|].
        now apply elem_of_map_to_list.
      * apply Nat.ltb_lt, size_gt_1.
        exists (Latest.root_hash e1), (Latest.root_hash e2).
        split; [|split; [|exact Hne]]; apply (Hsome hs eq_refl); eauto.
    + now destruct (Hnone eq_refl e1 He1).
Qed.

Lemma groupBy_spec (by_ : Sth.t → string) (where_ : Sth.t → bool)
    (db : Store) :
  NoDup (prisma.groupBy by_ where_ db)
  ∧ ∀ k, k ∈ prisma.groupBy by_ where_ db
         ↔ ∃ r, r ∈ rows db ∧ where_ r = true ∧ by_ r = k.
Proof.
  unfold prisma.groupBy. split; [apply NoDup_remove_dups|].
  intros k. rewrite elem_of_remove_dups, list_elem_of_fmap. split.
  - intros (r & -> & Hr). apply list_elem_of_filter in Hr as [Hw Hr]. eauto.
  - intros (r & Hr & Hw & <-). exists r. split; [reflexivity|].
    now apply list_elem_of_filter.
Qed.

Lemma omap_total {A} (f : string → option A) (g : A → string)
    (l : list string) :
  (∀ m, m ∈ l → ∃ e, f m = Some e ∧ g e = m) →
  g <$> omap (λ x, x) (f <$> l) = l.
Proof.
  induction l as [|m l IH]; intros H; [reflexivity|].
  destruct (H m) as (e & He & Hg); [left|].
  cbn. rewrite He. cbn. rewrite Hg. f_equal.
  apply IH. intros m' Hm'. apply H. now right.
Qed.

(** The entries of [latest_per_monitor]: one per monitor that reported on
    the log, made of a row of that monitor and log that no other such row
    exceeds in [stored_at]. *)
Lemma checkConsistency_latest (db : Store) (logId : string) :
  let valid := Consistency.latest_per_monitor (checkConsistency db logId) in
  Latest.monitor_id <$> valid
  = prisma.groupBy Sth.monitorId (λ r, bool_decide (Sth.logId r = logId)) db
  ∧ ∀ e, e ∈ valid →
      ∃ sth, sth ∈ rows db ∧ Sth.logId sth = logId
        ∧ Sth.monitorId sth = Latest.monitor_id e
        ∧ (∀ r, r ∈ rows db → Sth.logId r = logId →
                Sth.monitorId r = Latest.monitor_id e →
                Sth.storedAt r ≤ Sth.storedAt sth)
        ∧ e = entry_of sth.
Proof.
  cbn [checkConsistency Consistency.latest_per_monitor].
  set (f := λ m : string,
         match prisma.findFirst
                 (λ r, bool_decide (Sth.logId r = logId)
                       && bool_decide (Sth.monitorId r = m))
                 (Some desc) db with
         | Some sth => Some _
         | None => None
         end).
  set (monitorIds := prisma.groupBy _ _ db).
  assert (Hf : ∀ m e, f m = Some e →
            ∃ sth, sth ∈ rows db ∧ Sth.logId sth = logId
              ∧ Sth.monitorId sth = m
              ∧ (∀ r, r ∈ rows db → Sth.logId r = logId →
                      Sth.monitorId r = m →
                      Sth.storedAt r ≤ Sth.storedAt sth)
              ∧ e = entry_of sth).
  { intros m e. unfold f.
    destruct (prisma.findFirst _ (Some desc) db) as [sth|] eqn:F;
      [|discriminate].
    intros [= <-]. apply findFirst_desc_Some in F as (Hin & Hw & Hmax).
    apply andb_true_iff in Hw as [Hl Hm]. apply bool_decide_eq_true in Hl, Hm.
    exists sth. repeat split; try assumption.
    intros r Hr Hrl Hrm. apply Hmax; [exact Hr|].
    apply andb_true_iff. split; now apply bool_decide_eq_true. }
  split.
  - apply omap_total. intros m Hm.
    apply (proj2 (groupBy_spec _ _ db)) in Hm as (r & Hr & Hl & Hrm).
    destruct (f m) as [e|] eqn:E.
    + exists e. split; [reflexivity|].
      destruct (Hf m e E) as (sth & _ & _ & Hsm & _ & ->). exact Hsm.
    + exfalso. unfold f in E.
      destruct (prisma.findFirst _ (Some desc) db) eqn:F; [discriminate|].
      rewrite findFirst_desc_None in F. specialize (F r Hr).
      rewrite Hl, Hrm in F. cbn in F.
      now rewrite bool_decide_eq_false in F.
  - intros e He. apply list_elem_of_omap in He as (o & Ho & ->).
    apply list_elem_of_fmap in Ho as (m & Hm & _). symmetry in Hm.
    destruct (Hf m e Hm) as (sth & H1 & H2 & H3 & H4 & ->).
    exists sth. cbn [entry_of Latest.monitor_id]. rewrite H3. auto.
Qed.

(** C2 fails for sizes of 2^53 and more: the sizes are grouped as the
    entries report them, converted by [Number], and 2^53 and 2^53 + 1 are
    reported as the same number; monitors A and B whose latest rows have
    these two sizes, and different roots, make the log inconsistent. *)
Lemma sizes_beyond_2_53_grouped :
  (Sth.monitorId <$> rows beyond_2_53 = ["A"; "B"]
   ∧ Sth.treeSize <$> rows beyond_2_53 = [2 ^ 53; 2 ^ 53 + 1]
   ∧ Sth.rootHash <$> rows beyond_2_53 = ["h1"; "h2"])
  ∧ Consistency.consistent <$> consistency beyond_2_53 = [false].
Proof. split; [split; [|split]|]; vm_compute; reflexivity. Qed.

(** C2, amended.  The report has one entry per log.  Its
    [latest_per_monitor] holds, for each distinct monitor of the log, the
    entry made of that monitor's row of greatest [stored_at]; the log is
    reported inconsistent exactly when two of these entries have the same
    reported [tree_size] and different [root_hash]; when the stored sizes
    of the log are below 2^53 in magnitude, that is when the latest rows
    of two monitors have the same stored [tree_size] and different
    [root_hash]; a log with at most one monitor is consistent; and the two
    cases of monitors A and B come out as inconsistent and consistent. *)
Theorem consistency_spec (db : Store) :
  Consistency.log_id <$> consistency db = logGroups db
  ∧ NoDup (logGroups db)
  ∧ (∀ l, l ∈ logGroups db ↔ ∃ r, r ∈ rows db ∧ Sth.logId r = l)
  ∧ (∀ c, c ∈ consistency db →
       let valid := Consistency.latest_per_monitor c in
       NoDup (Latest.monitor_id <$> valid)
       ∧ (∀ m, m ∈ Latest.monitor_id <$> valid
               ↔ ∃ r, r ∈ rows db ∧ Sth.logId r = Consistency.log_id c
                      ∧ Sth.monitorId r = m)
       ∧ (∀ e, e ∈ valid →
            ∃ sth, sth ∈ rows db
              ∧ Sth.logId sth = Consistency.log_id c
              ∧ Sth.monitorId sth = Latest.monitor_id e
              ∧ (∀ r, r ∈ rows db →
                      Sth.logId r = Consistency.log_id c →
                      Sth.monitorId r = Latest.monitor_id e →
                      Sth.storedAt r ≤ Sth.storedAt sth)
              ∧ e = entry_of sth)
       ∧ Consistency.monitor_count c = length valid
       ∧ (Consistency.consistent c = false
          ↔ ∃ e1 e2, e1 ∈ valid ∧ e2 ∈ valid
                     ∧ Latest.tree_size e1 = Latest.tree_size e2
                     ∧ Latest.root_hash e1 ≠ Latest.root_hash e2)
       ∧ ((∀ r, r ∈ rows db → Sth.logId r = Consistency.log_id c →
                Z.abs (Sth.treeSize r) < 2 ^ 53) →
          (Consistency.consistent c = false
           ↔ ∃ s1 s2, s1 ∈ rows db ∧ s2 ∈ rows db
                      ∧ Sth.logId s1 = Consistency.log_id c
                      ∧ Sth.logId s2 = Consistency.log_id c
                      ∧ entry_of s1 ∈ valid ∧ entry_of s2 ∈ valid
                      ∧ Sth.treeSize s1 = Sth.treeSize s2
                      ∧ Sth.rootHash s1 ≠ Sth.rootHash s2))
       ∧ ((Consistency.monitor_count c ≤ 1)%nat →
          Consistency.consistent c = true))
  ∧ Consistency.consistent <$> consistency split_world = [false]
  ∧ Consistency.consistent <$> consistency different_sizes = [true]
  ∧ consistency empty_store = [].
Proof.
  split; [|split; [|split; [|split]]].
  - unfold consistency. induction (logGroups db) as [|l ls IH];
      [reflexivity | cbn; now rewrite IH].
  - apply groupBy_spec.
  - intros l. unfold logGroups. rewrite (proj2 (groupBy_spec _ _ db)).
    split; intros (r & Hr & H); exists r; tauto.
  - intros c Hc valid. unfold consistency in Hc.
    apply list_elem_of_fmap in Hc as (logId & -> & _).
    destruct (checkConsistency_latest db logId) as [Hmons Hlatest].
    fold valid in Hmons, Hlatest.
    assert (Hconf : Consistency.consistent (checkConsistency db logId) = false
              ↔ ∃ e1 e2, e1 ∈ valid ∧ e2 ∈ valid
                         ∧ Latest.tree_size e1 = Latest.tree_size e2
                         ∧ Latest.root_hash e1 ≠ Latest.root_hash e2).
    { rewrite <- hasConflict_iff.
      change (Consistency.consistent (checkConsistency db logId))
        with (negb (hasConflict valid)).
      destruct (hasConflict valid); cbn; split; congruence. }
    change (Consistency.log_id (checkConsistency db logId)) with logId.
    change (Consistency.monitor_count (checkConsistency db logId))
      with (length valid).
    split; [rewrite Hmons; apply groupBy_spec|].
    split.
    { intros m. rewrite Hmons, (proj2 (groupBy_spec _ _ db)).
      split; intros (r & Hr & H1 & H2); exists r.
      - apply bool_decide_eq_true in H1. tauto.
      - rewrite bool_decide_eq_true. tauto. }
    split; [exact Hlatest|]. split; [reflexivity|]. split; [exact Hconf|].
    split.
    { intros Hsmall. rewrite Hconf. split.
      - intros (e1 & e2 & He1 & He2 & Hsize & Hroot).
        destruct (Hlatest e1 He1) as (s1 & Hr1 & Hl1 & _ & _ & ->).
        destruct (Hlatest e2 He2) as (s2 & Hr2 & Hl2 & _ & _ & ->).
        exists s1, s2. cbn [entry_of Latest.tree_size Latest.root_hash] in *.
        rewrite !Number_exact in Hsize by auto. auto 10.
      - intros (s1 & s2 & Hr1 & Hr2 & Hl1 & Hl2 & He1 & He2 & Hsize & Hroot).
        exists (entry_of s1), (entry_of s2).
        cbn [entry_of Latest.tree_size Latest.root_hash].
        rewrite Hsize. auto. }
    intros Hle.
    destruct (Consistency.consistent (checkConsistency db logId)) eqn:E;
      [reflexivity|].
    exfalso. destruct (proj1 Hconf eq_refl) as (e1 & e2 & He1 & He2 & _ & Hne).
    destruct valid as [|a [|b l]].
    + inversion He1.
    + apply list_elem_of_singleton in He1, He2. congruence.
    + cbn in Hle. lia.
  - split; [|split]; vm_compute; reflexivity.
Qed.

Lemma consistency_spec_witness :
  Consistency.consistent
    (checkConsistency
       (submit 1 (body_of "L" 100 "h1" 1000 "A") empty_store).2 "L===")
  = true.
Proof.
  pose proof (consistency_spec
                (submit 1 (body_of "L" 100 "h1" 1000 "A") empty_store).2)
    as (_ & _ & _ & H & _).
  apply (H (checkConsistency _ "L===")).
  - apply list_elem_of_fmap_2. vm_compute. left.
  - vm_compute. lia.
Defined.

(** ** Rounding to binary64 *)

Section Binary64Facts.
Local Open Scope Q_scope.

(** Linear arithmetic with the powers of two taken as unknowns. *)
Ltac pow_lra :=
  repeat match goal with
         | |- context [Qpower 2 ?k] =>
             let p := fresh "p" in set (p := Qpower 2 k) in *; clearbody p
         | _ : context [Qpower 2 ?k] |- _ =>
             let p := fresh "p" in set (p := Qpower 2 k) in *; clearbody p
         end;
  lra.

Lemma pow2_pos (k : Z) : 0 < 2 ^ k.
Proof. apply Qpower_0_lt. reflexivity. Qed.

Lemma pow2_succ (k : Z) : 2 ^ (k + 1) == 2 * 2 ^ k.
Proof. rewrite Qpower_plus by discriminate. change (2 ^ 1) with 2. ring. Qed.

Lemma pow2_Z (n : Z) : (0 <= n)%Z -> inject_Z (2 ^ n) == 2 ^ n.
Proof. intros H. now rewrite Zpower_Qpower. Qed.

Lemma inject_Z_minus (x y : Z) : inject_Z (x - y) = inject_Z x - inject_Z y.
Proof.
  unfold Z.sub, Qminus. now rewrite inject_Z_plus, inject_Z_opp.
Qed.

Lemma Qfloor_unique (x : Q) (n : Z) :
  inject_Z n <= x -> x < inject_Z (n + 1) -> Qfloor x = n.
Proof.
  intros Hlo Hhi.
  pose proof (Qfloor_le x) as H1. pose proof (Qlt_floor x) as H2.
  assert (Ha : inject_Z n < inject_Z (Qfloor x + 1))
    by (eapply Qle_lt_trans; eassumption).
  assert (Hb : inject_Z (Qfloor x) < inject_Z (n + 1))
    by (eapply Qle_lt_trans; eassumption).
  rewrite <- Zlt_Qlt in Ha, Hb. lia.
Qed.

Lemma ilog2_spec (x : Q) : 0 < x -> 2 ^ ilog2 x <= x /\ x < 2 ^ (ilog2 x + 1).
Proof.
  intros Hx. destruct x as [n d]. unfold ilog2. cbn [Qnum Qden].
  assert (Hn : (0 < n)%Z) by (unfold Qlt in Hx; cbn in Hx; lia).
  set (L := Z.log2 n). set (M := Z.log2 (Z.pos d)).
  destruct (Z.log2_spec n Hn) as [HL1 HL2]. fold L in HL1, HL2.
  destruct (Z.log2_spec (Z.pos d) ltac:(lia)) as [HM1 HM2]. fold M in HM1, HM2.
  assert (HL0 : (0 <= L)%Z) by apply Z.log2_nonneg.
  assert (HM0 : (0 <= M)%Z) by apply Z.log2_nonneg.
  rewrite Zle_Qle in HL1, HM1. rewrite Zlt_Qlt in HL2, HM2.
  replace (Z.succ L) with (L + 1)%Z in * by lia.
  replace (Z.succ M) with (M + 1)%Z in * by lia.
  rewrite pow2_Z in HL1, HL2, HM1, HM2 by lia.
  rewrite pow2_succ in HL2, HM2.
  assert (Hq : n # d == inject_Z n / inject_Z (Z.pos d)) by apply Qmake_Qdiv.
  assert (Hk : 2 ^ L == 2 ^ (L - M) * 2 ^ M).
  { rewrite <- Qpower_plus by discriminate.
    now replace (L - M + M)%Z with L by lia. }
  assert (Hh : 2 ^ (L - M) == 2 * 2 ^ (L - M - 1)).
  { rewrite <- pow2_succ. now replace (L - M - 1 + 1)%Z with (L - M)%Z by lia. }
  pose proof (pow2_pos M) as HpM. pose proof (pow2_pos (L - M)) as Hpk.
  pose proof (pow2_succ (L - M)) as Hs.
  set (N := inject_Z n) in *. set (D := inject_Z (Z.pos d)) in *.
  set (X := n # d) in *. set (pk := 2 ^ (L - M)) in *. set (pM := 2 ^ M) in *.
  set (pL := 2 ^ L) in *. set (ph := 2 ^ (L - M - 1)) in *.
  set (ps := 2 ^ (L - M + 1)) in *.
  assert (Hgoal : if Qle_bool pk X then pk <= X /\ X < ps
                  else ph <= X /\ X < pk).
  { clearbody N D X pk pM pL ph ps.
    assert (HD : 0 < D) by lra.
    assert (Hx' : X * D == N) by (rewrite Hq; field; lra).
    assert (Hup : X < 2 * pk).
    { apply Qnot_le_lt. intros Hc.
      assert (2 * pk * pM <= X * pM) by (apply Qmult_le_compat_r; lra).
      assert (X * pM <= X * D) by (apply Qmult_le_l; lra).
      lra. }
    assert (Hlo : pk < 2 * X).
    { apply Qnot_le_lt. intros Hc.
      assert (X * D < X * (2 * pM)) by (apply Qmult_lt_l; lra).
      assert (2 * X * pM <= pk * pM) by (apply Qmult_le_compat_r; lra).
      lra. }
    destruct (Qle_bool pk X) eqn:E.
    - apply Qle_bool_iff in E. split; [exact E | lra].
    - assert (E' : X < pk).
      { apply Qnot_le_lt. intros Hc. apply Qle_bool_iff in Hc. congruence. }
      split; [lra | exact E']. }
  destruct (Qle_bool pk X); [exact Hgoal|].
  replace (L - M - 1 + 1)%Z with (L - M)%Z by lia. exact Hgoal.
Qed.

Lemma ilog2_unique (x : Q) (k : Z) :
  2 ^ k <= x -> x < 2 ^ (k + 1) -> ilog2 x = k.
Proof.
  intros H1 H2.
  assert (Hx : 0 < x) by (pose proof (pow2_pos k); lra).
  destruct (ilog2_spec x Hx) as [H3 H4].
  assert (Ha : 2 ^ k < 2 ^ (ilog2 x + 1)) by (eapply Qle_lt_trans; eassumption).
  assert (Hb : 2 ^ ilog2 x < 2 ^ (k + 1)) by (eapply Qle_lt_trans; eassumption).
  apply Qpower_lt_compat_l_inv in Ha; [|reflexivity].
  apply Qpower_lt_compat_l_inv in Hb; [|reflexivity].
  lia.
Qed.

Lemma ilog2_comp (x y : Q) : 0 < x -> x == y -> ilog2 x = ilog2 y.
Proof.
  intros Hx Hxy. symmetry. destruct (ilog2_spec x Hx) as [H1 H2].
  apply ilog2_unique; rewrite <- Hxy; assumption.
Qed.

Lemma rnd_even_spec (x : Q) :
  inject_Z (rnd_even x) - x <= 1 # 2 /\ x - inject_Z (rnd_even x) <= 1 # 2.
Proof.
  unfold rnd_even.
  pose proof (Qfloor_le x) as H1. pose proof (Qlt_floor x) as H2.
  rewrite inject_Z_plus in H2. change (inject_Z 1) with 1 in H2.
  destruct (Qcompare (x - inject_Z (Qfloor x)) (1 # 2)) eqn:E.
  - apply Qeq_alt in E. destruct (Z.even (Qfloor x));
      [|rewrite inject_Z_plus; change (inject_Z 1) with 1]; lra.
  - apply Qlt_alt in E. lra.
  - apply Qgt_alt in E. rewrite inject_Z_plus. change (inject_Z 1) with 1. lra.
Qed.

Lemma rnd_even_Z (x : Q) (z : Z) : x == inject_Z z -> rnd_even x = z.
Proof.
  intros Hx. unfold rnd_even.
  assert (Hf : Qfloor x = z) by (rewrite Hx; apply Qfloor_Z).
  rewrite Hf.
  assert (E : Qcompare (x - inject_Z z) (1 # 2) = Lt)
    by (rewrite <- Qlt_alt; lra).
  now rewrite E.
Qed.

Lemma rnd_even_comp (x y : Q) : x == y -> rnd_even x = rnd_even y.
Proof.
  intros Hxy. unfold rnd_even.
  assert (Hf : Qfloor x = Qfloor y) by now rewrite Hxy.
  rewrite Hf.
  assert (E : Qcompare (x - inject_Z (Qfloor y)) (1 # 2)
              = Qcompare (y - inject_Z (Qfloor y)) (1 # 2))
    by now rewrite Hxy.
  now rewrite E.
Qed.

Lemma fl_0 (x : Q) : x == 0 -> fl x == 0.
Proof.
  intros H. unfold fl. apply Qeq_bool_iff in H. rewrite H. reflexivity.
Qed.

Lemma fl_unfold (x : Q) :
  ~ x == 0 ->
  fl x = inject_Z (rnd_even (x / 2 ^ (ilog2 (Qabs x) - 52)))
         * 2 ^ (ilog2 (Qabs x) - 52).
Proof.
  intros H. unfold fl. destruct (Qeq_bool x 0) eqn:E; [|reflexivity].
  apply Qeq_bool_iff in E. contradiction.
Qed.

Lemma Qabs_pos_lt (x : Q) : ~ x == 0 -> 0 < Qabs x.
Proof.
  intros H. apply Qabs_case; intros Hx; lra.
Qed.

Lemma fl_comp (x y : Q) : x == y -> fl x == fl y.
Proof.
  intros Hxy. destruct (Qeq_dec x 0) as [Hx|Hx].
  - rewrite !fl_0; [reflexivity | now rewrite <- Hxy | exact Hx].
  - assert (Hy : ~ y == 0) by now rewrite <- Hxy.
    rewrite !fl_unfold by assumption.
    assert (He : ilog2 (Qabs x) = ilog2 (Qabs y)).
    { apply ilog2_comp; [now apply Qabs_pos_lt | now rewrite Hxy]. }
    rewrite He.
    assert (Hr : rnd_even (x / 2 ^ (ilog2 (Qabs y) - 52))
                 = rnd_even (y / 2 ^ (ilog2 (Qabs y) - 52)))
      by (apply rnd_even_comp; now rewrite Hxy).
    now rewrite Hr.
Qed.

(** The relative error of one rounding is at most 2^-53. *)
Lemma fl_error (x : Q) :
  Qabs (fl x - x) <= (1 # 9007199254740992) * Qabs x.
Proof.
  destruct (Qeq_dec x 0) as [Hx|Hx].
  - rewrite (fl_0 x Hx), Hx. discriminate.
  - rewrite fl_unfold by exact Hx.
    pose proof (Qabs_pos_lt x Hx) as Ha.
    destruct (ilog2_spec _ Ha) as [HL _].
    set (L := ilog2 (Qabs x)) in *.
    destruct (rnd_even_spec (x / 2 ^ (L - 52))) as [H1 H2].
    set (m := inject_Z (rnd_even (x / 2 ^ (L - 52)))) in *.
    pose proof (pow2_pos (L - 52)) as Hp.
    assert (HpL : 2 ^ L == 2 ^ (L - 52) * 4503599627370496).
    { replace L with (L - 52 + 52)%Z at 1 by lia.
      rewrite Qpower_plus by discriminate. reflexivity. }
    set (p := 2 ^ (L - 52)) in *. set (pL := 2 ^ L) in *.
    clearbody m p pL.
    assert (Hd : m * p - x == (m - x / p) * p) by (field; intros Hc; lra).
    rewrite Hd, Qabs_Qmult, (Qabs_pos p) by lra.
    assert (Hm : Qabs (m - x / p) <= 1 # 2) by (apply Qabs_Qle_condition; lra).
    assert (Qabs (m - x / p) * p <= (1 # 2) * p)
      by (apply Qmult_le_compat_r; lra).
    lra.
Qed.

(** Values of at most 53 significant bits are not changed. *)
Lemma fl_exact (z j : Z) :
  (Z.abs z < 2 ^ 53)%Z -> fl (inject_Z z * 2 ^ j) == inject_Z z * 2 ^ j.
Proof.
  intros Hz. pose proof (pow2_pos j) as Hpj.
  destruct (Z.eq_dec z 0%Z) as [->|Hne].
  - change (inject_Z 0) with 0. rewrite fl_0 by ring. ring.
  - assert (Hx : ~ inject_Z z * 2 ^ j == 0).
    { intros Hc. apply Qmult_integral in Hc as [Hc|Hc]; [|pow_lra].
      apply (inject_Z_injective z 0) in Hc. contradiction. }
    rewrite fl_unfold by exact Hx.
    pose proof (Qabs_pos_lt _ Hx) as Ha.
    destruct (ilog2_spec _ Ha) as [HL _].
    set (L := ilog2 (Qabs (inject_Z z * 2 ^ j))) in *.
    assert (Habs : Qabs (inject_Z z * 2 ^ j) == inject_Z (Z.abs z) * 2 ^ j).
    { rewrite Qabs_Qmult, (Qabs_pos (2 ^ j)) by pow_lra.
      now rewrite <- (Zabs_Qabs z 1). }
    assert (Hlt : 2 ^ L < 2 ^ (53 + j)).
    { rewrite Habs in HL. eapply Qle_lt_trans; [exact HL|].
      rewrite Qpower_plus by discriminate.
      apply Qmult_lt_compat_r; [exact Hpj|].
      rewrite <- pow2_Z by lia. now rewrite <- Zlt_Qlt. }
    apply Qpower_lt_compat_l_inv in Hlt; [|reflexivity].
    assert (Hdiv : inject_Z z * 2 ^ j / 2 ^ (L - 52)
                   == inject_Z (z * 2 ^ (j - (L - 52)))).
    { rewrite inject_Z_mult, pow2_Z by lia.
      rewrite (Qpower_minus 2 j (L - 52)) by discriminate.
      field. pose proof (pow2_pos (L - 52)). intros Hc. pow_lra. }
    rewrite (rnd_even_Z _ _ Hdiv).
    rewrite inject_Z_mult, pow2_Z by lia.
    rewrite (Qpower_minus 2 j (L - 52)) by discriminate.
    field. pose proof (pow2_pos (L - 52)). intros Hc. pow_lra.
Qed.

Lemma fl_exact_Z (z : Z) :
  (Z.abs z < 2 ^ 53)%Z -> fl (inject_Z z) == inject_Z z.
Proof.
  intros Hz. transitivity (fl (inject_Z z * 2 ^ 0)).
  - apply fl_comp. change (2 ^ 0) with 1. ring.
  - rewrite (fl_exact z 0 Hz). change (2 ^ 0) with 1. ring.
Qed.

(** [Math.round] of an approximation [y] of [x], where [x + 1/2] is the
    fraction [A / B]: when [y] is within [1 / B] of [x], the result is an
    integer nearest to [x], and it is [A / B] rounded down unless [x] is a
    tie. *)
Lemma floor_near (x y : Q) (A B : Z) :
  (0 < B)%Z ->
  x + (1 # 2) == inject_Z A / inject_Z B ->
  Qabs (y - x) < 1 / inject_Z B ->
  Qabs (inject_Z (Qfloor (y + (1 # 2))) - x) <= 1 # 2
  /\ ((A mod B <> 0)%Z -> Qfloor (y + (1 # 2)) = (A / B)%Z).
Proof.
  intros HB Hx Hy.
  pose proof (Z.div_mod A B ltac:(lia)) as Hdm.
  pose proof (Z.mod_pos_bound A B HB) as Hr.
  set (N := (A / B)%Z) in *. set (r := (A mod B)%Z) in *.
  assert (Hb : 1 <= inject_Z B).
  { change 1 with (inject_Z 1). rewrite <- Zle_Qle. lia. }
  assert (HA : inject_Z A == inject_Z B * inject_Z N + inject_Z r).
  { rewrite <- inject_Z_mult, <- inject_Z_plus. now rewrite <- Hdm. }
  assert (Hr0 : 0 <= inject_Z r).
  { change 0 with (inject_Z 0). rewrite <- Zle_Qle. lia. }
  assert (Hr1 : inject_Z r <= inject_Z B - 1).
  { change 1 with (inject_Z 1). rewrite <- inject_Z_minus, <- Zle_Qle. lia. }
  apply Qabs_diff_Qlt_condition in Hy.
  set (b := inject_Z B) in *. set (n := inject_Z N) in *.
  set (rho := inject_Z r / b).
  assert (Hib : (1 / b) * b == 1) by (field; intros Hc; lra).
  assert (Hrho : rho * b == inject_Z r) by (unfold rho; field; intros Hc; lra).
  assert (Hx' : x + (1 # 2) == n + rho).
  { rewrite Hx, HA. unfold rho. field. intros Hc. lra. }
  assert (Hib0 : 0 < 1 / b).
  { apply Qlt_shift_div_l; lra. }
  assert (Hib1 : 1 / b <= 1).
  { apply Qle_shift_div_r; lra. }
  assert (Hrho0 : 0 <= rho).
  { unfold rho. apply Qle_shift_div_l; lra. }
  assert (Hrho1 : rho <= 1 - 1 / b).
  { assert (H : rho * b <= (1 - 1 / b) * b).
    { assert (E : (1 - 1 / b) * b == b - (1 / b) * b) by ring.
      rewrite Hrho, E, Hib. exact Hr1. }
    apply Qmult_le_r in H; [exact H | lra]. }
  assert (Hrho2 : (r <> 0)%Z -> 1 / b <= rho).
  { intros Hne.
    assert (H1 : 1 <= inject_Z r).
    { change 1 with (inject_Z 1). rewrite <- Zle_Qle. lia. }
    assert (H : (1 / b) * b <= rho * b) by (rewrite Hib, Hrho; exact H1).
    apply Qmult_le_r in H; [exact H | lra]. }
  set (ib := 1 / b) in *. clearbody ib rho.
  assert (Hcase : (r <> 0)%Z -> Qfloor (y + (1 # 2)) = N).
  { intros Hne. specialize (Hrho2 Hne).
    apply Qfloor_unique; fold n.
    - lra.
    - rewrite inject_Z_plus. fold n. change (inject_Z 1) with 1. lra. }
  split; [|exact Hcase].
  destruct (Z.eq_dec r 0%Z) as [Hz|Hnz].
  - assert (Hrho3 : rho == 0).
    { rewrite Hz in Hrho. change (inject_Z 0) with 0 in Hrho.
      apply Qmult_integral in Hrho as [H|H]; [exact H | lra]. }
    destruct (Qlt_le_dec (y + (1 # 2)) n) as [Hlt|Hge].
    + assert (Hf : Qfloor (y + (1 # 2)) = (N - 1)%Z).
      { apply Qfloor_unique.
        - rewrite inject_Z_minus. fold n. change (inject_Z 1) with 1. lra.
        - replace (N - 1 + 1)%Z with N by lia. exact Hlt. }
      rewrite Hf, inject_Z_minus. fold n. change (inject_Z 1) with 1.
      apply Qabs_Qle_condition. lra.
    + assert (Hf : Qfloor (y + (1 # 2)) = N).
      { apply Qfloor_unique; [exact Hge|].
        rewrite inject_Z_plus. fold n. change (inject_Z 1) with 1. lra. }
      rewrite Hf. fold n. apply Qabs_Qle_condition. lra.
  - rewrite (Hcase Hnz). fold n. specialize (Hrho2 Hnz).
    apply Qabs_Qle_condition. lra.
Qed.

(** [Math.round (d / 3600000)] is the quotient rounded to the nearest
    integer, halves up. *)
Lemma span_round (d : Z) :
  (0 <= d < 2 ^ 52)%Z ->
  Qfloor (fdiv (inject_Z d) 3600000 + (1 # 2))
  = ((2 * d + 3600000) / 7200000)%Z.
Proof.
  intros Hd. unfold fdiv.
  set (x := inject_Z d / 3600000).
  assert (Hd0 : 0 <= inject_Z d).
  { change 0 with (inject_Z 0). rewrite <- Zle_Qle. lia. }
  assert (Hd1 : inject_Z d < 4503599627370496).
  { change 4503599627370496 with (inject_Z (2 ^ 52)). rewrite <- Zlt_Qlt. lia. }
  assert (Hx : x + (1 # 2) == inject_Z (2 * d + 3600000) / inject_Z 7200000).
  { unfold x. rewrite inject_Z_plus, inject_Z_mult. field. }
  assert (Hy : Qabs (fl x - x) < 1 / inject_Z 7200000).
  { eapply Qle_lt_trans; [apply fl_error|].
    assert (Hxm : x * 3600000 == inject_Z d) by (unfold x; field).
    assert (Ha : Qabs x == x) by (apply Qabs_pos; lra).
    rewrite Ha.
    change (1 / inject_Z 7200000) with (1 # 7200000). lra. }
  destruct (floor_near x (fl x) (2 * d + 3600000) 7200000 ltac:(lia) Hx Hy)
    as [_ Hne].
  destruct (Z.eq_dec ((2 * d + 3600000) mod 7200000) 0%Z) as [Hz|Hnz];
    [|exact (Hne Hnz)].
  pose proof (Z.div_mod (2 * d + 3600000) 7200000 ltac:(lia)) as Hdm.
  rewrite Hz, Z.add_0_r in Hdm.
  set (N := ((2 * d + 3600000) / 7200000)%Z) in *.
  assert (Hd2 : d = (1800000 * (2 * N - 1))%Z) by lia.
  assert (Hxe : x == inject_Z (2 * N - 1) * 2 ^ (-1)).
  { unfold x. rewrite Hd2, inject_Z_mult. change (2 ^ (-1)) with (/ 2).
    change (inject_Z 1800000) with 1800000. field. }
  assert (Hfl : fl x == x).
  { transitivity (fl (inject_Z (2 * N - 1) * 2 ^ (-1)));
      [apply fl_comp; exact Hxe|].
    transitivity (inject_Z (2 * N - 1) * 2 ^ (-1));
      [apply fl_exact; lia | symmetry; exact Hxe]. }
  assert (E : fl x + (1 # 2) == inject_Z N).
  { rewrite Hfl, Hx. replace (2 * d + 3600000)%Z with (7200000 * N)%Z by lia.
    rewrite inject_Z_mult. field. }
  rewrite E. apply Qfloor_Z.
Qed.

Lemma fl_bounds (x : Q) :
  0 <= x ->
  x - (1 # 9007199254740992) * x <= fl x
  /\ fl x <= x + (1 # 9007199254740992) * x.
Proof.
  intros Hx. pose proof (fl_error x) as H.
  assert (Ha : Qabs x == x) by (apply Qabs_pos; exact Hx).
  rewrite Ha in H. apply Qabs_diff_Qle_condition in H. lra.
Qed.

(** The hourly rate: [Math.round ((t / s) * 100)] is an integer nearest to
    [100 t / s]. *)
Lemma per_hour_near (t s : Z) :
  (0 < t < 2 ^ 31)%Z -> (0 < s)%Z ->
  Qabs (inject_Z (Qfloor (fmul (fdiv (inject_Z t) (inject_Z s)) 100
                          + (1 # 2))) / 100
        - inject_Z t / inject_Z s) <= 1 # 200.
Proof.
  intros Ht Hs. unfold fmul, fdiv.
  assert (Ht0 : 1 <= inject_Z t).
  { change 1 with (inject_Z 1). rewrite <- Zle_Qle. lia. }
  assert (Ht1 : inject_Z t < 2147483648).
  { change 2147483648 with (inject_Z (2 ^ 31)). rewrite <- Zlt_Qlt. lia. }
  assert (Hs0 : 1 <= inject_Z s).
  { change 1 with (inject_Z 1). rewrite <- Zle_Qle. lia. }
  set (T := inject_Z t / inject_Z s).
  assert (HT : T * inject_Z s == inject_Z t) by (unfold T; field; intros Hc; lra).
  assert (HT0 : 0 < T) by (unfold T; apply Qlt_shift_div_l; lra).
  destruct (fl_bounds T ltac:(lra)) as [Ha1 Ha2].
  set (a := fl T) in *.
  destruct (fl_bounds (a * 100) ltac:(lra)) as [Hy1 Hy2].
  set (y := fl (a * 100)) in *.
  set (ib := 1 / inject_Z (2 * s)).
  assert (Hib : ib * (2 * inject_Z s) == 1).
  { unfold ib. rewrite inject_Z_mult. change (inject_Z 2) with 2.
    field. intros Hc. lra. }
  assert (Hx : 100 * T + (1 # 2)
               == inject_Z (200 * t + s) / inject_Z (2 * s)).
  { unfold T. rewrite inject_Z_plus, !inject_Z_mult.
    change (inject_Z 200) with 200. change (inject_Z 2) with 2.
    field. intros Hc. lra. }
  assert (Hsmall : 100 * T * (1 # 2251799813685248) < ib).
  { apply (Qmult_lt_r _ _ (2 * inject_Z s)); [lra|].
    rewrite Hib.
    assert (E : 100 * T * (1 # 2251799813685248) * (2 * inject_Z s)
                == 200 * (1 # 2251799813685248) * (T * inject_Z s)) by ring.
    rewrite E, HT. lra. }
  pose proof (floor_near (100 * T) y (200 * t + s) (2 * s) ltac:(lia) Hx)
    as Hfn.
  fold ib in Hfn. clearbody T a y ib.
  assert (Hy : Qabs (y - 100 * T) < ib)
    by (apply Qabs_diff_Qlt_condition; lra).
  destruct (Hfn Hy) as [Hk _].
  apply Qabs_Qle_condition in Hk. apply Qabs_Qle_condition.
  set (k := inject_Z (Qfloor (y + (1 # 2)))) in *. clearbody k.
  assert (E : k / 100 == k * (1 # 100)) by field.
  rewrite E. lra.
Qed.

(** The daily rate: the same with [24 t / s] for [t / s]; the divisor
    [s / 24] is itself rounded. *)
Lemma per_day_near (t s : Z) :
  (0 < t < 2 ^ 31)%Z -> (0 < s)%Z ->
  Qabs (inject_Z (Qfloor (fmul (fdiv (inject_Z t) (fdiv (inject_Z s) 24)) 100
                          + (1 # 2))) / 100
        - inject_Z t / (inject_Z s / 24)) <= 1 # 200.
Proof.
  intros Ht Hs. unfold fmul, fdiv.
  assert (Ht0 : 1 <= inject_Z t).
  { change 1 with (inject_Z 1). rewrite <- Zle_Qle. lia. }
  assert (Ht1 : inject_Z t < 2147483648).
  { change 2147483648 with (inject_Z (2 ^ 31)). rewrite <- Zlt_Qlt. lia. }
  assert (Hs0 : 1 <= inject_Z s).
  { change 1 with (inject_Z 1). rewrite <- Zle_Qle. lia. }
  set (T := inject_Z t / inject_Z s).
  assert (HT : T * inject_Z s == inject_Z t) by (unfold T; field; intros Hc; lra).
  assert (HT0 : 0 < T) by (unfold T; apply Qlt_shift_div_l; lra).
  assert (Htarget : inject_Z t / (inject_Z s / 24) == 24 * T).
  { unfold T. field. intros Hc. lra. }
  rewrite Htarget.
  set (D := inject_Z s / 24).
  assert (HD : D * 24 == inject_Z s) by (unfold D; field).
  destruct (fl_bounds D ltac:(lra)) as [Hz1 Hz2].
  set (z := fl D) in *.
  assert (Hz0 : 0 < z) by lra.
  set (V := inject_Z t / z).
  assert (HV : V * z == inject_Z t) by (unfold V; field; intros Hc; lra).
  assert (HV0 : 0 < V) by (unfold V; apply Qlt_shift_div_l; lra).
  assert (HV1 : V * (1 - (1 # 9007199254740992)) <= 24 * T).
  { apply (Qmult_le_r _ _ (inject_Z s)); [lra|].
    assert (E1 : 24 * T * inject_Z s == 24 * (V * z)) by (rewrite HV, <- HT; ring).
    assert (E2 : V * (1 - (1 # 9007199254740992)) * inject_Z s
                 == 24 * (V * (D - (1 # 9007199254740992) * D)))
      by (rewrite <- HD; ring).
    rewrite E1, E2.
    assert (V * (D - (1 # 9007199254740992) * D) <= V * z)
      by (apply Qmult_le_l; lra).
    lra. }
  assert (HV2 : 24 * T <= V * (1 + (1 # 9007199254740992))).
  { apply (Qmult_le_r _ _ (inject_Z s)); [lra|].
    assert (E1 : 24 * T * inject_Z s == 24 * (V * z)) by (rewrite HV, <- HT; ring).
    assert (E2 : V * (1 + (1 # 9007199254740992)) * inject_Z s
                 == 24 * (V * (D + (1 # 9007199254740992) * D)))
      by (rewrite <- HD; ring).
    rewrite E1, E2.
    assert (V * z <= V * (D + (1 # 9007199254740992) * D))
      by (apply Qmult_le_l; lra).
    lra. }
  destruct (fl_bounds V ltac:(lra)) as [Ha1 Ha2].
  set (a := fl V) in *.
  destruct (fl_bounds (a * 100) ltac:(lra)) as [Hy1 Hy2].
  set (y := fl (a * 100)) in *.
  set (ib := 1 / inject_Z (2 * s)).
  assert (Hib : ib * (2 * inject_Z s) == 1).
  { unfold ib. rewrite inject_Z_mult. change (inject_Z 2) with 2.
    field. intros Hc. lra. }
  assert (Hx : 100 * (24 * T) + (1 # 2)
               == inject_Z (4800 * t + s) / inject_Z (2 * s)).
  { unfold T. rewrite inject_Z_plus, !inject_Z_mult.
    change (inject_Z 4800) with 4800. change (inject_Z 2) with 2.
    field. intros Hc. lra. }
  assert (Hsmall : 100 * (24 * T) * (1 # 2251799813685248) < ib).
  { apply (Qmult_lt_r _ _ (2 * inject_Z s)); [lra|].
    rewrite Hib.
    assert (E : 100 * (24 * T) * (1 # 2251799813685248) * (2 * inject_Z s)
                == 4800 * (1 # 2251799813685248) * (T * inject_Z s)) by ring.
    rewrite E, HT. lra. }
  pose proof (floor_near (100 * (24 * T)) y (4800 * t + s) (2 * s)
                ltac:(lia) Hx) as Hfn.
  fold ib in Hfn. clearbody T D z V a y ib.
  assert (Hy : Qabs (y - 100 * (24 * T)) < ib)
    by (apply Qabs_diff_Qlt_condition; lra).
  destruct (Hfn Hy) as [Hk _].
  apply Qabs_Qle_condition in Hk. apply Qabs_Qle_condition.
  set (k := inject_Z (Qfloor (y + (1 # 2)))) in *. clearbody k.
  assert (E : k / 100 == k * (1 # 100)) by field.
  rewrite E. lra.
Qed.

End Binary64Facts.

(** ** The two conversions agree *)

Section NumberBinary64.
Local Open Scope Q_scope.

Lemma Qfloor_opp_frac (y : Q) :
  ~ y == inject_Z (Qfloor y) -> Qfloor (- y) = (- Qfloor y - 1)%Z.
Proof.
  intros Hne. pose proof (Qfloor_le y) as H1. pose proof (Qlt_floor y) as H2.
  rewrite inject_Z_plus in H2. change (inject_Z 1) with 1 in H2.
  apply Qfloor_unique.
  - rewrite inject_Z_minus, inject_Z_opp. change (inject_Z 1) with 1. lra.
  - replace (- Qfloor y - 1 + 1)%Z with (- Qfloor y)%Z by lia.
    rewrite inject_Z_opp.
    destruct (Qlt_le_dec (inject_Z (Qfloor y)) y) as [Hlt|Hle]; [lra|].
    exfalso. apply Hne. lra.
Qed.

Lemma rnd_even_opp (y : Q) : rnd_even (- y) = (- rnd_even y)%Z.
Proof.
  destruct (Qeq_dec y (inject_Z (Qfloor y))) as [Hint|Hfrac].
  - rewrite (rnd_even_Z y (Qfloor y) Hint).
    apply rnd_even_Z. rewrite inject_Z_opp. now rewrite <- Hint.
  - unfold rnd_even. rewrite (Qfloor_opp_frac y Hfrac).
    pose proof (Qfloor_le y) as H1. pose proof (Qlt_floor y) as H2.
    rewrite inject_Z_plus in H2. change (inject_Z 1) with 1 in H2.
    set (f := Qfloor y) in *.
    rewrite inject_Z_minus, inject_Z_opp. change (inject_Z 1) with 1.
    destruct (Qcompare (y - inject_Z f) (1 # 2)) eqn:E.
    + apply Qeq_alt in E.
      assert (E' : Qcompare (- y - (- inject_Z f - 1)) (1 # 2) = Eq)
        by (rewrite <- Qeq_alt; lra).
      rewrite E'. replace (- f - 1)%Z with (- (f + 1))%Z by lia.
      rewrite Z.even_opp, Z.even_add. change (Z.even 1) with false.
      destruct (Z.even f); cbn; lia.
    + apply Qlt_alt in E.
      assert (E' : Qcompare (- y - (- inject_Z f - 1)) (1 # 2) = Gt)
        by (rewrite <- Qgt_alt; lra).
      rewrite E'. lia.
    + apply Qgt_alt in E.
      assert (E' : Qcompare (- y - (- inject_Z f - 1)) (1 # 2) = Lt)
        by (rewrite <- Qlt_alt; lra).
      rewrite E'. lia.
Qed.

Lemma fl_opp (x : Q) : fl (- x) == - fl x.
Proof.
  destruct (Qeq_dec x 0) as [Hx|Hx].
  - rewrite (fl_0 x Hx), (fl_0 (- x)); [reflexivity | lra].
  - assert (Hx' : ~ - x == 0) by (intros Hc; apply Hx; lra).
    rewrite !fl_unfold by assumption.
    assert (He : ilog2 (Qabs (- x)) = ilog2 (Qabs x)).
    { apply ilog2_comp; [now apply Qabs_pos_lt | apply Qabs_opp]. }
    rewrite He. set (e := (ilog2 (Qabs x) - 52)%Z).
    assert (Hr : rnd_even (- x / 2 ^ e) = (- rnd_even (x / 2 ^ e))%Z).
    { rewrite <- rnd_even_opp. apply rnd_even_comp.
      field. pose proof (pow2_pos e). intros Hc.
      set (p := 2 ^ e) in *. clearbody p. lra. }
    rewrite Hr, inject_Z_opp. ring.
Qed.

Lemma Number_opp (n : Z) : Number (- n) = (- Number n)%Z.
Proof.
  unfold Number. rewrite Z.abs_opp, Z.sgn_opp.
  destruct (Z.log2 (Z.abs n) - 52 <=? 0)%Z; [reflexivity | lia].
Qed.

Lemma Number_fl_pos (a : Z) :
  (0 < a)%Z -> inject_Z (Number a) == fl (inject_Z a).
Proof.
  intros Ha. destruct (Z.log2_spec a Ha) as [HL1 HL2].
  pose proof (Z.log2_nonneg a) as HL0.
  set (L := Z.log2 a) in *.
  assert (Hil : ilog2 (Qabs (inject_Z a)) = L).
  { change (Qabs (inject_Z a)) with (inject_Z (Z.abs a)).
    rewrite Z.abs_eq by lia.
    apply ilog2_unique; rewrite <- pow2_Z by lia.
    - now rewrite <- Zle_Qle.
    - rewrite <- Zlt_Qlt. now replace (L + 1)%Z with (Z.succ L) by lia. }
  unfold Number. rewrite Z.abs_eq by lia. fold L.
  destruct (Z.leb_spec (L - 52) 0) as [Hle|Hgt].
  - symmetry. apply fl_exact_Z. rewrite Z.abs_eq by lia.
    eapply Z.lt_le_trans; [exact HL2|]. apply Z.pow_le_mono_r; lia.
  - assert (Hx : ~ inject_Z a == 0).
    { intros Hc. apply (inject_Z_injective a 0) in Hc. lia. }
    rewrite fl_unfold by exact Hx. rewrite Hil.
    set (e := (L - 52)%Z) in *.
    assert (HP : (0 < 2 ^ e)%Z) by (apply Z.pow_pos_nonneg; lia).
    assert (Hhalf : (2 ^ e = 2 * 2 ^ (e - 1))%Z).
    { replace e with (e - 1 + 1)%Z at 1 by lia.
      rewrite Z.pow_add_r by lia. lia. }
    pose proof (Z.div_mod a (2 ^ e) ltac:(lia)) as Hdm.
    pose proof (Z.mod_pos_bound a (2 ^ e) HP) as Hr.
    set (P := (2 ^ e)%Z) in *. set (half := (2 ^ (e - 1))%Z) in *.
    set (q := (a / P)%Z) in *. set (r := (a mod P)%Z) in *.
    assert (Hy : inject_Z a / 2 ^ e == inject_Z a / inject_Z P).
    { unfold P. now rewrite pow2_Z by lia. }
    assert (Hfloor : Qfloor (inject_Z a / inject_Z P) = q)
      by (symmetry; apply Zdiv_Qdiv).
    assert (HPq : 0 < inject_Z P).
    { change 0 with (inject_Z 0). now rewrite <- Zlt_Qlt. }
    assert (Hfrac : (inject_Z a / inject_Z P - inject_Z q) * inject_Z P
                    == inject_Z r).
    { rewrite Hdm at 1. rewrite inject_Z_plus, inject_Z_mult.
      field. intros Hc. lra. }
    assert (HPh : inject_Z P == 2 * inject_Z half).
    { rewrite Hhalf, inject_Z_mult. reflexivity. }
    assert (Hm : rnd_even (inject_Z a / 2 ^ e)
                 = (if (r <? half)%Z then q
                    else if (half <? r)%Z then (q + 1)%Z
                    else if Z.even q then q else (q + 1)%Z)).
    { rewrite (rnd_even_comp _ _ Hy). unfold rnd_even. rewrite Hfloor.
      set (d := inject_Z a / inject_Z P - inject_Z q) in *.
      destruct (Z.ltb_spec r half) as [Hlt|Hge].
      - assert (E : Qcompare d (1 # 2) = Lt).
        { rewrite <- Qlt_alt. rewrite Zlt_Qlt in Hlt.
          apply (Qmult_lt_r _ _ (inject_Z P)); [exact HPq|].
          rewrite Hfrac. clearbody d. lra. }
        now rewrite E.
      - destruct (Z.ltb_spec half r) as [Hlt|Hle'].
        + assert (E : Qcompare d (1 # 2) = Gt).
          { rewrite <- Qgt_alt. rewrite Zlt_Qlt in Hlt.
            apply (Qmult_lt_r _ _ (inject_Z P)); [exact HPq|].
            rewrite Hfrac. clearbody d. lra. }
          now rewrite E.
        + assert (Heq : r = half) by lia.
          assert (E : Qcompare d (1 # 2) = Eq).
          { rewrite <- Qeq_alt.
            apply (Qmult_inj_r _ _ (inject_Z P)); [intros Hc; lra|].
            rewrite Hfrac, Heq. clearbody d. lra. }
          now rewrite E. }
    rewrite Hm. rewrite Z.sgn_pos by lia. rewrite Z.mul_1_l.
    rewrite inject_Z_mult. fold P. unfold P at 1. now rewrite pow2_Z by lia.
Qed.

(** [Number] at a bigint is the rounding of the rate computation at an
    integer: the two models of binary64 agree. *)
Lemma Number_fl (n : Z) : inject_Z (Number n) == fl (inject_Z n).
Proof.
  destruct (Z.lt_trichotomy n 0) as [Hneg|[->|Hpos]].
  - replace n with (- - n)%Z at 1 by lia.
    rewrite Number_opp, inject_Z_opp, (Number_fl_pos (- n)) by lia.
    rewrite <- fl_opp. apply fl_comp. rewrite inject_Z_opp. ring.
  - reflexivity.
  - now apply Number_fl_pos.
Qed.

End NumberBinary64.

(** ** Data range and ingestion rates *)

Lemma findFirst_asc_None (where_ : Sth.t → bool) (db : Store) :
  prisma.findFirst where_ (Some asc) db = None
  ↔ ∀ r, r ∈ rows db → where_ r = false.
Proof.
  rewrite <- findFirst_None_iff. unfold prisma.findFirst.
  now rewrite first_best_None, head_None.
Qed.

Lemma findFirst_asc_Some (where_ : Sth.t → bool) (db : Store) (sth : Sth.t) :
  prisma.findFirst where_ (Some asc) db = Some sth →
  sth ∈ rows db ∧ where_ sth = true
  ∧ ∀ r, r ∈ rows db → where_ r = true → Sth.storedAt sth ≤ Sth.storedAt r.
Proof.
  unfold prisma.findFirst. intros H. apply first_best_asc in H as [Hin Hmin].
  apply list_elem_of_filter in Hin as [Hw Hin].
  split; [exact Hin|]. split; [exact Hw|].
  intros r Hr Hwr. apply Hmin. now apply list_elem_of_filter.
Qed.

Lemma totalSths_length (db : Store) : totalSths db = length (rows db).
Proof.
  unfold totalSths, prisma.count. f_equal.
  induction (rows db) as [|r l IH]; [reflexivity|].
  rewrite filter_cons_True by reflexivity. now rewrite IH.
Qed.

Section RateProofs.
Local Open Scope Q_scope.

Lemma gt0_inject_Z (z : Z) : gt0 (inject_Z z) = true ↔ (0 < z)%Z.
Proof.
  unfold gt0. rewrite negb_true_iff, <- not_true_iff_false, Qle_bool_iff.
  change 0 with (inject_Z 0). rewrite <- Zle_Qle. lia.
Qed.

(** [span_hours] over a non-empty table: the whole hours nearest to the
    time from the oldest to the newest [stored_at], halves up. *)
Lemma span_hours_nearest (db : Store) (oldest newest : Sth.t) :
  (∀ r, r ∈ rows db → (0 ≤ Sth.storedAt r < 2 ^ 52)%Z) →
  oldest ∈ rows db → newest ∈ rows db →
  (∀ r, r ∈ rows db →
        (Sth.storedAt oldest ≤ Sth.storedAt r ≤ Sth.storedAt newest)%Z) →
  DataRange.span_hours (dataRange db)
  = inject_Z ((2 * (Sth.storedAt newest - Sth.storedAt oldest) + 3600000)
              / 7200000).
Proof.
  intros Hrange Ho Hn Hext. unfold dataRange. cbn [DataRange.span_hours].
  destruct (prisma.findFirst (λ _, true) (Some asc) db) as [o|] eqn:Fo.
  2:{ rewrite findFirst_asc_None in Fo. specialize (Fo oldest Ho).
      discriminate. }
  destruct (prisma.findFirst (λ _, true) (Some desc) db) as [n|] eqn:Fn.
  2:{ rewrite findFirst_desc_None in Fn. specialize (Fn oldest Ho).
      discriminate. }
  apply findFirst_asc_Some in Fo as (Hino & _ & Hmin).
  apply findFirst_desc_Some in Fn as (Hinn & _ & Hmax).
  assert (Eo : Sth.storedAt o = Sth.storedAt oldest).
  { specialize (Hmin oldest Ho eq_refl). specialize (Hext o Hino). lia. }
  assert (En : Sth.storedAt n = Sth.storedAt newest).
  { specialize (Hmax newest Hn eq_refl). specialize (Hext n Hinn). lia. }
  rewrite Eo, En.
  pose proof (Hrange oldest Ho) as Ro. pose proof (Hrange newest Hn) as Rn.
  pose proof (Hext oldest Ho) as Hle.
  set (d := (Sth.storedAt newest - Sth.storedAt oldest)%Z).
  assert (Hd : (0 ≤ d < 2 ^ 52)%Z) by (unfold d; lia).
  unfold Math_round. f_equal. rewrite <- (span_round d Hd).
  apply Qfloor_comp. apply Qplus_comp; [|reflexivity].
  unfold fdiv, fsub. apply fl_comp. apply Qdiv_comp; [|reflexivity].
  transitivity (fl (inject_Z d)).
  - apply fl_comp. unfold d. now rewrite inject_Z_minus.
  - apply fl_exact_Z. lia.
Qed.

End RateProofs.

Section DataRangeRates.
Local Open Scope Q_scope.

(** C7 fails on a span that is not a whole number of hours: two rows
    stored twenty minutes apart are a third of an hour apart, and a rate of
    6 rows per hour; [span_hours] is 0 and so are both rates. *)
Lemma short_span_reported_zero :
  DataRange.oldest_stored_at (dataRange twenty_minutes) = Some 0%Z
  ∧ DataRange.newest_stored_at (dataRange twenty_minutes) = Some 1200000%Z
  ∧ DataRange.span_hours (dataRange twenty_minutes) == 0
  ∧ ¬ DataRange.span_hours (dataRange twenty_minutes)
      == inject_Z (1200000 - 0) / 3600000
  ∧ totalSths twenty_minutes = 2%nat
  ∧ IngestionRates.per_hour (ingestionRates twenty_minutes) == 0
  ∧ ¬ Qabs (IngestionRates.per_hour (ingestionRates twenty_minutes)
            - 2 / (inject_Z (1200000 - 0) / 3600000)) <= 1 # 200.
Proof.
  split; [reflexivity|]. split; [reflexivity|]. split; [reflexivity|].
  split; [vm_compute; discriminate|]. split; [reflexivity|].
  split; [reflexivity|].
  vm_compute. intros H. apply H. reflexivity.
Qed.

(** The tie 201/200 = 1.005 goes down: the quotient is rounded to binary64
    before it is scaled. *)
Example rate_201_200 :
  fdiv (Math_round (fmul (fdiv 201 200) 100)) 100 == 1.
Proof. vm_compute. reflexivity. Qed.

(** C7, amended.  On a table of fewer than 2^31 rows stored at instants
    within [[0, 2^52)]: with no rows, [span_hours], [per_hour] and
    [per_day] are 0; otherwise [span_hours] is the time from the oldest to
    the newest [stored_at] in hours rounded to the nearest whole number
    (halves up); when that number is 0 both rates are 0; and when it is
    positive, [per_hour] (resp. [per_day]) is the binary64 value of a
    number of hundredths within half a hundredth of the row count divided
    by [span_hours] (resp. by [span_hours / 24]). *)
Theorem data_range_rates (db : Store) :
  (∀ r, r ∈ rows db → (0 ≤ Sth.storedAt r < 2 ^ 52)%Z) →
  (Z.of_nat (length (rows db)) < 2 ^ 31)%Z →
  let span_hours := DataRange.span_hours (dataRange db) in
  let per_hour := IngestionRates.per_hour (ingestionRates db) in
  let per_day := IngestionRates.per_day (ingestionRates db) in
  let total := inject_Z (Z.of_nat (length (rows db))) in
  (rows db = [] → span_hours == 0 ∧ per_hour == 0 ∧ per_day == 0)
  ∧ (∀ oldest newest,
       oldest ∈ rows db → newest ∈ rows db →
       (∀ r, r ∈ rows db →
             (Sth.storedAt oldest ≤ Sth.storedAt r ≤ Sth.storedAt newest)%Z) →
       ∃ span : Z,
         span_hours = inject_Z span
         ∧ (3600000 * span - 1800000
            ≤ Sth.storedAt newest - Sth.storedAt oldest
            < 3600000 * span + 1800000)%Z
         ∧ (span = 0%Z → per_hour == 0 ∧ per_day == 0)
         ∧ ((0 < span)%Z →
            ∃ k k' : Z,
              per_hour = fl (inject_Z k / 100)
              ∧ Qabs (inject_Z k / 100 - total / inject_Z span) <= 1 # 200
              ∧ per_day = fl (inject_Z k' / 100)
              ∧ Qabs (inject_Z k' / 100 - total / (inject_Z span / 24))
                <= 1 # 200)).
Proof.
  intros Hrange Hcount span_hours per_hour per_day total. split.
  - intros Hnil.
    assert (Hspan : span_hours = 0).
    { unfold span_hours, dataRange, prisma.findFirst. now rewrite Hnil. }
    assert (Htot : totalSths db = 0%nat) by now rewrite totalSths_length, Hnil.
    unfold per_hour, per_day, ingestionRates.
    cbn [IngestionRates.per_hour IngestionRates.per_day].
    rewrite Htot, Hspan. repeat split; reflexivity.
  - intros oldest newest Ho Hn Hext.
    set (d := (Sth.storedAt newest - Sth.storedAt oldest)%Z).
    exists ((2 * d + 3600000) / 7200000)%Z.
    pose proof (span_hours_nearest db oldest newest Hrange Ho Hn Hext) as Hspan.
    fold d in Hspan. fold span_hours in Hspan.
    set (span := ((2 * d + 3600000) / 7200000)%Z) in *.
    pose proof (Z.div_mod (2 * d + 3600000) 7200000 ltac:(lia)) as Hdm.
    pose proof (Z.mod_pos_bound (2 * d + 3600000) 7200000 ltac:(lia)) as Hmod.
    fold span in Hdm.
    split; [exact Hspan|]. split; [lia|].
    assert (Hlen : (0 < Z.of_nat (length (rows db)))%Z).
    { destruct (rows db); [inversion Ho | cbn; lia]. }
    unfold per_hour, per_day, ingestionRates.
    cbn [IngestionRates.per_hour IngestionRates.per_day].
    fold span_hours. rewrite Hspan, totalSths_length. split.
    + intros ->. change (gt0 (inject_Z 0)) with false.
      rewrite andb_false_r. split; reflexivity.
    + intros Hpos.
      rewrite (proj2 (gt0_inject_Z _) Hlen), (proj2 (gt0_inject_Z _) Hpos).
      cbn [andb].
      eexists. eexists.
      split; [reflexivity|]. split; [apply per_hour_near; lia|].
      split; [reflexivity|]. apply per_day_near; lia.
Qed.

Lemma data_range_rates_witness :
  (∃ span : Z,
     DataRange.span_hours (dataRange half_hourly) = inject_Z span
     ∧ (3600000 * span - 1800000 ≤ 84600000 - 0 < 3600000 * span + 1800000)%Z)
  ∧ DataRange.span_hours (dataRange empty_store) == 0.
Proof.
  split.
  - destruct (data_range_rates half_hourly) as [_ H].
    + intros r Hr. vm_compute in Hr.
      repeat (apply elem_of_cons in Hr as [->|Hr]; [cbn; lia|]).
      inversion Hr.
    + vm_compute. reflexivity.
    + destruct (H {| Sth.id := 1; Sth.logId := "L==="; Sth.treeSize := 0;
                     Sth.rootHash := "h"; Sth.timestamp := 1000;
                     Sth.monitorId := "A"; Sth.storedAt := 0 |}
                  {| Sth.id := 48; Sth.logId := "L==="; Sth.treeSize := 47;
                     Sth.rootHash := "h"; Sth.timestamp := 1000;
                     Sth.monitorId := "A"; Sth.storedAt := 84600000 |})
        as (span & H1 & H2 & _).
      * vm_compute. left.
      * vm_compute. do 47 right. left.
      * intros r Hr. vm_compute in Hr.
        repeat (apply elem_of_cons in Hr as [->|Hr]; [cbn; lia|]).
        inversion Hr.
      * exists span. split; [exact H1 | exact H2].
  - apply (data_range_rates empty_store).
    + intros r Hr. inversion Hr.
    + reflexivity.
    + reflexivity.
Defined.

End DataRangeRates.

(** * Further properties of the routes *)

(** ** The API-key gate *)

Lemma submit_status (now : Z) (body : Body.t) (db : Store) :
  status (submit now body db).1 = 400
  ∨ status (submit now body db).1 = 500 ∧ (submit now body db).2 = db
  ∨ status (submit now body db).1 = 200
  ∨ status (submit now body db).1 = 201.
Proof.
  destruct (submit_cases body db)
    as [[_ H]|[[_ H]|[(_ & l & t & h & e & _ & _ & _ & _ & _ & H)
                     |(_ & l & t & h & ts & m & _ & _ & _ & _ & _ & _ & _
                       & _ & H)]]];
    rewrite (H now); cbn; auto.
Qed.

Lemma bearer_mismatch (authorization : field string) (key : string) :
  falsy authorization
  || negb (bool_decide (get "" authorization = "Bearer " +:+ key)) = true
  ↔ authorization ≠ val ("Bearer " +:+ key).
Proof.
  destruct authorization as [| |s]; cbn [falsy get orb].
  - split; [discriminate | reflexivity].
  - split; [discriminate | reflexivity].
  - destruct (decide (s = "")) as [->|Hs]; cbn [orb].
    + split; [discriminate | reflexivity].
    + rewrite negb_true_iff, bool_decide_eq_false. split; congruence.
Qed.

Lemma bearer_match (authorization : field string) (key : string) :
  falsy authorization
  || negb (bool_decide (get "" authorization = "Bearer " +:+ key)) = false
  → authorization = val ("Bearer " +:+ key).
Proof.
  destruct authorization as [| |s]; cbn [falsy get orb]; try discriminate.
  destruct (decide (s = "")) as [->|Hs]; cbn [orb]; [discriminate|].
  rewrite negb_false_iff, bool_decide_eq_true. congruence.
Qed.

(** X1.  Without a configured API key (absent or empty) the handler
    answers 500, whatever the request; with a key, it answers 401 exactly
    when the Authorization header is not ["Bearer "] followed by the key;
    in both cases the store is left as it was; an authorized request is
    the submission itself; so the answer is 500 exactly when no key is
    configured or the authorized submission throws, and the store is left
    as it was then too. *)
Theorem router_post_spec (apiKey authorization : field string) (now : Z)
    (body : Body.t) (db : Store) :
  let res := router_post apiKey authorization now body db in
  (blank apiKey →
   res = ({| status := 500; json := Error "MONITOR_API_KEY not configured" |},
          db))
  ∧ (status res.1 = 401
     ↔ ¬ blank apiKey
       ∧ authorization ≠ val ("Bearer " +:+ get "" apiKey))
  ∧ (status res.1 = 500
     ↔ blank apiKey
       ∨ authorization = val ("Bearer " +:+ get "" apiKey)
         ∧ status (submit now body db).1 = 500)
  ∧ (status res.1 = 500 ∨ status res.1 = 401 → res.2 = db)
  ∧ (¬ blank apiKey →
     authorization = val ("Bearer " +:+ get "" apiKey) →
     res = submit now body db).
Proof.
  intros res. subst res. unfold router_post.
  rewrite <- falsy_blank.
  pose proof (submit_status now body db) as Hst.
  pose proof (bearer_mismatch authorization (get "" apiKey)) as Hb.
  destruct (falsy apiKey) eqn:Ek; cbn [fst snd status].
  - split; [reflexivity|]. split; [|split; [|split]].
    + split; [discriminate|]. intros [H _]. now destruct H.
    + split; [now left | reflexivity].
    + reflexivity.
    + intros H. now destruct H.
  - split; [discriminate|].
    destruct (falsy authorization || _) eqn:Ea; cbn [fst snd status].
    + assert (Hne : authorization ≠ val ("Bearer " +:+ get "" apiKey))
        by now apply Hb.
      split; [|split; [|split]].
      * split; [|reflexivity]. intros _. split; [discriminate | exact Hne].
      * split; [discriminate|]. intros [H|[H _]];
          [discriminate H | contradiction].
      * reflexivity.
      * intros _ Heq. contradiction.
    + assert (Hauth : authorization = val ("Bearer " +:+ get "" apiKey))
        by now apply bearer_match.
      split; [|split; [|split]].
      * split; [intros H; lia|]. intros [_ H]. contradiction.
      * split; [intros H; right; now split|].
        intros [H|[_ H]]; [discriminate H | exact H].
      * intros [H|H]; [|lia].
        destruct Hst as [Hs|[[_ Hs]|[Hs|Hs]]]; [lia | exact Hs | lia | lia].
      * reflexivity.
Qed.

Lemma router_post_spec_witness :
  (router_post (val "k") (val "Bearer x") 5
     (body_of "AAA" 10 "h1" 1000 "m1") empty_store).2 = empty_store
  ∧ router_post (val "k") (val "Bearer k") 5
      (body_of "AAA" 10 "h1" 1000 "m1") empty_store
    = submit 5 (body_of "AAA" 10 "h1" 1000 "m1") empty_store.
Proof.
  split.
  - apply (router_post_spec (val "k") (val "Bearer x")). right. reflexivity.
  - apply (router_post_spec (val "k") (val "Bearer k")); [|reflexivity].
    intros [[H|H]|H]; discriminate H.
Defined.

(** An authorized request answered 500: a size that is not an integer,
    a size that is not a number, a size beyond the column. *)
Example authorized_request_throws :
  let post tree_size :=
    router_post (val "k") (val "Bearer k") 5
      {| Body.log_id := Js.str "AAA="; Body.tree_size := tree_size;
         Body.root_hash := Js.str "h1"; Body.timestamp := Js.number 1000;
         Body.monitor_id := Js.str "m1" |} empty_store in
  post (Js.number (3 # 2)) = (thrown, empty_store)
  ∧ post (Js.str "abc") = (thrown, empty_store)
  ∧ post (Js.number (inject_Z (2 ^ 63))) = (thrown, empty_store)
  ∧ status (post (Js.str " 0x10 ")).1 = 201.
Proof. repeat split; reflexivity. Qed.

(** ** Submissions and lookups together *)

(** X2.  A submission never changes or removes a stored row: the table
    after it is the table before it with at most one row appended, a row is
    appended exactly when the answer is 201, and the appended row carries
    the store's instant and the next identifier.  Hence the table of a
    store is a prefix of the table of every store reached from it. *)
Theorem submit_append_only :
  (∀ now body db,
     ∃ added,
       rows (submit now body db).2 = rows db ++ added
       ∧ (length added ≤ 1)%nat
       ∧ (added ≠ [] ↔ status (submit now body db).1 = 201)
       ∧ ∀ r, r ∈ added → Sth.storedAt r = now ∧ Sth.id r = next_id db)
  ∧ (∀ db0 db, reachable db0 db → rows db0 `prefix_of` rows db).
Proof.
  assert (Hstep : ∀ now body db,
     ∃ added,
       rows (submit now body db).2 = rows db ++ added
       ∧ (length added ≤ 1)%nat
       ∧ (added ≠ [] ↔ status (submit now body db).1 = 201)
       ∧ ∀ r, r ∈ added → Sth.storedAt r = now ∧ Sth.id r = next_id db).
  { intros now body db.
    destruct (submit_cases body db)
      as [[_ H]|[[_ H]|[(_ & l & t & h & e & _ & _ & _ & _ & _ & H)
                       |(_ & l & t & h & ts & m & _ & _ & _ & _ & _ & _ & _
                         & _ & H)]]];
      rewrite (H now); cbn [fst snd status rows thrown].
    1-3: exists []; rewrite app_nil_r;
         (split; [reflexivity|]); (split; [cbn; lia|]);
         (split; [split; [intros E; now destruct E | discriminate]|]);
         intros r Hr; inversion Hr.
    eexists [_]. split; [reflexivity|]. split; [cbn; lia|]. split.
    - split; [reflexivity | discriminate].
    - intros r Hr. apply list_elem_of_singleton in Hr as ->.
      split; reflexivity. }
  split; [exact Hstep|].
  intros db0 db Hreach. induction Hreach as [|now body db Hreach IH].
  - reflexivity.
  - destruct (Hstep now body db) as (added & -> & _).
    etransitivity; [exact IH|]. now apply prefix_app_r.
Qed.

Lemma submit_append_only_witness :
  rows empty_store
  `prefix_of` rows (submit 6 (body_of "AAA" 10 "h1" 2000 "m2")
                      (submit 5 (body_of "AAA=" 10 "h1" 1000 "m1")
                         empty_store).2).2.
Proof.
  apply (proj2 submit_append_only).
  apply reachable_submit, reachable_submit, reachable_start.
Defined.

(** X3.  Repeating a submission, at any later instant, changes nothing
    more: the store after the second call is the store after the first,
    the second answer carries the same body as the first, and its status is
    that of the first except that 201 becomes 200. *)
Theorem submit_repeated (now1 now2 : Z) (body : Body.t) (db : Store) :
  let first := submit now1 body db in
  let second := submit now2 body first.2 in
  second.2 = first.2
  ∧ json second.1 = json first.1
  ∧ status second.1 = (if status first.1 =? 201 then 200 else status first.1).
Proof.
  intros first second. subst first second.
  destruct (submit_cases body db)
    as [[_ H]|[[_ H]|[(_ & l & t & h & e & _ & _ & _ & _ & _ & H)
                     |(G & l & t & h & ts & m & Hl & Ht & Hti & Hh & Hts
                       & Htsi & Hm & F & H)]]];
    rewrite (H now1); cbn [fst snd].
  1-3: rewrite (H now2); repeat split.
  set (sth := created db now1 l t h ts m).
  set (db' := {| rows := rows db ++ [sth]; next_id := next_id db + 1 |}).
  assert (Hfind : prisma.findFirst (same_triple l t h) None db' = Some sth).
  { unfold prisma.findFirst. cbn [db' rows]. rewrite filter_app.
    replace (filter _ (rows db)) with (@nil Sth.t)
      by (symmetry; apply head_None; exact F).
    rewrite filter_cons_True; [reflexivity|].
    apply same_triple_spec. repeat split. }
  destruct (submit_cases body db')
    as [[G' _]|[[_ H']|[(_ & l' & t' & h' & e' & Hl' & Ht' & _ & Hh' & F'
                         & H')
                       |(_ & l' & t' & h' & ts' & m' & Hl' & Ht' & _ & Hh'
                         & _ & _ & _ & F' & _)]]].
  - congruence.
  - exfalso. specialize (H' now2). unfold submit in H'.
    unfold incomplete in G. rewrite G in H'. rewrite Ht in H'.
    cbn [mbind option_bind] in H'. rewrite Hl in H'.
    cbn [prisma.text mbind option_bind] in H'.
    rewrite (int8_Some t Hti), Hh in H'.
    cbn [prisma.text mbind option_bind] in H'. rewrite Hfind in H'.
    discriminate H'.
  - rewrite (H' now2).
    assert (l' = l) by congruence. assert (t' = t) by congruence.
    assert (h' = h) by congruence. subst l' t' h'.
    rewrite Hfind in F'. injection F' as <-. repeat split.
  - exfalso.
    assert (l' = l) by congruence. assert (t' = t) by congruence.
    assert (h' = h) by congruence. subst l' t' h'.
    rewrite Hfind in F'. discriminate F'.
Qed.

Lemma first_best_desc_In (l : list Sth.t) :
  l ≠ [] →
  ∃ y, first_best (λ y x, Sth.storedAt x <? Sth.storedAt y) l = Some y.
Proof.
  intros Hne.
  destruct (first_best (λ y x, Sth.storedAt x <? Sth.storedAt y) l) as [y|]
    eqn:E; [eauto|].
  apply first_best_None in E. contradiction.
Qed.

(** X4.  A new record is found again: when a submission is answered 201 at
    an instant later than every stored row of its log, the lookup of the
    submitted identifier on the resulting store answers 200 with the
    submitted size, hash and timestamp under the padded identifier. *)
Theorem submit_then_get (now : Z) (log_id : string) (tree_size : Z)
    (root_hash : string) (timestamp : Z) (monitor_id : string) (db : Store) :
  log_id ≠ "" → root_hash ≠ "" → monitor_id ≠ "" →
  (∀ r, r ∈ rows db → Sth.logId r = normalizedLogId log_id →
        Sth.storedAt r < now) →
  let res :=
    submit now (body_of log_id tree_size root_hash timestamp monitor_id) db in
  status res.1 = 201 →
  router_get log_id res.2
  = {| status := 200;
       json := SthResponseJson
                 {| Json.r_log_id := normalizedLogId log_id;
                    Json.r_tree_size := Number tree_size;
                    Json.r_root_hash := root_hash;
                    Json.r_timestamp := Number timestamp |} |}.
Proof.
  intros Hl Hh Hm Hlater res. subst res.
  destruct (submit_cases
              (body_of log_id tree_size root_hash timestamp monitor_id) db)
    as [[_ H]|[[_ H]|[(_ & l & t & h & e & _ & _ & _ & _ & _ & H)
                     |(_ & l & t & h & ts & m & El & Et & _ & Eh & Ets & _
                       & Em & _ & H)]]];
    rewrite (H now); cbn [fst snd status thrown]; try discriminate.
  intros _.
  cbn [body_of Body.log_id Body.tree_size Body.root_hash Body.timestamp
       Body.monitor_id normalize] in El, Et, Eh, Ets, Em.
  rewrite BigInt_inject_Z in Et, Ets.
  injection El as <-. injection Et as <-. injection Eh as <-.
  injection Ets as <-. injection Em as <-.
  set (sth := created db now (normalizedLogId log_id) tree_size root_hash
                timestamp monitor_id).
  set (db' := {| rows := rows db ++ [sth]; next_id := next_id db + 1 |}).
  rewrite router_get_unfold.
  destruct (prisma.findFirst _ (Some desc) db') as [found|] eqn:F.
  - apply findFirst_desc_Some in F as (Hin & Hw & Hmax).
    apply bool_decide_eq_true in Hw.
    assert (Hsth : sth ∈ rows db') by (apply elem_of_app; right; left).
    specialize (Hmax sth Hsth (bool_decide_eq_true_2 _ eq_refl)).
    cbn [db' rows] in Hin. apply elem_of_app in Hin as [Hin|Hin].
    + specialize (Hlater found Hin Hw). unfold sth, created in Hmax.
      cbn [Sth.storedAt] in Hmax. lia.
    + apply list_elem_of_singleton in Hin as ->. reflexivity.
  - rewrite findFirst_desc_None in F.
    assert (Hsth : sth ∈ rows db') by (apply elem_of_app; right; left).
    specialize (F sth Hsth). now rewrite bool_decide_eq_true_2 in F.
Qed.

Lemma submit_then_get_witness :
  router_get "AAA" (submit 300 (body_of "AAA" 30 "h3" 3000 "m1") two_rows).2
  = {| status := 200;
       json := SthResponseJson
                 {| Json.r_log_id := normalizedLogId "AAA";
                    Json.r_tree_size := Number 30;
                    Json.r_root_hash := "h3";
                    Json.r_timestamp := Number 3000 |} |}.
Proof.
  apply (submit_then_get 300 "AAA" 30 "h3" 3000 "m1" two_rows);
    try discriminate; try reflexivity.
  intros r Hr _. cbn in Hr.
  apply elem_of_cons in Hr as [->|Hr]; [reflexivity|].
  apply list_elem_of_singleton in Hr as ->. reflexivity.
Defined.

(** X5.  The lookup does not depend on the padding of the path identifier:
    an identifier and the same identifier with some or all of its missing
    pad characters get the same answer, and the [log_id] of a 200 answer is
    the padded form of the identifier asked for. *)
Theorem router_get_padding (x : string) (j : nat) (db : Store) :
  (j ≤ pad x)%nat →
  router_get (x +:+ repeat "=" j) db = router_get x db
  ∧ router_get (normalizedLogId x) db = router_get x db
  ∧ ∀ sth, json (router_get x db) = SthResponseJson sth →
           Json.r_log_id sth = normalizedLogId x.
Proof.
  intros Hj. rewrite !router_get_unfold.
  rewrite (normalizedLogId_padded x j Hj).
  rewrite (normalizedLogId_canonical (normalizedLogId x))
    by apply length_normalizedLogId.
  split; [reflexivity|]. split; [reflexivity|].
  intros sth.
  destruct (prisma.findFirst _ (Some desc) db) as [found|] eqn:F;
    cbn [json]; [|discriminate].
  intros [= <-]. cbn [Json.r_log_id].
  apply findFirst_desc_Some in F as (_ & Hw & _).
  now apply bool_decide_eq_true in Hw.
Qed.

Lemma router_get_padding_witness :
  router_get ("AAA" +:+ repeat "=" 1) two_rows = router_get "AAA" two_rows.
Proof.
  apply (router_get_padding "AAA" 1 two_rows). cbn. lia.
Defined.

(** ** Precision of the reported sizes *)

Lemma Number_error (n : Z) : 2 ^ 53 * Z.abs (Number n - n) ≤ Z.abs n.
Proof.
  pose proof (fl_error (inject_Z n)) as H.
  assert (E : (fl (inject_Z n) - inject_Z n == inject_Z (Number n - n))%Q).
  { rewrite <- Number_fl. unfold Z.sub.
    rewrite inject_Z_plus, inject_Z_opp. reflexivity. }
  rewrite E in H.
  change (Qabs (inject_Z (Number n - n)))
    with (inject_Z (Z.abs (Number n - n))) in H.
  change (Qabs (inject_Z n)) with (inject_Z (Z.abs n)) in H.
  assert (H' : (inject_Z (2 ^ 53 * Z.abs (Number n - n))
                <= inject_Z (Z.abs n))%Q).
  { rewrite inject_Z_mult. change (inject_Z (2 ^ 53)) with 9007199254740992%Q.
    lra. }
  now rewrite <- Zle_Qle in H'.
Qed.

(** X6.  Whatever the stored values, the [tree_size] and [timestamp] of a
    serialized record differ from the stored ones by at most the fraction
    2^-53 of their magnitude: less than 1024 for a 64-bit value. *)
Theorem serializeSth_precision (sth : Sth.t) :
  2 ^ 53 * Z.abs (Json.tree_size (serializeSth sth) - Sth.treeSize sth)
  ≤ Z.abs (Sth.treeSize sth)
  ∧ 2 ^ 53 * Z.abs (Json.timestamp (serializeSth sth) - Sth.timestamp sth)
    ≤ Z.abs (Sth.timestamp sth)
  ∧ (Z.abs (Sth.treeSize sth) < 2 ^ 63 →
     Z.abs (Json.tree_size (serializeSth sth) - Sth.treeSize sth) < 1024).
Proof.
  cbn [serializeSth Json.tree_size Json.timestamp].
  pose proof (Number_error (Sth.treeSize sth)) as H1.
  pose proof (Number_error (Sth.timestamp sth)) as H2.
  split; [exact H1|]. split; [exact H2|]. intros Hb.
  change (2 ^ 63) with (2 ^ 53 * 1024) in Hb. lia.
Qed.

Lemma serializeSth_precision_witness :
  Z.abs (Json.tree_size
           (serializeSth
              {| Sth.id := 1; Sth.logId := "AAA="; Sth.treeSize := 2 ^ 62 + 1;
                 Sth.rootHash := "h1"; Sth.timestamp := 1000;
                 Sth.monitorId := "m1"; Sth.storedAt := 5 |})
         - (2 ^ 62 + 1)) < 1024.
Proof.
  apply (serializeSth_precision
           {| Sth.id := 1; Sth.logId := "AAA="; Sth.treeSize := 2 ^ 62 + 1;
              Sth.rootHash := "h1"; Sth.timestamp := 1000;
              Sth.monitorId := "m1"; Sth.storedAt := 5 |}).
  reflexivity.
Defined.

(** ** The padding migration *)

Lemma migration_rows (LENGTH : string → nat) (db : Store) :
  (∀ r, r ∈ rows db → LENGTH (Sth.logId r) = String.length (Sth.logId r)) →
  rows (migration LENGTH db) = padded <$> rows db.
Proof.
  intros HL. unfold migration. cbn [rows]. apply list_fmap_ext.
  intros i r Hr. rewrite (HL r) by (eapply list_elem_of_lookup_2, Hr).
  destruct (Nat.eqb_spec (String.length (Sth.logId r) mod 4)%nat 0%nat)
    as [E|E].
  - unfold padded. rewrite (normalizedLogId_canonical _ E). now destruct r.
  - unfold padded. now rewrite normalizedLogId_append.
Qed.

Lemma padded_canonical (r : Sth.t) :
  (String.length (Sth.logId r) mod 4 = 0)%nat → padded r = r.
Proof.
  intros E. unfold padded. rewrite (normalizedLogId_canonical _ E).
  now destruct r.
Qed.

(** X7.  The migration keeps the number of rows and the next row id.
    When the database counts the characters of every stored identifier
    as the handlers count its code units, the migration rewrites each
    row's [log_id] to the padded form the handlers compute and leaves the
    other columns and the order of the rows as they were, and the result
    is in padded form; running it on a table already in padded form
    changes nothing, and so does running it again, when the padded
    identifiers are counted alike too. *)
Theorem migration_spec (LENGTH : string → nat) (db : Store) :
  let alike db :=
    ∀ r, r ∈ rows db → LENGTH (Sth.logId r) = String.length (Sth.logId r) in
  next_id (migration LENGTH db) = next_id db
  ∧ length (rows (migration LENGTH db)) = length (rows db)
  ∧ (alike db →
     rows (migration LENGTH db) = padded <$> rows db
     ∧ canonical (migration LENGTH db))
  ∧ (alike db → alike (migration LENGTH db) →
     migration LENGTH (migration LENGTH db) = migration LENGTH db)
  ∧ (alike db → canonical db → migration LENGTH db = db).
Proof.
  intros alike.
  assert (Hfix : ∀ db', alike db' → canonical db' → migration LENGTH db' = db').
  { intros db' HL Hc. destruct db' as [l n].
    assert (Hrows : rows (migration LENGTH {| rows := l; next_id := n |}) = l).
    { rewrite migration_rows by exact HL. cbn [rows].
      rewrite <- (list_fmap_id l) at 2. apply list_fmap_ext.
      intros i r Hr. apply padded_canonical, Hc.
      cbn [rows]. eapply list_elem_of_lookup_2, Hr. }
    unfold migration in *. cbn [rows next_id] in *. now rewrite Hrows. }
  split; [reflexivity|].
  split; [unfold migration; cbn [rows]; apply length_fmap|].
  split; [intros HL; split;
          [now apply migration_rows | now apply migration_canonical]|].
  split; [|apply Hfix].
  intros HL HL'. apply Hfix; [exact HL' | now apply migration_canonical].
Qed.

Lemma migration_spec_witness : migration String.length two_rows = two_rows.
Proof.
  apply (migration_spec String.length two_rows); [reflexivity|].
  intros r Hr. cbn in Hr.
  apply elem_of_cons in Hr as [->|Hr]; [reflexivity|].
  apply list_elem_of_singleton in Hr as ->. reflexivity.
Defined.


(** A row stored before the normalizer existed, with an unpadded
    identifier, is missed by the lookup until the migration has run. *)
Example unpadded_row_missed :
  let db := {| rows := [ {| Sth.id := 1; Sth.logId := "AAA";
                            Sth.treeSize := 10; Sth.rootHash := "h1";
                            Sth.timestamp := 1000; Sth.monitorId := "m1";
                            Sth.storedAt := 5 |} ];
               next_id := 2 |} in
  status (router_get "AAA" db) = 404
  ∧ ∀ LENGTH, LENGTH "AAA" = 3%nat →
      status (router_get "AAA" (migration LENGTH db)) = 200.
Proof.
  split; [reflexivity|]. intros LENGTH HL.
  unfold migration. cbn [rows fmap list_fmap Sth.logId]. rewrite HL.
  reflexivity.
Qed.


(** * Further properties of the statistics *)

(** ** Data range *)

(** X9.  [oldest_stored_at] and [newest_stored_at] are null exactly on the
    empty table; otherwise they are the least and the greatest [stored_at]
    of the table, each the [stored_at] of a row. *)
Theorem dataRange_extremes (db : Store) :
  let range := dataRange db in
  (DataRange.oldest_stored_at range = None ↔ rows db = [])
  ∧ (DataRange.newest_stored_at range = None ↔ rows db = [])
  ∧ (∀ o, DataRange.oldest_stored_at range = Some o →
          (∃ r, r ∈ rows db ∧ Sth.storedAt r = o)
          ∧ ∀ r, r ∈ rows db → o ≤ Sth.storedAt r)
  ∧ (∀ n, DataRange.newest_stored_at range = Some n →
          (∃ r, r ∈ rows db ∧ Sth.storedAt r = n)
          ∧ ∀ r, r ∈ rows db → Sth.storedAt r ≤ n).
Proof.
  cbn [dataRange DataRange.oldest_stored_at DataRange.newest_stored_at].
  assert (Hnil : (∀ r, r ∈ rows db → (λ _ : Sth.t, true) r = false)
                 ↔ rows db = []).
  { split.
    - intros H. destruct (rows db) as [|r l]; [reflexivity|].
      specialize (H r ltac:(left)). discriminate.
    - intros -> r Hr. inversion Hr. }
  split; [|split; [|split]].
  - rewrite fmap_None, findFirst_asc_None. exact Hnil.
  - rewrite fmap_None, findFirst_desc_None. exact Hnil.
  - intros o Ho. apply fmap_Some in Ho as (sth & F & ->).
    apply findFirst_asc_Some in F as (Hin & _ & Hmin).
    split; [now exists sth|]. intros r Hr. now apply Hmin.
  - intros n Hn. apply fmap_Some in Hn as (sth & F & ->).
    apply findFirst_desc_Some in F as (Hin & _ & Hmax).
    split; [now exists sth|]. intros r Hr. now apply Hmax.
Qed.

Lemma dataRange_extremes_witness :
  (∃ r, r ∈ rows two_rows ∧ Sth.storedAt r = 100)
  ∧ ∀ r, r ∈ rows two_rows → 100 ≤ Sth.storedAt r.
Proof.
  apply (dataRange_extremes two_rows). reflexivity.
Defined.

(** ** Recent activity *)

Lemma count_gte (lo : Z) (db : Store) :
  prisma.count (gte lo) db = rows_from lo db.
Proof.
  unfold prisma.count, rows_from. f_equal. apply list_filter_iff.
  intros r. unfold gte. now rewrite Z.leb_le.
Qed.

Lemma rows_from_split (lo hi : Z) (db : Store) :
  lo ≤ hi → rows_from lo db = (rows_within lo hi db + rows_from hi db)%nat.
Proof.
  intros H. unfold rows_from, rows_within.
  induction (rows db) as [|r l IH]; [reflexivity|].
  rewrite !filter_cons.
  destruct (decide (lo ≤ Sth.storedAt r));
    destruct (decide (lo ≤ Sth.storedAt r < hi));
    destruct (decide (hi ≤ Sth.storedAt r)); simpl; lia.
Qed.

Lemma rows_from_none (lo : Z) (db : Store) :
  (∀ r, r ∈ rows db → Sth.storedAt r < lo) → rows_from lo db = 0%nat.
Proof.
  intros H. unfold rows_from.
  destruct (filter _ (rows db)) as [|r l] eqn:E; [reflexivity|].
  assert (Hin : r ∈ filter (λ r, lo ≤ Sth.storedAt r) (rows db))
    by (rewrite E; left).
  apply list_elem_of_filter in Hin as [Hw Hr]. specialize (H r Hr). lia.
Qed.

Lemma rows_from_all (lo : Z) (db : Store) :
  (∀ r, r ∈ rows db → lo ≤ Sth.storedAt r) →
  rows_from lo db = length (rows db).
Proof.
  intros H. unfold rows_from.
  induction (rows db) as [|r l IH]; [reflexivity|].
  rewrite filter_cons_True by (apply H; left).
  cbn. f_equal. apply IH. intros r' Hr'. apply H. now right.
Qed.

Lemma rows_from_le_length (lo : Z) (db : Store) :
  (rows_from lo db ≤ length (rows db))%nat.
Proof. unfold rows_from. apply length_filter. Qed.

(** X10.  The counts of recent activity are nested: no more rows in the
    last hour than in the last 24 hours, than in the last 7 days, than in
    the table; the count of the last hour is the total when every row was
    stored within the hour before the report or later, and the count of
    the last 7 days is 0 when every row is older than that. *)
Theorem recent_activity_nested (toISOString : Z → string) (now : Z)
    (db : Store) :
  let report := router_get_stats toISOString now db in
  let recent := Report.recent_activity report in
  (RecentActivity.last_1h recent ≤ RecentActivity.last_24h recent)%nat
  ∧ (RecentActivity.last_24h recent ≤ RecentActivity.last_7d recent)%nat
  ∧ (RecentActivity.last_7d recent ≤ Report.total_sths report)%nat
  ∧ ((∀ r, r ∈ rows db → now - 3600000 ≤ Sth.storedAt r) →
     RecentActivity.last_1h recent = Report.total_sths report)
  ∧ ((∀ r, r ∈ rows db → Sth.storedAt r < now - 604800000) →
     RecentActivity.last_7d recent = 0%nat).
Proof.
  cbn [router_get_stats Report.recent_activity Report.total_sths
       RecentActivity.last_1h RecentActivity.last_24h RecentActivity.last_7d].
  unfold last1h, last24h, lastWeek, oneHourAgo, oneDayAgo, oneWeekAgo.
  rewrite !count_gte, totalSths_length.
  change (60 * 60 * 1000) with 3600000.
  change (24 * 60 * 60 * 1000) with 86400000.
  change (7 * 24 * 60 * 60 * 1000) with 604800000.
  split; [|split; [|split; [|split]]].
  - rewrite (rows_from_split (now - 86400000) (now - 3600000)) by lia. lia.
  - rewrite (rows_from_split (now - 604800000) (now - 86400000)) by lia. lia.
  - apply rows_from_le_length.
  - apply rows_from_all.
  - apply rows_from_none.
Qed.

Lemma recent_activity_nested_witness :
  RecentActivity.last_1h
    (Report.recent_activity (router_get_stats (λ _, "") 250 two_rows))
  = Report.total_sths (router_get_stats (λ _, "") 250 two_rows).
Proof.
  apply (recent_activity_nested (λ _, "") 250 two_rows).
  intros r Hr. cbn in Hr.
  apply elem_of_cons in Hr as [->|Hr]; [cbn; lia|].
  apply list_elem_of_singleton in Hr as ->. cbn. lia.
Defined.

(** X11.  The histograms and the recent activity of one report: the count
    of the last 24 hours (resp. hour) is the sum of the hourly (resp.
    5-minute) histogram plus the rows stored at the instant of the report
    or later, which no bucket counts; and the 5-minute histogram adds up to
    the newest hourly bucket. *)
Theorem histograms_recent_activity (toISOString : Z → string) (now : Z)
    (db : Store) :
  let report := router_get_stats toISOString now db in
  let recent := Report.recent_activity report in
  let hourly := Hourly.count <$> Report.hourly_histogram report in
  let five_min := FiveMin.count <$> Report.five_min_histogram report in
  RecentActivity.last_24h recent = (sum_list hourly + rows_from now db)%nat
  ∧ RecentActivity.last_1h recent = (sum_list five_min + rows_from now db)%nat
  ∧ last hourly = Some (sum_list five_min)
  ∧ ((∀ r, r ∈ rows db → Sth.storedAt r < now) →
     RecentActivity.last_24h recent = sum_list hourly
     ∧ RecentActivity.last_1h recent = sum_list five_min).
Proof.
  cbn [router_get_stats Report.recent_activity Report.hourly_histogram
       Report.five_min_histogram RecentActivity.last_1h
       RecentActivity.last_24h].
  unfold hourlyBuckets, fiveMinBuckets.
  rewrite hourly_loop_down, five_min_loop_down. cbn [app].
  rewrite !fmap_down. cbn [hourly_bucket five_min_bucket Hourly.count
                           FiveMin.count].
  rewrite (sum_down_windows 3600000 now db 24) by lia.
  rewrite (sum_down_windows 300000 now db 12) by lia.
  unfold last1h, last24h, oneHourAgo, oneDayAgo. rewrite !count_gte.
  change (Z.of_nat 24 * 3600000) with 86400000.
  change (Z.of_nat 12 * 300000) with 3600000.
  change (24 * 60 * 60 * 1000) with 86400000.
  change (60 * 60 * 1000) with 3600000.
  pose proof (rows_from_split (now - 86400000) now db ltac:(lia)) as H24.
  pose proof (rows_from_split (now - 3600000) now db ltac:(lia)) as H1.
  split; [exact H24|]. split; [exact H1|]. split.
  - cbn [down last]. do 2 f_equal; lia.
  - intros Hpast. rewrite (rows_from_none now db Hpast) in H24, H1. lia.
Qed.

Lemma histograms_recent_activity_witness :
  RecentActivity.last_24h
    (Report.recent_activity (router_get_stats (λ _, "") 250 two_rows))
  = sum_list
      (Hourly.count
         <$> Report.hourly_histogram (router_get_stats (λ _, "") 250 two_rows)).
Proof.
  apply (histograms_recent_activity (λ _, "") 250 two_rows).
  intros r Hr. cbn in Hr.
  apply elem_of_cons in Hr as [->|Hr]; [cbn; lia|].
  apply list_elem_of_singleton in Hr as ->. cbn. lia.
Defined.

(** ** Groups and their aggregates *)

Lemma least_None (l : list Z) : least l = None ↔ l = [].
Proof.
  destruct l as [|x l]; cbn; [tauto|].
  split; [|discriminate]. destruct (least l); discriminate.
Qed.

Lemma greatest_None (l : list Z) : greatest l = None ↔ l = [].
Proof.
  destruct l as [|x l]; cbn; [tauto|].
  split; [|discriminate]. destruct (greatest l); discriminate.
Qed.

Lemma least_Some (l : list Z) (m : Z) :
  least l = Some m → m ∈ l ∧ ∀ x, x ∈ l → m ≤ x.
Proof.
  revert m. induction l as [|a l IH]; cbn; intros m H; [discriminate|].
  destruct (least l) as [b|] eqn:E.
  - destruct (IH b eq_refl) as [Hb Hmin]. injection H as <-. split.
    + destruct (Z.min_spec a b) as [[_ ->]|[_ ->]]; [left | now right].
    + intros x [->|Hx]%elem_of_cons; [lia|]. specialize (Hmin x Hx). lia.
  - injection H as <-. apply least_None in E as ->. split; [left|].
    intros x [->|Hx]%elem_of_cons; [lia | inversion Hx].
Qed.

Lemma greatest_Some (l : list Z) (m : Z) :
  greatest l = Some m → m ∈ l ∧ ∀ x, x ∈ l → x ≤ m.
Proof.
  revert m. induction l as [|a l IH]; cbn; intros m H; [discriminate|].
  destruct (greatest l) as [b|] eqn:E.
  - destruct (IH b eq_refl) as [Hb Hmax]. injection H as <-. split.
    + destruct (Z.max_spec a b) as [[_ ->]|[_ ->]]; [now right | left].
    + intros x [->|Hx]%elem_of_cons; [lia|]. specialize (Hmax x Hx). lia.
  - injection H as <-. apply greatest_None in E as ->. split; [left|].
    intros x [->|Hx]%elem_of_cons; [lia | inversion Hx].
Qed.

Lemma elem_of_members (by_ : Sth.t → string) (where_ : Sth.t → bool)
    (db : Store) (k : string) (r : Sth.t) :
  r ∈ members by_ where_ db k ↔ r ∈ rows db ∧ where_ r = true ∧ by_ r = k.
Proof. unfold members. rewrite list_elem_of_filter. tauto. Qed.

Lemma groupByAggregates_keys (by_ : Sth.t → string) (where_ : Sth.t → bool)
    (db : Store) :
  Group.key <$> groupByAggregates by_ where_ db = prisma.groupBy by_ where_ db.
Proof.
  unfold groupByAggregates. rewrite <- list_fmap_compose.
  rewrite <- (list_fmap_id (prisma.groupBy by_ where_ db)) at 2.
  now apply list_fmap_ext.
Qed.

(** A group is made of the rows of its key; it has at least one row, and
    its least and greatest [stored_at] and [tree_size] are those of rows
    of the group. *)
Lemma elem_of_groupByAggregates (by_ : Sth.t → string)
    (where_ : Sth.t → bool) (db : Store) (g : Group.t) :
  g ∈ groupByAggregates by_ where_ db →
  let rs := members by_ where_ db (Group.key g) in
  rs ≠ []
  ∧ Group._count g = length rs
  ∧ Group._min_storedAt g = least (Sth.storedAt <$> rs)
  ∧ Group._max_storedAt g = greatest (Sth.storedAt <$> rs)
  ∧ Group._min_treeSize g = least (Sth.treeSize <$> rs)
  ∧ Group._max_treeSize g = greatest (Sth.treeSize <$> rs).
Proof.
  unfold groupByAggregates. intros (k & -> & Hk)%list_elem_of_fmap.
  cbn. split; [|repeat split].
  apply (groupBy_spec by_ where_ db) in Hk as (r & Hr & Hw & Hb).
  intros Hnil.
  assert (Hin : r ∈ members by_ where_ db k) by now apply elem_of_members.
  rewrite Hnil in Hin. inversion Hin.
Qed.

Lemma least_fmap_Some (f : Sth.t → Z) (rs : list Sth.t) :
  rs ≠ [] →
  ∃ r, r ∈ rs ∧ least (f <$> rs) = Some (f r) ∧ ∀ x, x ∈ rs → f r ≤ f x.
Proof.
  intros Hne. destruct (least (f <$> rs)) as [m|] eqn:E.
  - apply least_Some in E as [Hin Hmin].
    apply list_elem_of_fmap in Hin as (r & -> & Hr). exists r.
    split; [exact Hr|]. split; [reflexivity|].
    intros x Hx. apply Hmin. now apply list_elem_of_fmap_2.
  - apply least_None, fmap_nil_inv in E. contradiction.
Qed.

Lemma greatest_fmap_Some (f : Sth.t → Z) (rs : list Sth.t) :
  rs ≠ [] →
  ∃ r, r ∈ rs ∧ greatest (f <$> rs) = Some (f r) ∧ ∀ x, x ∈ rs → f x ≤ f r.
Proof.
  intros Hne. destruct (greatest (f <$> rs)) as [m|] eqn:E.
  - apply greatest_Some in E as [Hin Hmax].
    apply list_elem_of_fmap in Hin as (r & -> & Hr). exists r.
    split; [exact Hr|]. split; [reflexivity|].
    intros x Hx. apply Hmax. now apply list_elem_of_fmap_2.
  - apply greatest_None, fmap_nil_inv in E. contradiction.
Qed.

Lemma sum_list_fmap_plus {A} (f g : A → nat) (l : list A) :
  sum_list ((λ x, f x + g x)%nat <$> l)
  = (sum_list (f <$> l) + sum_list (g <$> l))%nat.
Proof. induction l as [|x l IH]; cbn; [reflexivity | rewrite IH; lia]. Qed.

Lemma sum_list_indicator (a : string) (ks : list string) :
  NoDup ks →
  sum_list ((λ k, if decide (a = k) then 1%nat else 0%nat) <$> ks)
  = if decide (a ∈ ks) then 1%nat else 0%nat.
Proof.
  induction 1 as [|k ks Hk Hnd IH]; [reflexivity|].
  cbn [fmap list_fmap sum_list]. rewrite IH.
  destruct (decide (a = k)) as [->|Hne].
  - rewrite (decide_True (P := k ∈ k :: ks)) by left.
    now rewrite (decide_False (P := k ∈ ks)).
  - destruct (decide (a ∈ ks)) as [Hin|Hout].
    + now rewrite (decide_True (P := a ∈ k :: ks)) by now right.
    + rewrite (decide_False (P := a ∈ k :: ks)); [reflexivity|].
      intros [->|Hin]%elem_of_cons; contradiction.
Qed.

(** The sizes of the groups of a list of distinct keys that holds the key
    of every selected row add up to the number of selected rows. *)
Lemma sum_group_sizes (by_ : Sth.t → string) (where_ : Sth.t → bool)
    (l : list Sth.t) (ks : list string) :
  NoDup ks →
  (∀ r, r ∈ l → where_ r = true → by_ r ∈ ks) →
  sum_list
    ((λ k, length (filter (λ r, where_ r = true ∧ by_ r = k) l)) <$> ks)
  = length (filter (λ r, where_ r = true) l).
Proof.
  intros Hnd. induction l as [|r l IH]; intros Hks.
  - cbn. clear. induction ks as [|k ks IHk]; [reflexivity | exact IHk].
  - specialize (IH (λ r' Hr', Hks r' ltac:(now right))).
    rewrite (list_fmap_ext _
               (λ k, ((if decide (where_ r = true ∧ by_ r = k)
                       then 1 else 0)
                      + length (filter (λ r, where_ r = true ∧ by_ r = k) l))%nat)
               ks).
    2:{ intros i k _. rewrite filter_cons.
        now destruct (decide (where_ r = true ∧ by_ r = k)). }
    rewrite sum_list_fmap_plus, IH, filter_cons.
    destruct (where_ r) eqn:Hw.
    + rewrite (list_fmap_ext _
                 (λ k, if decide (by_ r = k) then 1%nat else 0%nat) ks).
      2:{ intros i k _.
          destruct (decide (by_ r = k)) as [E|E].
          - now rewrite decide_True.
          - rewrite decide_False; [reflexivity | tauto]. }
      rewrite (sum_list_indicator _ _ Hnd).
      rewrite decide_True by (apply Hks; [left | exact Hw]).
      now rewrite decide_True.
    + rewrite (list_fmap_ext _ (λ _, 0%nat) ks).
      2:{ intros i k _. rewrite decide_False; [reflexivity|].
          intros [Hc _]. discriminate. }
      rewrite decide_False by discriminate.
      assert (Hz : sum_list ((λ _ : string, 0%nat) <$> ks) = 0%nat).
      { clear. induction ks as [|k ks IHk]; [reflexivity | exact IHk]. }
      now rewrite Hz.
Qed.

Lemma sum_groupByAggregates (by_ : Sth.t → string) (where_ : Sth.t → bool)
    (db : Store) :
  sum_list (Group._count <$> groupByAggregates by_ where_ db)
  = prisma.count where_ db.
Proof.
  unfold groupByAggregates, prisma.count. rewrite <- list_fmap_compose.
  destruct (groupBy_spec by_ where_ db) as [Hnd Hks].
  rewrite <- (sum_group_sizes by_ where_ (rows db) _ Hnd).
  - reflexivity.
  - intros r Hr Hw. apply Hks. eauto.
Qed.

Lemma count_true (db : Store) : prisma.count (λ _, true) db = length (rows db).
Proof. apply totalSths_length. Qed.

(** ** Rounded quotients *)

Section RoundedQuotients.
Local Open Scope Q_scope.

(** [Math.round (d / h)] of an integer [d] below 2^52 in magnitude and a
    positive integer [h] is the quotient rounded to the nearest integer,
    halves up. *)
Lemma round_div (d h : Z) :
  (0 < h)%Z → (Z.abs d < 2 ^ 52)%Z →
  Qfloor (fdiv (inject_Z d) (inject_Z h) + (1 # 2)) = nearest d h.
Proof.
  intros Hh Hd. unfold fdiv, nearest.
  set (x := inject_Z d / inject_Z h).
  assert (Hb : 1 <= inject_Z h).
  { change 1 with (inject_Z 1). rewrite <- Zle_Qle. lia. }
  assert (Hx : x + (1 # 2) == inject_Z (2 * d + h) / inject_Z (2 * h)).
  { unfold x. rewrite inject_Z_plus, !inject_Z_mult.
    change (inject_Z 2) with 2. field. lra. }
  assert (Hxh : x * inject_Z h == inject_Z d).
  { unfold x. field. lra. }
  assert (Hax : Qabs x * inject_Z h == inject_Z (Z.abs d)).
  { destruct (Z.le_gt_cases 0 d) as [Hpos|Hneg].
    - assert (Hd0 : 0 <= inject_Z d).
      { change 0 with (inject_Z 0). rewrite <- Zle_Qle. exact Hpos. }
      assert (Hx0 : 0 <= x).
      { unfold x. apply Qle_shift_div_l; lra. }
      rewrite (Qabs_pos x Hx0), Z.abs_eq by exact Hpos. exact Hxh.
    - assert (Hd0 : inject_Z d <= 0).
      { change 0 with (inject_Z 0). rewrite <- Zle_Qle. lia. }
      assert (Hx0 : x <= 0).
      { unfold x. apply Qle_shift_div_r; lra. }
      rewrite (Qabs_neg x Hx0), Z.abs_neq, inject_Z_opp by lia.
      rewrite <- Hxh. ring. }
  assert (Hd1 : inject_Z (Z.abs d) < 4503599627370496).
  { change 4503599627370496 with (inject_Z (2 ^ 52)). rewrite <- Zlt_Qlt.
    exact Hd. }
  assert (Hy : Qabs (fl x - x) < 1 / inject_Z (2 * h)).
  { eapply Qle_lt_trans; [apply fl_error|].
    rewrite inject_Z_mult. change (inject_Z 2) with 2.
    apply Qlt_shift_div_l; [lra|].
    set (a := Qabs x) in *. set (b := inject_Z h) in *.
    assert (E : (1 # 9007199254740992) * a * (2 * b)
                == (1 # 4503599627370496) * (a * b)) by ring.
    rewrite E, Hax. lra. }
  destruct (floor_near x (fl x) (2 * d + h) (2 * h) ltac:(lia) Hx Hy)
    as [_ Hne].
  destruct (Z.eq_dec ((2 * d + h) mod (2 * h)) 0%Z) as [Hz|Hnz];
    [|exact (Hne Hnz)].
  pose proof (Z.div_mod (2 * d + h) (2 * h) ltac:(lia)) as Hdm.
  rewrite Hz, Z.add_0_r in Hdm.
  set (N := ((2 * d + h) / (2 * h))%Z) in *.
  assert (Hde : (2 * d = h * (2 * N - 1))%Z) by lia.
  assert (Heven : Z.even h = true).
  { assert (He : Z.even (h * (2 * N - 1)) = true).
    { rewrite <- Hde, Z.even_mul. reflexivity. }
    rewrite Z.even_mul in He.
    assert (Ho : Z.even (2 * N - 1) = false).
    { rewrite Z.even_sub, Z.even_mul. reflexivity. }
    rewrite Ho, orb_false_r in He. exact He. }
  apply Z.even_spec in Heven as [h' Hh'].
  assert (Hd2 : d = (h' * (2 * N - 1))%Z) by nia.
  assert (Hxe : x == inject_Z (2 * N - 1) * 2 ^ (-1)).
  { assert (Hh0 : 0 < inject_Z h').
    { change 0 with (inject_Z 0). rewrite <- Zlt_Qlt. lia. }
    unfold x. rewrite Hd2, Hh', !inject_Z_mult. change (2 ^ (-1)) with (/ 2).
    change (inject_Z 2) with 2. field. lra. }
  assert (Hfl : fl x == x).
  { transitivity (fl (inject_Z (2 * N - 1) * 2 ^ (-1)));
      [apply fl_comp; exact Hxe|].
    transitivity (inject_Z (2 * N - 1) * 2 ^ (-1));
      [apply fl_exact; nia | symmetry; exact Hxe]. }
  assert (E : fl x + (1 # 2) == inject_Z N).
  { rewrite Hfl, Hx. replace (2 * d + h)%Z with (2 * h * N)%Z by lia.
    rewrite !inject_Z_mult. change (inject_Z 2) with 2. field. lra. }
  rewrite E. apply Qfloor_Z.
Qed.

(** The staleness of a date within 2^52 ms of the report is the time
    since it in seconds, rounded to the nearest integer, halves up. *)
Lemma staleness_nearest (now date : Z) :
  (Z.abs (now - date) < 2 ^ 52)%Z →
  staleness now (Some date) = Some (inject_Z (nearest (now - date) 1000)).
Proof.
  intros Hd. unfold staleness, Math_round. do 2 f_equal.
  rewrite <- (round_div (now - date) 1000 ltac:(lia) Hd).
  apply Qfloor_comp. apply Qplus_comp; [|reflexivity].
  unfold fdiv, fsub. apply fl_comp. apply Qdiv_comp; [|reflexivity].
  transitivity (fl (inject_Z (now - date))).
  - apply fl_comp. now rewrite inject_Z_minus.
  - apply fl_exact_Z. lia.
Qed.

End RoundedQuotients.

(** ** Ordered lookups *)

Lemma insert_desc_Permutation (x : Sth.t) (l : list Sth.t) :
  insert_desc x l ≡ₚ x :: l.
Proof.
  induction l as [|y l IH]; cbn; [reflexivity|].
  destruct (Sth.storedAt x <? Sth.storedAt y); [|reflexivity].
  rewrite IH. apply Permutation_swap.
Qed.

Lemma sort_desc_Permutation (l : list Sth.t) : foldr insert_desc [] l ≡ₚ l.
Proof.
  induction l as [|x l IH]; cbn; [reflexivity|].
  now rewrite insert_desc_Permutation, IH.
Qed.

Lemma insert_desc_descending (x : Sth.t) (l : list Sth.t) :
  descending l → descending (insert_desc x l).
Proof.
  induction l as [|y l IH]; cbn.
  - intros _. split; [|exact I]. intros y Hy. inversion Hy.
  - intros [Hy Hl].
    destruct (Z.ltb_spec (Sth.storedAt x) (Sth.storedAt y)) as [Hlt|Hge].
    + cbn. split; [|now apply IH].
      intros z Hz. rewrite insert_desc_Permutation in Hz.
      apply elem_of_cons in Hz as [->|Hz]; [lia | now apply Hy].
    + cbn. split; [|split; assumption].
      intros z [->|Hz]%elem_of_cons; [lia|]. specialize (Hy z Hz). lia.
Qed.

Lemma sort_desc_descending (l : list Sth.t) :
  descending (foldr insert_desc [] l).
Proof.
  induction l as [|x l IH]; cbn; [exact I|].
  now apply insert_desc_descending.
Qed.

Lemma descending_take_drop (n : nat) (l : list Sth.t) :
  descending l →
  ∀ x y, x ∈ take n l → y ∈ drop n l → Sth.storedAt y ≤ Sth.storedAt x.
Proof.
  revert n. induction l as [|a l IH]; intros n Hd x y Hx Hy.
  - rewrite take_nil in Hx. inversion Hx.
  - destruct n as [|n]; [inversion Hx|].
    cbn in Hx, Hy. destruct Hd as [Ha Hl].
    apply elem_of_cons in Hx as [->|Hx].
    + apply Ha. rewrite <- (take_drop n l). apply elem_of_app. now right.
    + now apply (IH n Hl).
Qed.

(** [findMany]: the [take] latest stored of the selected rows, or all of
    them when there are fewer. *)
Lemma findMany_spec (where_ : Sth.t → bool) (n : nat) (db : Store) :
  ∃ rest,
    findMany where_ n db ++ rest ≡ₚ filter (λ r, where_ r = true) (rows db)
    ∧ length (findMany where_ n db) = (n `min` prisma.count where_ db)%nat
    ∧ ∀ x y, x ∈ findMany where_ n db → y ∈ rest →
             Sth.storedAt y ≤ Sth.storedAt x.
Proof.
  unfold findMany, prisma.count.
  set (l := filter (λ r, where_ r = true) (rows db)).
  exists (drop n (foldr insert_desc [] l)). split; [|split].
  - rewrite take_drop. apply sort_desc_Permutation.
  - rewrite length_take. now rewrite (sort_desc_Permutation l).
  - apply descending_take_drop, sort_desc_descending.
Qed.

(** The first row of [findMany] is the row of [findFirst]. *)
Lemma findMany_head (where_ : Sth.t → bool) (n : nat) (db : Store) :
  head (findMany where_ (S n) db) = prisma.findFirst where_ (Some desc) db.
Proof.
  unfold findMany, prisma.findFirst.
  induction (filter (λ r, where_ r = true) (rows db)) as [|x l IH];
    [reflexivity|].
  cbn [foldr first_best]. rewrite <- IH.
  destruct (foldr insert_desc [] l) as [|y l']; [reflexivity|].
  cbn. now destruct (Sth.storedAt x <? Sth.storedAt y).
Qed.

(** ** Per-monitor and per-log statistics *)

Lemma filter_bool_decide (P : Sth.t → Prop) `{!∀ r, Decision (P r)}
    (l : list Sth.t) :
  filter (λ r, bool_decide (P r) = true) l = filter P l.
Proof. apply list_filter_iff. intros r. apply bool_decide_eq_true. Qed.

Lemma members_true (by_ : Sth.t → string) (db : Store) (k : string) :
  members by_ (λ _, true) db k = filter (λ r, by_ r = k) (rows db).
Proof. unfold members. apply list_filter_iff. intros r. tauto. Qed.

(** A group of the whole table: its first and last stored rows, which the
    ordered lookups of its key return. *)
Lemma group_seen (by_ : Sth.t → string) (db : Store) (g : Group.t) :
  g ∈ groupByAggregates by_ (λ _, true) db →
  ∃ oldest latest,
    prisma.findFirst (λ r, bool_decide (by_ r = Group.key g)) (Some asc) db
    = Some oldest
    ∧ prisma.findFirst (λ r, bool_decide (by_ r = Group.key g)) (Some desc) db
      = Some latest
    ∧ oldest ∈ rows db ∧ latest ∈ rows db
    ∧ by_ oldest = Group.key g ∧ by_ latest = Group.key g
    ∧ (∀ r, r ∈ rows db → by_ r = Group.key g →
            Sth.storedAt oldest ≤ Sth.storedAt r ≤ Sth.storedAt latest)
    ∧ Group._min_storedAt g = Some (Sth.storedAt oldest)
    ∧ Group._max_storedAt g = Some (Sth.storedAt latest)
    ∧ Group._count g = length (filter (λ r, by_ r = Group.key g) (rows db))
    ∧ (1 ≤ Group._count g)%nat.
Proof.
  intros Hg.
  destruct (elem_of_groupByAggregates _ _ _ _ Hg)
    as (Hne & Hc & Hmin & Hmax & _ & _).
  set (k := Group.key g) in *. set (rs := members by_ (λ _, true) db k) in *.
  destruct (least_fmap_Some Sth.storedAt rs Hne) as (first & Hf & Ef & Hfm).
  destruct (greatest_fmap_Some Sth.storedAt rs Hne) as (last & Hl & El & Hlm).
  apply elem_of_members in Hf as (Hf & _ & Hfk).
  apply elem_of_members in Hl as (Hl & _ & Hlk).
  destruct (prisma.findFirst (λ r, bool_decide (by_ r = k)) (Some asc) db)
    as [oldest|] eqn:Fo.
  2:{ rewrite findFirst_asc_None in Fo. specialize (Fo first Hf).
      now rewrite bool_decide_eq_true_2 in Fo. }
  destruct (prisma.findFirst (λ r, bool_decide (by_ r = k)) (Some desc) db)
    as [latest|] eqn:Fl.
  2:{ rewrite findFirst_desc_None in Fl. specialize (Fl first Hf).
      now rewrite bool_decide_eq_true_2 in Fl. }
  apply findFirst_asc_Some in Fo as (Ho & Hok & Homin).
  apply findFirst_desc_Some in Fl as (Hla & Hlak & Hlmax).
  apply bool_decide_eq_true in Hok, Hlak.
  assert (Hin : ∀ r, r ∈ rows db → by_ r = k → r ∈ rs).
  { intros r Hr Hk. now apply elem_of_members. }
  assert (Eo : Sth.storedAt first = Sth.storedAt oldest).
  { specialize (Hfm oldest (Hin _ Ho Hok)).
    specialize (Homin first Hf (bool_decide_eq_true_2 _ Hfk)). lia. }
  assert (El' : Sth.storedAt last = Sth.storedAt latest).
  { specialize (Hlm latest (Hin _ Hla Hlak)).
    specialize (Hlmax last Hl (bool_decide_eq_true_2 _ Hlk)). lia. }
  exists oldest, latest.
  split; [reflexivity|]. split; [reflexivity|].
  split; [exact Ho|]. split; [exact Hla|].
  split; [exact Hok|]. split; [exact Hlak|].
  split.
  { intros r Hr Hk.
    specialize (Homin r Hr (bool_decide_eq_true_2 _ Hk)).
    specialize (Hlmax r Hr (bool_decide_eq_true_2 _ Hk)). lia. }
  split; [now rewrite Hmin, Ef, Eo|]. split; [now rewrite Hmax, El, El'|].
  assert (Hlen : Group._count g = length (filter (λ r, by_ r = k) (rows db))).
  { rewrite Hc. unfold rs. now rewrite members_true. }
  split; [exact Hlen|].
  rewrite Hc. destruct rs; [contradiction | cbn; lia].
Qed.

(** X12.  The per-monitor statistics list each monitor that has a row
    exactly once; the counts of the entries add up to the number of rows;
    an entry counts the rows of its monitor, at least one, its
    [first_seen] and [last_seen] are the least and the greatest
    [stored_at] of those rows, and its [staleness_seconds] is never null:
    when [last_seen] is within 2^52 ms of the report, it is the time from
    [last_seen] to the report in seconds, rounded to the nearest integer,
    halves up. *)
Theorem monitors_spec (now : Z) (db : Store) :
  let ms := monitors now db in
  NoDup (MonitorStats.monitor_id <$> ms)
  ∧ (∀ m, m ∈ MonitorStats.monitor_id <$> ms
          ↔ ∃ r, r ∈ rows db ∧ Sth.monitorId r = m)
  ∧ sum_list (MonitorStats.sth_count <$> ms) = length (rows db)
  ∧ ∀ e, e ∈ ms →
      ∃ first last,
        first ∈ rows db ∧ last ∈ rows db
        ∧ Sth.monitorId first = MonitorStats.monitor_id e
        ∧ Sth.monitorId last = MonitorStats.monitor_id e
        ∧ (∀ r, r ∈ rows db → Sth.monitorId r = MonitorStats.monitor_id e →
                Sth.storedAt first ≤ Sth.storedAt r ≤ Sth.storedAt last)
        ∧ MonitorStats.first_seen e = Some (Sth.storedAt first)
        ∧ MonitorStats.last_seen e = Some (Sth.storedAt last)
        ∧ MonitorStats.sth_count e
          = length (filter (λ r, Sth.monitorId r = MonitorStats.monitor_id e)
                      (rows db))
        ∧ (1 ≤ MonitorStats.sth_count e)%nat
        ∧ MonitorStats.staleness_seconds e ≠ None
        ∧ (Z.abs (now - Sth.storedAt last) < 2 ^ 52 →
           MonitorStats.staleness_seconds e
           = Some (inject_Z (nearest (now - Sth.storedAt last) 1000))).
Proof.
  intros ms.
  assert (Hids : MonitorStats.monitor_id <$> ms
                 = prisma.groupBy Sth.monitorId (λ _, true) db).
  { unfold ms, monitors, monitorGroups. rewrite <- list_fmap_compose.
    rewrite <- groupByAggregates_keys. now apply list_fmap_ext. }
  destruct (groupBy_spec Sth.monitorId (λ _, true) db) as [Hnd Hks].
  split; [now rewrite Hids|]. split.
  { intros m. rewrite Hids, Hks. split.
    - intros (r & Hr & _ & Hm). eauto.
    - intros (r & Hr & Hm). eauto. }
  split.
  { unfold ms, monitors, monitorGroups. rewrite <- list_fmap_compose.
    rewrite <- count_true, <- sum_groupByAggregates with (by_ := Sth.monitorId).
    reflexivity. }
  intros e He. unfold ms, monitors, monitorGroups in He.
  apply list_elem_of_fmap in He as (g & -> & Hg).
  destruct (group_seen _ _ _ Hg)
    as (first & last & _ & _ & Hf & Hl & Hfk & Hlk & Hext & Hmin & Hmax
        & Hc & Hpos).
  exists first, last. cbn.
  split; [exact Hf|]. split; [exact Hl|]. split; [exact Hfk|].
  split; [exact Hlk|]. split; [exact Hext|]. split; [exact Hmin|].
  split; [exact Hmax|]. split; [exact Hc|]. split; [exact Hpos|].
  rewrite Hmax. split; [discriminate|]. apply staleness_nearest.
Qed.

Lemma monitors_spec_witness :
  ∃ last,
    last ∈ rows two_rows
    ∧ staleness 90100 (Some 100)
      = Some (inject_Z (nearest (90100 - Sth.storedAt last) 1000)).
Proof.
  destruct (monitors_spec 90100 two_rows) as (_ & _ & _ & H).
  destruct (H {| MonitorStats.monitor_id := "m1";
                 MonitorStats.sth_count := 1;
                 MonitorStats.first_seen := Some 100;
                 MonitorStats.last_seen := Some 100;
                 MonitorStats.staleness_seconds :=
                   staleness 90100 (Some 100) |})
    as (first & last & _ & Hl & _ & _ & _ & _ & _ & _ & _ & _ & Hs).
  { vm_compute. left. }
  exists last. split; [exact Hl|]. apply Hs.
  cbn in Hl. apply elem_of_cons in Hl as [->|Hl]; [cbn; lia|].
  apply list_elem_of_singleton in Hl as ->. cbn. lia.
Defined.

Lemma logs_keys (now : Z) (db : Store) :
  LogStats.log_id <$> logs now db = logGroups db.
Proof.
  unfold logs, logGroupsAggregates, logGroups.
  rewrite <- groupByAggregates_keys, <- list_fmap_compose. reflexivity.
Qed.

Lemma consistency_keys (db : Store) :
  Consistency.log_id <$> consistency db = logGroups db.
Proof.
  unfold consistency. rewrite <- list_fmap_compose.
  rewrite <- (list_fmap_id (logGroups db)) at 2. now apply list_fmap_ext.
Qed.

(** X13.  The per-log statistics list each log that has a row exactly
    once, in the order of the consistency entries; the counts of the
    entries add up to the number of rows, and their counts of the last 24
    hours to the count of the last 24 hours of the recent activity; an
    entry counts the rows of its log, at least one, and no more of them in
    the last 24 hours than in all. *)
Theorem logs_counts (now : Z) (db : Store) :
  let ls := logs now db in
  LogStats.log_id <$> ls = Consistency.log_id <$> consistency db
  ∧ NoDup (LogStats.log_id <$> ls)
  ∧ (∀ k, k ∈ LogStats.log_id <$> ls ↔ ∃ r, r ∈ rows db ∧ Sth.logId r = k)
  ∧ sum_list (LogStats.sth_count <$> ls) = length (rows db)
  ∧ sum_list (LogStats.sths_last_24h <$> ls) = last24h now db
  ∧ ∀ e, e ∈ ls →
      LogStats.sth_count e
      = length (filter (λ r, Sth.logId r = LogStats.log_id e) (rows db))
      ∧ (1 ≤ LogStats.sth_count e)%nat
      ∧ LogStats.sths_last_24h e
        = length (filter (λ r, Sth.logId r = LogStats.log_id e
                               ∧ now - 86400000 ≤ Sth.storedAt r) (rows db))
      ∧ (LogStats.sths_last_24h e ≤ LogStats.sth_count e)%nat.
Proof.
  intros ls. unfold ls.
  destruct (groupBy_spec Sth.logId (λ _, true) db) as [Hnd Hks].
  assert (H24 : ∀ k,
            prisma.count
              (λ r, bool_decide (Sth.logId r = k) && gte (oneDayAgo now) r) db
            = length (filter (λ r, Sth.logId r = k
                                   ∧ now - 86400000 ≤ Sth.storedAt r)
                        (rows db))).
  { intros k. unfold prisma.count. f_equal. apply list_filter_iff. intros r.
    unfold gte, oneDayAgo.
    rewrite andb_true_iff, bool_decide_eq_true, Z.leb_le.
    change (24 * 60 * 60 * 1000) with 86400000. tauto. }
  split; [now rewrite logs_keys, consistency_keys|].
  split; [rewrite logs_keys; exact Hnd|]. split.
  { intros k. rewrite logs_keys. unfold logGroups. rewrite Hks. split.
    - intros (r & Hr & _ & Hk). eauto.
    - intros (r & Hr & Hk). eauto. }
  split.
  { unfold logs, logGroupsAggregates. rewrite <- list_fmap_compose.
    rewrite <- count_true, <- sum_groupByAggregates with (by_ := Sth.logId).
    reflexivity. }
  split.
  { unfold logs, logGroupsAggregates, groupByAggregates.
    rewrite <- !list_fmap_compose. unfold last24h, prisma.count.
    rewrite <- (sum_group_sizes Sth.logId (gte (oneDayAgo now)) (rows db)
                  (prisma.groupBy Sth.logId (λ _, true) db) Hnd).
    - f_equal. apply list_fmap_ext. intros i k _. cbn.
      unfold prisma.count. f_equal. apply list_filter_iff. intros r.
      rewrite andb_true_iff, bool_decide_eq_true. tauto.
    - intros r Hr _. apply Hks. eauto. }
  intros e He. unfold logs, logGroupsAggregates in He.
  apply list_elem_of_fmap in He as (g & -> & Hg).
  destruct (group_seen _ _ _ Hg) as (_ & _ & _ & _ & _ & _ & _ & _ & _ & _
                                     & _ & Hc & Hpos).
  cbn [logStats LogStats.sth_count LogStats.log_id LogStats.sths_last_24h].
  split; [exact Hc|]. split; [exact Hpos|]. split; [apply H24|].
  rewrite H24, Hc. clear.
  induction (rows db) as [|r l IH]; [cbn; lia|].
  rewrite !filter_cons.
  destruct (decide (Sth.logId r = Group.key g ∧ now - 86400000 ≤ Sth.storedAt r))
    as [[Hk _]|_].
  - rewrite decide_True by exact Hk. cbn. lia.
  - destruct (decide (Sth.logId r = Group.key g)); cbn; lia.
Qed.

Lemma logs_counts_witness :
  LogStats.sth_count (logStats 250 two_rows
                        {| Group.key := "AAA="; Group._count := 2;
                           Group._min_storedAt := Some 100;
                           Group._max_storedAt := Some 200;
                           Group._min_treeSize := Some 10;
                           Group._max_treeSize := Some 20 |})
  = length (filter (λ r, Sth.logId r = "AAA=") (rows two_rows)).
Proof.
  apply (logs_counts 250 two_rows).
  apply list_elem_of_fmap. eexists. split; [reflexivity|].
  vm_compute. left.
Defined.

(** X14.  An entry of the per-log statistics is never partly null: its
    [first_seen] and [oldest_tree_size] come from a row of the log that
    none precedes in [stored_at], its [last_seen], [latest_tree_size]
    and [latest_timestamp] from a row that none follows, its
    [avg_ingestion_lag_ms] is a number, and so is its
    [staleness_seconds]: when [last_seen] is within 2^52 ms of the
    report, the time from [last_seen] to the report in seconds, rounded
    to the nearest integer, halves up. *)
Theorem logs_entry_spec (now : Z) (db : Store) (e : LogStats.t) :
  e ∈ logs now db →
  ∃ oldest latest,
    oldest ∈ rows db ∧ latest ∈ rows db
    ∧ Sth.logId oldest = LogStats.log_id e
    ∧ Sth.logId latest = LogStats.log_id e
    ∧ (∀ r, r ∈ rows db → Sth.logId r = LogStats.log_id e →
            Sth.storedAt oldest ≤ Sth.storedAt r ≤ Sth.storedAt latest)
    ∧ LogStats.first_seen e = Some (Sth.storedAt oldest)
    ∧ LogStats.last_seen e = Some (Sth.storedAt latest)
    ∧ LogStats.oldest_tree_size e = Some (Number (Sth.treeSize oldest))
    ∧ LogStats.latest_tree_size e = Some (Number (Sth.treeSize latest))
    ∧ LogStats.latest_timestamp e = Some (Number (Sth.timestamp latest))
    ∧ LogStats.staleness_seconds e ≠ None
    ∧ LogStats.avg_ingestion_lag_ms e ≠ None
    ∧ (Z.abs (now - Sth.storedAt latest) < 2 ^ 52 →
       LogStats.staleness_seconds e
       = Some (inject_Z (nearest (now - Sth.storedAt latest) 1000))).
Proof.
  intros He. unfold logs, logGroupsAggregates in He.
  apply list_elem_of_fmap in He as (g & -> & Hg).
  destruct (group_seen _ _ _ Hg)
    as (oldest & latest & Fo & Fl & Ho & Hl & Hok & Hlk & Hext & Hmin & Hmax
        & Hc & Hpos).
  exists oldest, latest.
  cbn [logStats LogStats.log_id LogStats.first_seen LogStats.last_seen
       LogStats.oldest_tree_size LogStats.latest_tree_size
       LogStats.latest_timestamp LogStats.staleness_seconds
       LogStats.avg_ingestion_lag_ms].
  rewrite Fo, Fl, Hmin, Hmax.
  split; [exact Ho|]. split; [exact Hl|]. split; [exact Hok|].
  split; [exact Hlk|]. split; [exact Hext|].
  do 5 (split; [reflexivity|]). split; [discriminate|]. split.
  - destruct (findMany_spec (λ r, bool_decide (Sth.logId r = Group.key g))
                50 db) as (rest & _ & Hlen & _).
    assert (Hn : (0 < length (findMany
                                (λ r, bool_decide (Sth.logId r = Group.key g))
                                50 db))%nat).
    { rewrite Hlen. unfold prisma.count. rewrite filter_bool_decide, <- Hc.
      lia. }
    apply Nat.ltb_lt in Hn. rewrite Hn. discriminate.
  - apply staleness_nearest.
Qed.

Lemma logs_entry_spec_witness :
  ∃ latest,
    latest ∈ rows two_rows
    ∧ staleness 90200 (Some 200)
      = Some (inject_Z (nearest (90200 - Sth.storedAt latest) 1000)).
Proof.
  destruct (logs_entry_spec 90200 two_rows
              (logStats 90200 two_rows
                 {| Group.key := "AAA="; Group._count := 2;
                    Group._min_storedAt := Some 100;
                    Group._max_storedAt := Some 200;
                    Group._min_treeSize := Some 10;
                    Group._max_treeSize := Some 20 |}))
    as (oldest & latest & _ & Hl & _ & _ & _ & _ & _ & _ & _ & _ & _ & _ & Hs).
  { apply list_elem_of_fmap. eexists. split; [reflexivity|].
    vm_compute. left. }
  exists latest. split; [exact Hl|]. apply Hs.
  cbn in Hl. apply elem_of_cons in Hl as [->|Hl]; [cbn; lia|].
  apply list_elem_of_singleton in Hl as ->. cbn. lia.
Defined.

(** X17.  The monitors of an entry of the per-log statistics are the
    monitors that have a row of the log, each once and at least one;
    [monitor_count] is their number, and is the [monitor_count] of the
    consistency entry of the log, which lists the same monitors, in an
    order of its own; their counts add up to the count of the log; each
    counts the rows of its monitor and log, and its [last_seen] is the
    greatest [stored_at] of those rows. *)
Theorem logs_monitors_spec (now : Z) (db : Store) (e : LogStats.t) :
  e ∈ logs now db →
  let ms := LogStats.monitors e in
  LogStats.monitor_count e = length ms
  ∧ (1 ≤ LogStats.monitor_count e)%nat
  ∧ NoDup (LogMonitor.monitor_id <$> ms)
  ∧ (∀ m, m ∈ LogMonitor.monitor_id <$> ms
          ↔ ∃ r, r ∈ rows db ∧ Sth.logId r = LogStats.log_id e
                 ∧ Sth.monitorId r = m)
  ∧ sum_list (LogMonitor.sth_count <$> ms) = LogStats.sth_count e
  ∧ (∀ c, c ∈ consistency db →
          Consistency.log_id c = LogStats.log_id e →
          Latest.monitor_id <$> Consistency.latest_per_monitor c
          ≡ₚ LogMonitor.monitor_id <$> ms
          ∧ Consistency.monitor_count c = LogStats.monitor_count e)
  ∧ ∀ m, m ∈ ms →
      LogMonitor.sth_count m
      = length (filter (λ r, Sth.logId r = LogStats.log_id e
                             ∧ Sth.monitorId r = LogMonitor.monitor_id m)
                  (rows db))
      ∧ ∃ last,
          last ∈ rows db ∧ Sth.logId last = LogStats.log_id e
          ∧ Sth.monitorId last = LogMonitor.monitor_id m
          ∧ LogMonitor.last_seen m = Some (Sth.storedAt last)
          ∧ ∀ r, r ∈ rows db → Sth.logId r = LogStats.log_id e →
                 Sth.monitorId r = LogMonitor.monitor_id m →
                 Sth.storedAt r ≤ Sth.storedAt last.
Proof.
  intros He. unfold logs, logGroupsAggregates in He.
  apply list_elem_of_fmap in He as (g & -> & Hg).
  destruct (group_seen _ _ _ Hg)
    as (oldest & _ & _ & _ & Ho & _ & Hok & _ & _ & _ & _ & Hc & _).
  set (k := Group.key g) in *.
  set (of_log := λ r : Sth.t, bool_decide (Sth.logId r = k)).
  cbn [logStats LogStats.monitors LogStats.monitor_count LogStats.log_id
       LogStats.sth_count].
  fold k. fold of_log.
  destruct (groupBy_spec Sth.monitorId of_log db) as [Hnd Hks].
  assert (Hids : LogMonitor.monitor_id
                   <$> ((λ m, {| LogMonitor.monitor_id := Group.key m;
                                 LogMonitor.sth_count := Group._count m;
                                 LogMonitor.last_seen := Group._max_storedAt m |})
                        <$> groupByAggregates Sth.monitorId of_log db)
                 = prisma.groupBy Sth.monitorId of_log db).
  { rewrite <- list_fmap_compose, <- groupByAggregates_keys. reflexivity. }
  assert (Hlen : length (groupByAggregates Sth.monitorId of_log db)
                 = length (prisma.groupBy Sth.monitorId of_log db)).
  { now rewrite <- groupByAggregates_keys, length_fmap. }
  split; [now rewrite length_fmap|]. split.
  { rewrite Hlen.
    assert (Hin : Sth.monitorId oldest ∈ prisma.groupBy Sth.monitorId of_log db).
    { apply Hks. exists oldest. split; [exact Ho|]. split; [|reflexivity].
      unfold of_log. now apply bool_decide_eq_true_2. }
    destruct (prisma.groupBy Sth.monitorId of_log db); [inversion Hin|].
    cbn. lia. }
  split; [now rewrite Hids|]. split.
  { intros m. rewrite Hids, Hks. unfold of_log. split.
    - intros (r & Hr & Hw & Hm). apply bool_decide_eq_true in Hw. eauto.
    - intros (r & Hr & Hw & Hm). exists r. split; [exact Hr|].
      split; [now apply bool_decide_eq_true_2 | exact Hm]. }
  split.
  { rewrite <- list_fmap_compose.
    transitivity (sum_list (Group._count
                            <$> groupByAggregates Sth.monitorId of_log db));
      [reflexivity|].
    rewrite sum_groupByAggregates, Hc. unfold prisma.count, of_log.
    now rewrite filter_bool_decide. }
  split.
  { intros c Hc' Hk. unfold consistency in Hc'.
    apply list_elem_of_fmap in Hc' as (k' & -> & _). cbn in Hk. subst k'.
    destruct (checkConsistency_latest db k) as [Hm _].
    split; [now rewrite Hids, Hm|].
    cbn [checkConsistency Consistency.monitor_count].
    cbn [checkConsistency Consistency.latest_per_monitor] in Hm.
    rewrite <- (length_fmap Latest.monitor_id), Hm, Hlen.
    reflexivity. }
  intros m Hm. apply list_elem_of_fmap in Hm as (gm & -> & Hgm).
  cbn [LogMonitor.sth_count LogMonitor.monitor_id LogMonitor.last_seen].
  destruct (elem_of_groupByAggregates _ _ _ _ Hgm)
    as (Hne & Hcm & _ & Hmax & _ & _).
  split.
  { rewrite Hcm. unfold members. f_equal. apply list_filter_iff. intros r.
    unfold of_log. rewrite bool_decide_eq_true. tauto. }
  destruct (greatest_fmap_Some Sth.storedAt _ Hne) as (last & Hl & El & Hlm).
  pose proof Hl as Hl'.
  apply elem_of_members in Hl' as (Hlr & Hlw & Hlk).
  apply bool_decide_eq_true in Hlw.
  exists last. split; [exact Hlr|]. split; [exact Hlw|]. split; [exact Hlk|].
  split; [now rewrite Hmax, El|].
  intros r Hr Hrk Hrm. apply Hlm. apply elem_of_members.
  split; [exact Hr|]. split; [|exact Hrm].
  unfold of_log. now apply bool_decide_eq_true_2.
Qed.

Lemma logs_monitors_spec_witness :
  sum_list
    (LogMonitor.sth_count
     <$> LogStats.monitors
           (logStats 250 two_rows
              {| Group.key := "AAA="; Group._count := 2;
                 Group._min_storedAt := Some 100;
                 Group._max_storedAt := Some 200;
                 Group._min_treeSize := Some 10;
                 Group._max_treeSize := Some 20 |}))
  = 2%nat.
Proof.
  apply (logs_monitors_spec 250 two_rows
           (logStats 250 two_rows
              {| Group.key := "AAA="; Group._count := 2;
                 Group._min_storedAt := Some 100;
                 Group._max_storedAt := Some 200;
                 Group._min_treeSize := Some 10;
                 Group._max_treeSize := Some 20 |})).
  apply list_elem_of_fmap. eexists. split; [reflexivity|].
  vm_compute. left.
Defined.

(** ** Tree growth and ingestion lag *)

Section GrowthAndLag.
Local Open Scope Q_scope.

(** The difference of two integers in [[0, 2^53)], as a binary64 number. *)
Lemma fsub_exact (a b : Z) :
  (0 ≤ a < 2 ^ 53)%Z → (0 ≤ b < 2 ^ 53)%Z →
  fsub (inject_Z a) (inject_Z b) == inject_Z (a - b).
Proof.
  intros Ha Hb. unfold fsub.
  transitivity (fl (inject_Z (a - b))).
  - apply fl_comp. now rewrite inject_Z_minus.
  - apply fl_exact_Z. lia.
Qed.

(** X15.  When the sizes of the rows of a log are in [[0, 2^53)], the
    [tree_growth_total] of its entry is the greatest size less the least
    size among all rows of the log, whenever they were stored, and it is
    not negative. *)
Theorem tree_growth_spec (now : Z) (db : Store) (e : LogStats.t) :
  e ∈ logs now db →
  (∀ r, r ∈ rows db → Sth.logId r = LogStats.log_id e →
        (0 ≤ Sth.treeSize r < 2 ^ 53)%Z) →
  ∃ smallest largest,
    smallest ∈ rows db ∧ largest ∈ rows db
    ∧ Sth.logId smallest = LogStats.log_id e
    ∧ Sth.logId largest = LogStats.log_id e
    ∧ (∀ r, r ∈ rows db → Sth.logId r = LogStats.log_id e →
            (Sth.treeSize smallest ≤ Sth.treeSize r ≤ Sth.treeSize largest)%Z)
    ∧ LogStats.tree_growth_total e
      == inject_Z (Sth.treeSize largest - Sth.treeSize smallest)
    ∧ 0 <= LogStats.tree_growth_total e.
Proof.
  intros He Hrange. unfold logs, logGroupsAggregates in He.
  apply list_elem_of_fmap in He as (g & -> & Hg).
  cbn [logStats LogStats.log_id LogStats.tree_growth_total] in *.
  destruct (elem_of_groupByAggregates _ _ _ _ Hg)
    as (Hne & _ & _ & _ & Hmin & Hmax).
  destruct (least_fmap_Some Sth.treeSize _ Hne) as (s & Hs & Es & Hsm).
  destruct (greatest_fmap_Some Sth.treeSize _ Hne) as (l & Hl & El & Hlm).
  pose proof Hs as Hs'. pose proof Hl as Hl'.
  apply elem_of_members in Hs' as (Hsr & _ & Hsk).
  apply elem_of_members in Hl' as (Hlr & _ & Hlk).
  pose proof (Hrange s Hsr Hsk) as Rs. pose proof (Hrange l Hlr Hlk) as Rl.
  pose proof (Hsm l Hl) as Hsl.
  assert (E : fsub (inject_Z (Number (default 0%Z (Group._max_treeSize g))))
                (inject_Z (Number (default 0%Z (Group._min_treeSize g))))
              == inject_Z (Sth.treeSize l - Sth.treeSize s)).
  { rewrite Hmin, Hmax, Es, El. cbn [default from_option id].
    rewrite !Number_exact by lia. apply fsub_exact; lia. }
  exists s, l.
  split; [exact Hsr|]. split; [exact Hlr|]. split; [exact Hsk|].
  split; [exact Hlk|]. split.
  { intros r Hr Hk.
    assert (Hin : r ∈ members Sth.logId (λ _, true) db (Group.key g))
      by now apply elem_of_members.
    specialize (Hsm r Hin). specialize (Hlm r Hin). lia. }
  split; [exact E|].
  rewrite E. change 0 with (inject_Z 0). rewrite <- Zle_Qle. lia.
Qed.

Lemma tree_growth_spec_witness :
  0 <= LogStats.tree_growth_total
         (logStats 250 two_rows
            {| Group.key := "AAA="; Group._count := 2;
               Group._min_storedAt := Some 100%Z;
               Group._max_storedAt := Some 200%Z;
               Group._min_treeSize := Some 10%Z;
               Group._max_treeSize := Some 20%Z |}).
Proof.
  destruct (tree_growth_spec 250 two_rows
              (logStats 250 two_rows
                 {| Group.key := "AAA="; Group._count := 2;
                    Group._min_storedAt := Some 100%Z;
                    Group._max_storedAt := Some 200%Z;
                    Group._min_treeSize := Some 10%Z;
                    Group._max_treeSize := Some 20%Z |}))
    as (s & l & _ & _ & _ & _ & _ & _ & H).
  - apply list_elem_of_fmap. eexists. split; [reflexivity|].
    vm_compute. left.
  - intros r Hr _. cbn in Hr.
    apply elem_of_cons in Hr as [->|Hr]; [cbn; lia|].
    apply list_elem_of_singleton in Hr as ->. cbn. lia.
  - exact H.
Defined.

(** A log whose latest stored row reports a smaller tree than an earlier
    row: the growth is that of the sizes, 10, where the latest size less
    the oldest is -10. *)
Example tree_growth_of_sizes :
  let db := {| rows := [ {| Sth.id := 1; Sth.logId := "AAA=";
                            Sth.treeSize := 20; Sth.rootHash := "h2";
                            Sth.timestamp := 1000; Sth.monitorId := "m1";
                            Sth.storedAt := 100 |};
                         {| Sth.id := 2; Sth.logId := "AAA=";
                            Sth.treeSize := 10; Sth.rootHash := "h1";
                            Sth.timestamp := 2000; Sth.monitorId := "m2";
                            Sth.storedAt := 200 |} ];
               next_id := 3 |} in
  ∃ e, logs 250 db = [e]
       ∧ LogStats.tree_growth_total e == 10
       ∧ LogStats.latest_tree_size e = Some 10%Z
       ∧ LogStats.oldest_tree_size e = Some 20%Z.
Proof.
  eexists. split; [reflexivity|].
  split; [vm_compute; reflexivity|]. split; reflexivity.
Qed.

(** The sum of the lags of at most 50 rows with instants in [[0, 2^46)],
    added up in binary64, is exact. *)
Lemma totalLag_exact_from (lags : list Sth.t) (acc : Q) (a : Z) :
  acc == inject_Z a →
  (∀ s, s ∈ lags →
        (0 ≤ Sth.storedAt s < 2 ^ 46 ∧ 0 ≤ Sth.timestamp s < 2 ^ 46)%Z) →
  (Z.abs a + Z.of_nat (length lags) * 2 ^ 46 ≤ 50 * 2 ^ 46)%Z →
  foldl
    (λ sum s,
       fadd sum
         (fsub (inject_Z (Sth.storedAt s))
            (inject_Z (Number (Sth.timestamp s)))))
    acc lags
  == inject_Z (a + Zsum (lag <$> lags))
  ∧ (Z.abs (a + Zsum (lag <$> lags)) ≤ 50 * 2 ^ 46)%Z.
Proof.
  revert acc a. induction lags as [|s l IH]; intros acc a Hacc Hrange Hb.
  - cbn. rewrite Z.add_0_r. cbn in Hb. split; [exact Hacc | lia].
  - cbn [foldl fmap list_fmap Zsum foldr].
    destruct (Hrange s ltac:(left)) as [Hs Ht].
    cbn [length] in Hb. rewrite Nat2Z.inj_succ in Hb.
    assert (Hlag : (Z.abs (lag s) < 2 ^ 46)%Z) by (unfold lag; lia).
    assert (Hstep : fadd acc
                      (fsub (inject_Z (Sth.storedAt s))
                         (inject_Z (Number (Sth.timestamp s))))
                    == inject_Z (a + lag s)).
    { unfold fadd.
      transitivity (fl (inject_Z (a + lag s))).
      - apply fl_comp. rewrite inject_Z_plus, Hacc.
        apply Qplus_comp; [reflexivity|].
        rewrite Number_exact by lia. apply fsub_exact; lia.
      - apply fl_exact_Z. lia. }
    destruct (IH _ (a + lag s)%Z Hstep) as [E Hbound].
    + intros s' Hs'. apply Hrange. now right.
    + lia.
    + change (foldr Z.add 0%Z (lag <$> l)) with (Zsum (lag <$> l)).
      rewrite Z.add_assoc. split; [exact E | exact Hbound].
Qed.

Lemma totalLag_exact (lags : list Sth.t) :
  (∀ s, s ∈ lags →
        (0 ≤ Sth.storedAt s < 2 ^ 46 ∧ 0 ≤ Sth.timestamp s < 2 ^ 46)%Z) →
  (length lags ≤ 50)%nat →
  totalLag lags == inject_Z (Zsum (lag <$> lags))
  ∧ (Z.abs (Zsum (lag <$> lags)) < 2 ^ 52)%Z.
Proof.
  intros Hrange Hlen.
  destruct (totalLag_exact_from lags 0 0%Z) as [E Hb].
  - reflexivity.
  - exact Hrange.
  - cbn [Z.abs]. lia.
  - rewrite Z.add_0_l in E, Hb. split; [exact E | lia].
Qed.

(** X16.  When the rows of a log are stored and stamped at instants in
    [[0, 2^46)] ms, the [avg_ingestion_lag_ms] of its entry is the mean
    of [stored_at - timestamp] over the 50 latest stored rows of the log,
    or over all of them when they are fewer, rounded to the nearest
    integer, halves up. *)
Theorem avg_ingestion_lag_spec (now : Z) (db : Store) (e : LogStats.t) :
  e ∈ logs now db →
  (∀ r, r ∈ rows db → Sth.logId r = LogStats.log_id e →
        (0 ≤ Sth.storedAt r < 2 ^ 46 ∧ 0 ≤ Sth.timestamp r < 2 ^ 46)%Z) →
  ∃ lags rest,
    lags ++ rest ≡ₚ filter (λ r, Sth.logId r = LogStats.log_id e) (rows db)
    ∧ length lags = (50 `min` LogStats.sth_count e)%nat
    ∧ (∀ x y, x ∈ lags → y ∈ rest → (Sth.storedAt y ≤ Sth.storedAt x)%Z)
    ∧ LogStats.avg_ingestion_lag_ms e
      = Some (inject_Z (nearest (Zsum (lag <$> lags))
                          (Z.of_nat (length lags)))).
Proof.
  intros He Hrange. unfold logs, logGroupsAggregates in He.
  apply list_elem_of_fmap in He as (g & -> & Hg).
  destruct (group_seen _ _ _ Hg)
    as (oldest & latest & Fo & Fl & _ & _ & _ & _ & _ & _ & _ & Hc & Hpos).
  cbn [logStats LogStats.log_id LogStats.sth_count
       LogStats.avg_ingestion_lag_ms] in *.
  rewrite Fo, Fl.
  set (of_log := λ r : Sth.t, bool_decide (Sth.logId r = Group.key g)).
  destruct (findMany_spec of_log 50 db) as (rest & Hperm & Hlen & Hord).
  set (lags := findMany of_log 50 db) in *.
  unfold of_log in Hperm. rewrite filter_bool_decide in Hperm.
  assert (Hlen' : length lags = (50 `min` Group._count g)%nat).
  { rewrite Hlen, Hc. unfold prisma.count, of_log.
    now rewrite filter_bool_decide. }
  exists lags, rest.
  split; [exact Hperm|]. split; [exact Hlen'|]. split; [exact Hord|].
  assert (Hn : (0 < length lags)%nat) by lia.
  rewrite (proj2 (Nat.ltb_lt _ _) Hn).
  assert (Hin : ∀ s, s ∈ lags →
            (0 ≤ Sth.storedAt s < 2 ^ 46 ∧ 0 ≤ Sth.timestamp s < 2 ^ 46)%Z).
  { intros s Hs.
    assert (Hs' : s ∈ filter (λ r, Sth.logId r = Group.key g) (rows db)).
    { rewrite <- Hperm. apply elem_of_app. now left. }
    apply list_elem_of_filter in Hs' as [Hk Hr]. now apply Hrange. }
  destruct (totalLag_exact lags Hin ltac:(lia)) as [E Hb].
  unfold Math_round. do 2 f_equal.
  rewrite <- (round_div (Zsum (lag <$> lags)) (Z.of_nat (length lags))
                ltac:(lia) Hb).
  apply Qfloor_comp. apply Qplus_comp; [|reflexivity].
  unfold fdiv. apply fl_comp. apply Qdiv_comp; [exact E | reflexivity].
Qed.

Lemma avg_ingestion_lag_spec_witness :
  ∃ lags,
    length lags = 2%nat
    ∧ LogStats.avg_ingestion_lag_ms
        (logStats 250 two_rows
           {| Group.key := "AAA="; Group._count := 2;
              Group._min_storedAt := Some 100%Z;
              Group._max_storedAt := Some 200%Z;
              Group._min_treeSize := Some 10%Z;
              Group._max_treeSize := Some 20%Z |})
      = Some (inject_Z (nearest (Zsum (lag <$> lags))
                          (Z.of_nat (length lags)))).
Proof.
  destruct (avg_ingestion_lag_spec 250 two_rows
              (logStats 250 two_rows
                 {| Group.key := "AAA="; Group._count := 2;
                    Group._min_storedAt := Some 100%Z;
                    Group._max_storedAt := Some 200%Z;
                    Group._min_treeSize := Some 10%Z;
                    Group._max_treeSize := Some 20%Z |}))
    as (lags & rest & _ & Hlen & _ & H).
  - apply list_elem_of_fmap. eexists. split; [reflexivity|].
    vm_compute. left.
  - intros r Hr _. cbn in Hr.
    apply elem_of_cons in Hr as [->|Hr]; [cbn; lia|].
    apply list_elem_of_singleton in Hr as ->. cbn. lia.
  - exists lags. split; [exact Hlen | exact H].
Defined.

End GrowthAndLag.

(** * The normalizer and the earlier handlers *)

Lemma normalizedLogId_empty (l : string) : normalizedLogId l = "" ↔ l = "".
Proof.
  split; [|now intros ->].
  intros H. apply (f_equal String.length) in H.
  rewrite normalizedLogId_append, length_append in H.
  destruct l as [|a l]; [reflexivity|]. cbn in H. lia.
Qed.

Lemma falsy_normalize (x : Js.t) : Js.falsy (normalize x) = Js.falsy x.
Proof.
  destruct x as [| |b|q|s|l]; try reflexivity.
  - cbn. apply bool_decide_ext, normalizedLogId_empty.
  - cbn [normalize].
    destruct (Nat.eqb_spec ((4 - length l mod 4) mod 4) 0) as [E|E];
      [reflexivity|].
    cbn [Js.falsy]. apply bool_decide_eq_false. intros H.
    apply (f_equal String.length) in H.
    rewrite length_append, length_repeat in H.
    change (String.length "=") with 1%nat in H.
    change (String.length "") with 0%nat in H. lia.
Qed.

(** X20.  The handlers are the handlers of the earlier revision applied
    to the padded identifier: a submission is answered, and stored, as the
    earlier handler answers and stores the body with its identifier
    padded, and a lookup as the earlier lookup of the padded identifier;
    the two revisions agree on identifiers whose length is a multiple
    of 4, and on bodies without one. *)
Theorem normalizer_over_legacy (now : Z) (body : Body.t) (logId : string)
    (db : Store) :
  submit now body db = Legacy.router_post now (normalized_body body) db
  ∧ router_get logId db = Legacy.router_get (normalizedLogId logId) db
  ∧ (Js.missing (Body.log_id body)
     ∨ (∃ s, Body.log_id body = Js.str s ∧ (String.length s mod 4 = 0)%nat) →
     submit now body db = Legacy.router_post now body db)
  ∧ ((String.length logId mod 4 = 0)%nat →
     router_get logId db = Legacy.router_get logId db).
Proof.
  assert (Hpost : submit now body db
                  = Legacy.router_post now (normalized_body body) db).
  { unfold submit, Legacy.router_post, normalized_body.
    cbn [Body.log_id Body.tree_size Body.root_hash Body.timestamp
         Body.monitor_id].
    now rewrite falsy_normalize. }
  assert (Hget : router_get logId db
                 = Legacy.router_get (normalizedLogId logId) db).
  { rewrite router_get_unfold. reflexivity. }
  split; [exact Hpost|]. split; [exact Hget|]. split.
  - intros Hid. rewrite Hpost. f_equal. unfold normalized_body.
    destruct body as [l t h ts m]. cbn [Body.log_id] in *. f_equal.
    destruct Hid as [[-> | ->]|(s & -> & Hlen)]; try reflexivity.
    cbn [normalize]. now rewrite (normalizedLogId_canonical s Hlen).
  - intros Hlen. rewrite Hget. now rewrite (normalizedLogId_canonical _ Hlen).
Qed.

Lemma normalizer_over_legacy_witness :
  router_get "AAA=" two_rows = Legacy.router_get "AAA=" two_rows.
Proof.
  apply (normalizer_over_legacy 0 (body_of "AAA=" 10 "h1" 1000 "m1") "AAA="
           two_rows).
  reflexivity.
Defined.

(** A record stored by the earlier handler under an unpadded identifier:
    the earlier lookup finds it under that identifier, the lookup misses
    it under any, until the migration has run. *)
Example legacy_rows_need_migration :
  let db := (Legacy.router_post 5 (body_of "AAA" 10 "h1" 1000 "m1")
               empty_store).2 in
  Sth.logId <$> rows db = ["AAA"]
  ∧ status (Legacy.router_get "AAA" db) = 200
  ∧ status (router_get "AAA" db) = 404
  ∧ status (router_get "AAA=" db) = 404
  ∧ ∀ LENGTH, LENGTH "AAA" = 3%nat →
      status (router_get "AAA" (migration LENGTH db)) = 200.
Proof.
  repeat split; try reflexivity. intros LENGTH HL.
  match goal with
  | |- context [migration LENGTH ?d] =>
      let d' := eval vm_compute in d in change d with d'
  end.
  unfold migration. cbn [rows fmap list_fmap Sth.logId]. rewrite HL.
  reflexivity.
Qed.

(** * Further properties of the report *)

Lemma length_le_sum_list (l : list nat) :
  (∀ x, x ∈ l → (1 ≤ x)%nat) → (length l ≤ sum_list l)%nat.
Proof.
  induction l as [|x l IH]; intros H; [cbn; lia|].
  cbn. specialize (H x ltac:(left)) as Hx.
  specialize (IH (λ y Hy, H y ltac:(now right))). lia.
Qed.

Lemma groupByAggregates_length_le (by_ : Sth.t → string) (db : Store) :
  (length (groupByAggregates by_ (λ _, true) db) ≤ length (rows db))%nat.
Proof.
  rewrite <- count_true, <- (sum_groupByAggregates by_).
  rewrite <- (length_fmap Group._count). apply length_le_sum_list.
  intros x (g & -> & Hg)%list_elem_of_fmap.
  now destruct (group_seen _ _ _ Hg) as (_ & _ & _ & _ & _ & _ & _ & _ & _ & _
                                          & _ & _ & Hpos).
Qed.

(** X18.  The report of a table with no rows: every count is 0, the data
    range is null with a span of 0 hours, both rates are 0 (no division
    takes place), the histograms keep their 24 and 12 buckets, all at 0,
    and the three breakdowns are empty.  No other table has a total
    of 0. *)
Theorem report_empty (toISOString : Z → string) (now : Z) (db : Store) :
  let report := router_get_stats toISOString now db in
  (Report.total_sths report = 0%nat ↔ rows db = [])
  ∧ (rows db = [] →
     Report.unique_logs report = 0%nat
     ∧ Report.unique_monitors report = 0%nat
     ∧ Report.data_range report
       = {| DataRange.oldest_stored_at := None;
            DataRange.newest_stored_at := None;
            DataRange.span_hours := 0%Q |}
     ∧ Report.ingestion_rates report
       = {| IngestionRates.per_hour := 0%Q; IngestionRates.per_day := 0%Q |}
     ∧ Report.recent_activity report
       = {| RecentActivity.last_1h := 0; RecentActivity.last_24h := 0;
            RecentActivity.last_7d := 0 |}
     ∧ Hourly.count <$> Report.hourly_histogram report = replicate 24 0%nat
     ∧ FiveMin.count <$> Report.five_min_histogram report
       = replicate 12 0%nat
     ∧ Report.logs report = []
     ∧ Report.monitors report = []
     ∧ Report.consistency report = []).
Proof.
  cbn [router_get_stats Report.total_sths Report.unique_logs
       Report.unique_monitors Report.data_range Report.ingestion_rates
       Report.recent_activity Report.hourly_histogram
       Report.five_min_histogram Report.logs Report.monitors
       Report.consistency].
  split.
  - rewrite totalSths_length. apply length_zero_iff_nil.
  - destruct db as [l n]. cbn [rows]. intros ->.
    repeat split; reflexivity.
Qed.

Lemma report_empty_witness :
  Report.logs (router_get_stats (λ _, "") 250 empty_store) = [].
Proof.
  apply (report_empty (λ _, "") 250 empty_store). reflexivity.
Defined.

(** X19.  The parts of one report agree: [unique_logs] is the number of
    entries of the per-log statistics and of the consistency entries,
    [unique_monitors] the number of entries of the per-monitor statistics;
    [total_sths] is the sum of the counts of the per-log entries and the
    sum of the counts of the per-monitor entries; there are no more logs
    and no more monitors than rows, and none only in the empty table. *)
Theorem report_counts (toISOString : Z → string) (now : Z) (db : Store) :
  let report := router_get_stats toISOString now db in
  Report.unique_logs report = length (Report.logs report)
  ∧ Report.unique_logs report = length (Report.consistency report)
  ∧ Report.unique_monitors report = length (Report.monitors report)
  ∧ Report.total_sths report
    = sum_list (LogStats.sth_count <$> Report.logs report)
  ∧ Report.total_sths report
    = sum_list (MonitorStats.sth_count <$> Report.monitors report)
  ∧ (Report.unique_logs report ≤ Report.total_sths report)%nat
  ∧ (Report.unique_monitors report ≤ Report.total_sths report)%nat
  ∧ (Report.unique_logs report = 0%nat ↔ Report.total_sths report = 0%nat)
  ∧ (Report.unique_monitors report = 0%nat
     ↔ Report.total_sths report = 0%nat).
Proof.
  cbn [router_get_stats Report.total_sths Report.unique_logs
       Report.unique_monitors Report.logs Report.monitors Report.consistency].
  rewrite totalSths_length.
  pose proof (groupByAggregates_length_le Sth.logId db) as Hl.
  pose proof (groupByAggregates_length_le Sth.monitorId db) as Hm.
  fold (logGroupsAggregates db) in Hl. fold (monitorGroups db) in Hm.
  assert (Hne : ∀ by_, rows db ≠ [] →
            groupByAggregates by_ (λ _, true) db ≠ []).
  { intros by_ Hrows Hnil. destruct (rows db) as [|r l] eqn:E; [contradiction|].
    assert (Hk : by_ r ∈ prisma.groupBy by_ (λ _, true) db).
    { apply groupBy_spec. exists r. rewrite E. split; [left | split; reflexivity]. }
    rewrite <- groupByAggregates_keys, Hnil in Hk. inversion Hk. }
  assert (Hzero : ∀ by_,
            length (groupByAggregates by_ (λ _, true) db) = 0%nat
            ↔ length (rows db) = 0%nat).
  { intros by_. rewrite !length_zero_iff_nil. split.
    - intros Hnil. destruct (rows db) as [|r l] eqn:E; [reflexivity|].
      exfalso. apply (Hne by_); [discriminate | exact Hnil].
    - intros Hnil. unfold groupByAggregates, prisma.groupBy.
      now rewrite Hnil. }
  split; [unfold logs; now rewrite length_fmap|].
  split.
  { unfold consistency, logGroupsAggregates, logGroups.
    now rewrite length_fmap, <- groupByAggregates_keys, length_fmap. }
  split; [unfold monitors; now rewrite length_fmap|].
  split.
  { unfold logs, logGroupsAggregates. rewrite <- list_fmap_compose.
    rewrite <- count_true, <- sum_groupByAggregates with (by_ := Sth.logId).
    reflexivity. }
  split.
  { unfold monitors, monitorGroups. rewrite <- list_fmap_compose.
    rewrite <- count_true, <- sum_groupByAggregates with (by_ := Sth.monitorId).
    reflexivity. }
  split; [exact Hl|]. split; [exact Hm|].
  split; [apply Hzero | apply Hzero].
Qed.

(** * Submissions and the report *)

(** A submission answered 201 appends the row it describes; any other
    leaves the store as it was. *)
Lemma submit_created (now : Z) (body : Body.t) (db : Store) :
  (status (submit now body db).1 = 201
   ∧ ∃ logId treeSize rootHash timestamp monitorId,
       normalize (Body.log_id body) = Js.str logId
       ∧ Body.monitor_id body = Js.str monitorId
       ∧ rows (submit now body db).2
         = rows db
           ++ [created db now logId treeSize rootHash timestamp monitorId])
  ∨ (status (submit now body db).1 ≠ 201 ∧ (submit now body db).2 = db).
Proof.
  destruct (submit_cases body db)
    as [[_ H]|[[_ H]|[(_ & l & t & h & e & _ & _ & _ & _ & _ & H)
                     |(_ & l & t & h & ts & m & Hl & _ & _ & _ & _ & _ & Hm
                       & _ & H)]]];
    rewrite (H now); cbn [fst snd status thrown rows].
  1-3: right; split; [discriminate | reflexivity].
  left. split; [reflexivity|]. now exists l, t, h, ts, m.
Qed.

Lemma rows_from_app (lo : Z) (db : Store) (sth : Sth.t) (n : Z) :
  rows_from lo {| rows := rows db ++ [sth]; next_id := n |}
  = (rows_from lo db
     + (if decide (lo ≤ Sth.storedAt sth)%Z then 1 else 0))%nat.
Proof.
  unfold rows_from. cbn [rows]. rewrite filter_app, length_app. f_equal.
  rewrite filter_cons, filter_nil.
  now destruct (decide (lo ≤ Sth.storedAt sth)).
Qed.

(** X21.  Whatever the credentials and the body, the handler of a
    submission keeps the table within the states that submissions reach,
    with the rows it had at the head of the table and no identity triple
    stored twice; when the submitted [log_id] is a string, it keeps every
    identifier in padded form. *)
Theorem router_post_invariants (apiKey authorization : field string)
    (now : Z) (body : Body.t) (db0 db : Store) :
  let db' := (router_post apiKey authorization now body db).2 in
  (reachable db0 db → reachable db0 db')
  ∧ ((∃ s, Body.log_id body = Js.str s) → canonical db → canonical db')
  ∧ (unique_triples db → unique_triples db')
  ∧ rows db `prefix_of` rows db'.
Proof.
  intros db'. unfold db'.
  destruct (router_post_gate apiKey authorization now body db) as [->| ->].
  - split; [now apply reachable_submit|].
    split; [intros [s Hs]; now apply (submit_canonical _ _ _ s)|].
    split; [apply submit_unique_triples|].
    destruct (submit_created now body db)
      as [[_ (l & t & h & ts & m & _ & _ & ->)]|[_ ->]];
      [now apply prefix_app_r | reflexivity].
  - repeat split; auto.
Qed.

Lemma router_post_invariants_witness :
  canonical
    (router_post (val "k") (val "Bearer k") 5
       (body_of "AAA" 10 "h1" 1000 "m1") empty_store).2.
Proof.
  apply (router_post_invariants (val "k") (val "Bearer k") 5
           (body_of "AAA" 10 "h1" 1000 "m1") empty_store empty_store).
  - now exists "AAA".
  - intros r Hr. inversion Hr.
Defined.

(** X22.  A submission and the report that follows: a submission that is
    not answered 201 leaves the report as it was; one that is answered 201
    at instant [t] adds one to [total_sths], has its padded identifier
    among the per-log statistics and its monitor among the per-monitor
    statistics, adds one to the count of the last hour exactly when [t] is
    within the hour before the report or later, and, when no row was
    stored later than [t], makes [t] the [newest_stored_at]. *)
Theorem submit_then_stats (toISOString : Z → string) (t now : Z)
    (body : Body.t) (db : Store) :
  let res := submit t body db in
  let before := router_get_stats toISOString now db in
  let after := router_get_stats toISOString now res.2 in
  (status res.1 ≠ 201 → after = before)
  ∧ (status res.1 = 201 →
     Report.total_sths after = S (Report.total_sths before)
     ∧ (∃ logId monitorId,
          normalize (Body.log_id body) = Js.str logId
          ∧ Body.monitor_id body = Js.str monitorId
          ∧ logId ∈ LogStats.log_id <$> Report.logs after
          ∧ monitorId ∈ MonitorStats.monitor_id <$> Report.monitors after)
     ∧ RecentActivity.last_1h (Report.recent_activity after)
       = (RecentActivity.last_1h (Report.recent_activity before)
          + (if decide (now - 3600000 ≤ t)%Z then 1 else 0))%nat
     ∧ ((∀ r, r ∈ rows db → Sth.storedAt r ≤ t) →
        DataRange.newest_stored_at (Report.data_range after) = Some t)).
Proof.
  intros res before after. subst res before after. split.
  - intros Hs. destruct (submit_created t body db) as [[Hc _]|[_ ->]];
      [contradiction | reflexivity].
  - intros Hs.
    destruct (submit_created t body db)
      as [[_ (l & ts & h & tm & m & Hl & Hm & Hrows)]|[Hc _]];
      [|contradiction].
    set (db' := (submit t body db).2) in *.
    set (sth := created db t l ts h tm m) in *.
    assert (Hin : sth ∈ rows db').
    { rewrite Hrows. apply elem_of_app. right. left. }
    cbn [router_get_stats Report.total_sths Report.logs Report.monitors
         Report.recent_activity Report.data_range RecentActivity.last_1h].
    split.
    { rewrite !totalSths_length, Hrows, length_app. cbn. lia. }
    split.
    { exists l, m. split; [exact Hl|]. split; [exact Hm|]. split.
      - rewrite logs_keys. unfold logGroups. apply groupBy_spec.
        exists sth. split; [exact Hin|]. split; reflexivity.
      - unfold monitors, monitorGroups.
        rewrite <- list_fmap_compose.
        change (MonitorStats.monitor_id ∘ _) with Group.key.
        rewrite groupByAggregates_keys. apply groupBy_spec.
        exists sth. split; [exact Hin|]. split; reflexivity. }
    split.
    { unfold last1h, oneHourAgo. rewrite !count_gte.
      change (60 * 60 * 1000) with 3600000.
      replace db' with {| rows := rows db ++ [sth]; next_id := next_id db' |}
        by (destruct db'; cbn in Hrows; now rewrite Hrows).
      apply rows_from_app. }
    intros Hlate. unfold dataRange. cbn [DataRange.newest_stored_at].
    destruct (prisma.findFirst (λ _, true) (Some desc) db') as [n|] eqn:F.
    + apply findFirst_desc_Some in F as (Hn & _ & Hmax).
      cbn. f_equal. specialize (Hmax sth Hin eq_refl). cbn in Hmax.
      rewrite Hrows in Hn. apply elem_of_app in Hn as [Hn|Hn].
      * specialize (Hlate n Hn). lia.
      * apply list_elem_of_singleton in Hn as ->. reflexivity.
    + rewrite findFirst_desc_None in F. specialize (F sth Hin). discriminate.
Qed.

Lemma submit_then_stats_witness :
  Report.total_sths
    (router_get_stats (λ _, "") 250
       (submit 5 (body_of "AAA" 10 "h1" 1000 "m1") empty_store).2)
  = S (Report.total_sths (router_get_stats (λ _, "") 250 empty_store)).
Proof.
  apply (submit_then_stats (λ _, "") 5 250 (body_of "AAA" 10 "h1" 1000 "m1")
           empty_store).
  reflexivity.
Defined.

(** * The per-log statistics and the lookup *)

(** X23.  On a table in padded form, the lookup of a log listed in the
    per-log statistics answers 200 with the identifier of the entry, and
    with the [tree_size] and [timestamp] that the entry reports as
    [latest_tree_size] and [latest_timestamp]. *)
Theorem logs_latest_is_lookup (now : Z) (db : Store) (e : LogStats.t) :
  canonical db →
  e ∈ logs now db →
  ∃ sth,
    router_get (LogStats.log_id e) db
    = {| status := 200; json := SthResponseJson sth |}
    ∧ Json.r_log_id sth = LogStats.log_id e
    ∧ LogStats.latest_tree_size e = Some (Json.r_tree_size sth)
    ∧ LogStats.latest_timestamp e = Some (Json.r_timestamp sth).
Proof.
  intros Hcan He. unfold logs, logGroupsAggregates in He.
  apply list_elem_of_fmap in He as (g & -> & Hg).
  destruct (group_seen _ _ _ Hg)
    as (oldest & latest & _ & Fl & Ho & Hl & Hok & Hlk & _).
  cbn [logStats LogStats.log_id LogStats.latest_tree_size
       LogStats.latest_timestamp].
  rewrite router_get_unfold.
  assert (Hk : normalizedLogId (Group.key g) = Group.key g).
  { apply normalizedLogId_canonical. rewrite <- Hlk. now apply Hcan. }
  rewrite Hk, Fl. eexists. split; [reflexivity|].
  cbn. split; [exact Hlk|]. split; reflexivity.
Qed.

Lemma logs_latest_is_lookup_witness :
  ∃ sth,
    router_get "AAA=" two_rows
    = {| status := 200; json := SthResponseJson sth |}
    ∧ Json.r_log_id sth = "AAA=".
Proof.
  destruct (logs_latest_is_lookup 250 two_rows
              (logStats 250 two_rows
                 {| Group.key := "AAA="; Group._count := 2;
                    Group._min_storedAt := Some 100;
                    Group._max_storedAt := Some 200;
                    Group._min_treeSize := Some 10;
                    Group._max_treeSize := Some 20 |}))
    as (sth & H1 & H2 & _).
  - intros r Hr. cbn in Hr.
    apply elem_of_cons in Hr as [->|Hr]; [reflexivity|].
    apply list_elem_of_singleton in Hr as ->. reflexivity.
  - apply list_elem_of_fmap. eexists. split; [reflexivity|].
    vm_compute. left.
  - exists sth. split; [exact H1 | exact H2].
Defined.
